(** * splat_plot.plotSpectrum: a shallow embedding and its properties

    The module under study is one Python 2 function, [plotSpectrum], which
    normalises a loosely structured collection of Spectrum objects and a
    keyword dictionary into plot groups, and then drives matplotlib.

    Modelling choices:
    - Python floats are IEEE binary64 numbers: Rocq's primitive floats.
    - Python lists that the caller may pass in the keyword dictionary are
      mutable shared objects.  They live in a store and the keyword record
      holds references to them, so that [bound = xrange] and
      [features.extend(...)] alias the caller's list exactly as in Python.
    - Calls to the plotting backend (matplotlib) and [print] statements are
      recorded, in order, in a trace of events.
    - Python exceptions are the error results of a state-and-error monad. *)

From Stdlib Require Import ZArith List String Ascii Bool Lia.
From Stdlib Require Import Floats.PrimFloat Floats.FloatOps Floats.SpecFloat.
From Stdlib Require Import Numbers.Cyclic.Int63.Uint63 Numbers.DecimalString.
From stdpp Require Import base list strings.

Set Warnings "-inexact-float,-register-all".

Local Open Scope Z_scope.
Local Open Scope string_scope.
Local Open Scope list_scope.

(** ** The numeric library (numpy, scipy) on binary64 floats

    These functions are not code of the repository.  They are given here in
    the documented meaning the source relies on, so that the model can be
    evaluated on concrete spectra. *)

Module Numpy.

Definition float_of_Z (z : Z) : float := PrimFloat.of_uint63 (Uint63.of_Z z).
Definition float_of_nat (n : nat) : float := float_of_Z (Z.of_nat n).

(** The least integer not below a finite float (0 for nan and infinities). *)
Definition ceil (f : float) : Z :=
  match Prim2SF f with
  | S754_finite s m e =>
      if (0 <=? e)%Z then (if s then - (Zpos m * 2 ^ e) else Zpos m * 2 ^ e)%Z
      else let d := (2 ^ (- e))%Z in
           if s then (- (Zpos m / d))%Z else ((Zpos m + d - 1) / d)%Z
  | _ => 0%Z
  end.

(** [numpy.maximum(x, y)] and [numpy.max([x, y])]: a nan wins. *)
Definition maximum (x y : float) : float :=
  if PrimFloat.is_nan x then x else if PrimFloat.is_nan y then y
  else if PrimFloat.ltb x y then y else x.

Definition minimum (x y : float) : float :=
  if PrimFloat.is_nan x then x else if PrimFloat.is_nan y then y
  else if PrimFloat.ltb y x then y else x.

(** [numpy.fmax]: a nan loses; the step of [numpy.nanmax]. *)
Definition fmax (x y : float) : float :=
  if PrimFloat.is_nan x then y else if PrimFloat.is_nan y then x
  else if PrimFloat.ltb x y then y else x.

Definition fmin (x y : float) : float :=
  if PrimFloat.is_nan x then y else if PrimFloat.is_nan y then x
  else if PrimFloat.ltb y x then y else x.

(** Reductions; [None] is the ValueError numpy raises on an empty array. *)
Definition reduce (op : float -> float -> float) (l : list float) : option float :=
  match l with
  | [] => None
  | x :: t => Some (fold_left op t x)
  end.

Definition max := reduce maximum.
Definition min := reduce minimum.
Definition nanmax := reduce fmax.
Definition nanmin := reduce fmin.

Definition sum (l : list float) : float := fold_left PrimFloat.add l 0%float.

Definition mean (l : list float) : float :=
  PrimFloat.div (sum l) (float_of_nat (length l)).

(** [numpy.arange(start, stop, step)]: ceil((stop - start)/step) samples.
    numpy stores the first two, [start] and [start + step], and fills sample
    [i] with [start + i*delta], where [delta] is the difference of those two
    as computed in binary64. *)
Definition arange (start stop step : float) : list float :=
  let n := Z.to_nat (ceil (PrimFloat.div (PrimFloat.sub stop start) step)) in
  let next := PrimFloat.add start step in
  let delta := PrimFloat.sub next start in
  List.map (fun i => match i with
                     | O => start
                     | S O => next
                     | _ => PrimFloat.add start (PrimFloat.mul (float_of_nat i) delta)
                     end) (seq 0 n).

(** [numpy.searchsorted(xs, x)] on an increasing [xs]: how many entries lie
    strictly below [x]. *)
Fixpoint searchsorted (xs : list float) (x : float) : nat :=
  match xs with
  | [] => 0%nat
  | xi :: t => if PrimFloat.ltb xi x then S (searchsorted t x) else 0%nat
  end.

(** numpy's order on floats for sorting: a nan comes last. *)
Definition le_nan_last (x y : float) : bool :=
  if PrimFloat.is_nan y then true
  else if PrimFloat.is_nan x then false
  else PrimFloat.leb x y.

Fixpoint insert_by_x (p : float * float) (l : list (float * float)) : list (float * float) :=
  match l with
  | [] => [p]
  | q :: t => if le_nan_last (fst p) (fst q) then p :: l else q :: insert_by_x p t
  end.

(** The samples in the order of [numpy.argsort(x, kind="mergesort")]: sorted
    by abscissa, samples of equal abscissa staying in their order. *)
Definition sort_by_x (samples : list (float * float)) : list (float * float) :=
  fold_right insert_by_x [] samples.

(** The interpolant of [scipy.interpolate.interp1d] on samples sorted by
    abscissa (at least one), applied to one abscissa: linear interpolation
    between the neighbouring samples, and the fill value 0 outside the
    sampled range. *)
Definition interp_at (xs ys : list float) (x : float) : float :=
  let n := length xs in
  let first := nth 0 xs 0%float in
  let last := nth (n - 1) xs 0%float in
  if PrimFloat.ltb x first || PrimFloat.ltb last x then 0%float
  else
    let hi := Nat.min (Nat.max (searchsorted xs x) 1) (n - 1) in
    let lo := (hi - 1)%nat in
    let x_lo := nth lo xs 0%float in
    let x_hi := nth hi xs 0%float in
    let y_lo := nth lo ys 0%float in
    let y_hi := nth hi ys 0%float in
    let slope := PrimFloat.div (PrimFloat.sub y_hi y_lo) (PrimFloat.sub x_hi x_lo) in
    PrimFloat.add (PrimFloat.mul slope (PrimFloat.sub x x_lo)) y_lo.

(** Why [interp1d] refuses its samples. *)
Inductive interp_error :=
| TakeOutOfBounds    (* numpy.take(y, ind): more abscissas than ordinates *)
| NoEntries.         (* "x and y arrays must have at least ... entries" *)

(** [scipy.interpolate.interp1d(xs, ys, bounds_error=False, fill_value=0.)]:
    the samples are sorted by abscissa first, the ordinates being taken at
    the positions of the sorted abscissas, so ordinates beyond the number of
    abscissas are dropped and missing ones are an IndexError; no sample at
    all is a ValueError.  (A single sample is accepted here, as by recent
    versions of scipy; older ones ask for two.) *)
Definition interp1d (xs ys : list float)
  : interp_error + (list float -> list float) :=
  if (length ys <? length xs)%nat then inl TakeOutOfBounds
  else match xs with
       | [] => inl NoEntries
       | _ :: _ =>
           let sorted := sort_by_x (combine xs ys) in
           inr (fun xnew => List.map (interp_at (List.map fst sorted) (List.map snd sorted))
                                     xnew)
       end.

End Numpy.

Arguments Numpy.arange : simpl never.
Arguments Numpy.interp1d : simpl never.
Arguments Numpy.sort_by_x : simpl never.
Arguments Numpy.interp_at : simpl never.
Arguments Numpy.mean : simpl never.
Arguments Numpy.ceil : simpl never.
Arguments Numpy.float_of_Z : simpl never.
Arguments Numpy.float_of_nat : simpl never.

(** ** Data model *)

(** A Spectrum object, as far as [plotSpectrum] reads it.  [fluxMax] stands
    for the value of the method [fluxMax()], defined by the Spectrum class
    outside this module.  The descriptive attributes may be missing. *)
Record Spectrum := mkSpectrum {
  wave : list float;
  flux : list float;
  noise : list float;
  fluxMax : float;
  wlabel : option string;
  wunit : option string;
  fscale : option string;
  flabel : option string;
  funit : option string
}.

(** A positional argument: a Spectrum object, a list, or some other object,
    kept by its printed form.  The other objects stand for plain values such
    as numbers or [None]: they cannot be iterated over or indexed and have
    none of the attributes of a Spectrum.  Tuples and objects of other
    classes that carry the attributes of a Spectrum are not represented. *)
Inductive pyobj :=
| PSpectrum (s : Spectrum)
| PList (l : list pyobj)
| POther (repr : string).

Definition is_Spectrum (a : pyobj) : bool :=
  match a with PSpectrum _ => true | _ => false end.

Definition is_list (a : pyobj) : bool :=
  match a with PList _ => true | _ => false end.

(** A line colour: a matplotlib colour name, or the RGBA value a colour map
    gives to [v] on the scale 0..[vmax]. *)
Inductive color :=
| Named (name : string)
| Mapped (cmap : string) (v vmax : nat).

(** ** The store of mutable lists *)

Record ref (A : Type) := Ref { addr : nat }.
Arguments Ref {A} addr.
Arguments addr {A} r.

Abbreviation store A := (list (list A)).

Record Heap := mkHeap {
  floats : store float;
  strs : store string;
  cols : store color;
  bools : store bool
}.

Definition empty_heap : Heap := mkHeap [] [] [] [].

Class Cell (A : Type) := {
  cell_get : Heap -> store A;
  cell_set : store A -> Heap -> Heap
}.

#[global] Instance float_cell : Cell float :=
  {| cell_get := floats; cell_set s h := mkHeap s (strs h) (cols h) (bools h) |}.
#[global] Instance string_cell : Cell string :=
  {| cell_get := strs; cell_set s h := mkHeap (floats h) s (cols h) (bools h) |}.
#[global] Instance color_cell : Cell color :=
  {| cell_get := cols; cell_set s h := mkHeap (floats h) (strs h) s (bools h) |}.
#[global] Instance bool_cell : Cell bool :=
  {| cell_get := bools; cell_set s h := mkHeap (floats h) (strs h) (cols h) s |}.

(** ** The trace of calls to the plotting backend *)

(** What an [ax.plot] call draws (the call site in the source). *)
Inductive artist :=
| Curve (ii : nat)                       (* the spectrum itself, line 349 *)
| NoiseCurve (ii : nat)                  (* its uncertainty, line 354 *)
| ZeroLine (ii : nat)                    (* its zero point, line 360 *)
| ComparisonCurve                        (* line 378 *)
| BandBracket (ftr : string) (k : nat)   (* line 395 *)
| BandEdge (ftr : string) (k : nat)      (* line 396 *)
| LineTick (ftr : string) (k : nat).     (* line 400 *)

(** What an [ax.text] call writes. *)
Inductive caption :=
| FeatureLabel (ftr : string) (k : nat)  (* lines 397 and 401 *)
| TelluricMark.                          (* line 416 *)

Inductive event :=
| Print (msg : string)
| CloseAll
| PdfPages (filename : string)
| Figure (page : option Z) (figsize : option (float * float))
| AddSubplot (page : option Z) (nrows ncols index : Z)
| Plot (what : artist) (x y : list float) (c : color) (ls : string)
       (alpha : option float) (label : option string)
| Text (what : caption) (x y : float) (s : string) (fontsize : Z)
| AddPatch (x y w h : float)
| Grid
| Axis (bound : list float)
| SetXLabel (s : string) (fontsize : Z)
| SetYLabel (s : string) (fontsize : Z)
| TickParams (axis : string) (labelsize : Z)
| SetPosition
| Legend (loc : string) (anchored : bool) (size : Z)
| SaveFig (fname fmt : string)
| Show
| Ion
| Ioff
| Suptitle (page : Z) (title : string)
| PdfSaveFig (page : Z)
| PdfClose.

(** ** State and errors *)

(** The Python exceptions the function can raise.  [IndexError] carries the
    name of the indexed variable.  [InvalidRef] is no Python exception: it
    marks a keyword reference that points to no list of the store. *)
Inductive exn :=
| IndexError (var : string)
| ValueError (msg : string)
| TypeError
| AttributeError
| ZeroDivisionError
| NameError (var : string)
| InvalidRef.

Inductive result (A : Type) :=
| Ok (a : A)
| Err (e : exn).
Arguments Ok {A} a.
Arguments Err {A} e.

Record state := mkState { heap : Heap; trace : list event }.

Definition M (A : Type) : Type := state -> result A * state.

Definition ret {A} (a : A) : M A := fun st => (Ok a, st).

Definition bind {A B} (m : M A) (k : A -> M B) : M B :=
  fun st => match m st with
            | (Ok a, st') => k a st'
            | (Err e, st') => (Err e, st')
            end.

Definition raise {A} (e : exn) : M A := fun st => (Err e, st).

Definition emit (e : event) : M unit :=
  fun st => (Ok tt, mkState (heap st) (trace st ++ [e])).

Declare Scope py_scope.
Delimit Scope py_scope with py.
Notation "'let*' x ':=' m 'in' k" := (bind m (fun x => k))
  (at level 10, x name, m at level 100, k at level 200) : py_scope.
Notation "'let*' ' p ':=' m 'in' k" := (bind m (fun x => match x with p => k end))
  (at level 10, p pattern, m at level 100, k at level 200) : py_scope.
Notation "m ';;;' k" := (bind m (fun _ => k))
  (at level 100, k at level 200, right associativity) : py_scope.
Local Open Scope py_scope.

Definition when (b : bool) (m : M unit) : M unit := if b then m else ret tt.

Definition lift_option {A} (e : exn) (o : option A) : M A :=
  match o with Some a => ret a | None => raise e end.

Section StoreOps.
Context {A : Type} `{Cell A}.

(** A new list object. *)
Definition alloc (l : list A) : M (ref A) :=
  fun st => let s := cell_get (heap st) in
            (Ok (Ref (length s)), mkState (cell_set (s ++ [l]) (heap st)) (trace st)).

(** The current contents of a list object. *)
Definition load (r : ref A) : M (list A) :=
  fun st => match cell_get (heap st) !! addr r with
            | Some l => (Ok l, st)
            | None => (Err InvalidRef, st)
            end.

Definition write (r : ref A) (l : list A) : M unit :=
  fun st => (Ok tt, mkState (cell_set (<[addr r := l]> (cell_get (heap st))) (heap st)) (trace st)).

(** [r.extend(ext)] *)
Definition extend (r : ref A) (ext : list A) : M unit :=
  let* l := load r in write r (l ++ ext).

(** [len(r)] *)
Definition len (r : ref A) : M nat :=
  let* l := load r in ret (length l).

(** [r[i]] for an index that is not negative. *)
Definition getitem (var : string) (r : ref A) (i : nat) : M A :=
  let* l := load r in lift_option (IndexError var) (l !! i).

(** [r[i] = v] *)
Definition setitem (var : string) (r : ref A) (i : nat) (v : A) : M unit :=
  let* l := load r in
  if (i <? length l)%nat then write r (<[i := v]> l) else raise (IndexError var).

(** [if len(r) < n: r.extend([d for x in range(n - len(r))])] *)
Definition pad (r : ref A) (n : nat) (d : A) : M unit :=
  let* l := load r in
  when (length l <? n)%nat (extend r (replicate (n - length l) d)).

(** [kwargs.get(key, default)] for a list option: the caller's list when
    given, a new list otherwise.  (Python builds the default list even when
    it is not used; an unused new list is not observable.) *)
Definition kwlist (given : option (ref A)) (default : list A) : M (ref A) :=
  match given with
  | Some r => ret r
  | None => alloc default
  end.
End StoreOps.

(** [kwargs.get(key, default)] for a plain value. *)
Definition kwget {A} (given : option A) (default : A) : A :=
  match given with Some a => a | None => default end.

(** ** Keyword arguments

    One field per key the function looks up.  A key that is absent is [None]
    (or [false] for the flags whose default is [False]).  List-valued options
    are references into the store. *)
Record kwargs := mkKwargs {
  kw_nsamples : option float;
  kw_multiplot : bool;
  kw_multipage : bool;
  kw_multilayout : option (Z * Z);
  kw_layout : option (Z * Z);
  kw_stack : option float;
  kw_grid : bool;
  kw_filename : option string;
  kw_file : option string;
  kw_output : option string;
  kw_title : option string;
  kw_format : option string;
  kw_comparison : option pyobj;
  kw_features : option (ref string);
  kw_ldwarf : bool;
  kw_mdwarf : bool;
  kw_tdwarf : bool;
  kw_young : bool;
  kw_binary : bool;
  kw_legend : option (ref string);
  kw_legends : option (ref string);
  kw_label : option (ref string);
  kw_labels : option (ref string);
  kw_legendLocation : option string;
  kw_labelLocation : option string;
  kw_zeropoint : option (ref float);
  kw_xlabel : option string;
  kw_ylabel : option string;
  kw_xrange : option (ref float);
  kw_yrange : option (ref float);
  kw_linestyle : option (ref string);
  kw_linestyles : option (ref string);
  kw_colors : option (ref color);
  kw_color : option (ref color);
  kw_colorScheme : option string;
  kw_colorMap : option string;
  kw_colorsUnc : option (ref color);
  kw_colorUnc : option (ref color);
  kw_showNoise : option (bool + ref bool);
  kw_noise : option (bool + ref bool);
  kw_uncertainty : option (bool + ref bool);
  kw_showZero : option (bool + ref bool);
  kw_figsize : option (float * float);
  kw_colorComparison : option color;
  kw_linestyleComparison : option string;
  kw_telluric : bool;
  kw_interactive : bool
}.

(** The empty keyword dictionary: every option at its default. *)
Definition no_kwargs : kwargs :=
  mkKwargs None false false None None None false None None None None None None
           None false false false false false None None None None None None
           None None None None None None None None None None None None None
           None None None None None None None false false.


(** Keyword dictionaries with one more key. *)
Definition with_multiplot (v : bool) (kw : kwargs) : kwargs :=
  mkKwargs (kw_nsamples kw) v (kw_multipage kw) (kw_multilayout kw) (kw_layout kw) (kw_stack
    kw) (kw_grid kw) (kw_filename kw) (kw_file kw) (kw_output kw) (kw_title kw) (kw_format
    kw) (kw_comparison kw) (kw_features kw) (kw_ldwarf kw) (kw_mdwarf kw) (kw_tdwarf kw)
    (kw_young kw) (kw_binary kw) (kw_legend kw) (kw_legends kw) (kw_label kw) (kw_labels kw)
    (kw_legendLocation kw) (kw_labelLocation kw) (kw_zeropoint kw) (kw_xlabel kw) (kw_ylabel
    kw) (kw_xrange kw) (kw_yrange kw) (kw_linestyle kw) (kw_linestyles kw) (kw_colors kw)
    (kw_color kw) (kw_colorScheme kw) (kw_colorMap kw) (kw_colorsUnc kw) (kw_colorUnc kw)
    (kw_showNoise kw) (kw_noise kw) (kw_uncertainty kw) (kw_showZero kw) (kw_figsize kw)
    (kw_colorComparison kw) (kw_linestyleComparison kw) (kw_telluric kw) (kw_interactive
    kw).
Definition with_multipage (v : bool) (kw : kwargs) : kwargs :=
  mkKwargs (kw_nsamples kw) (kw_multiplot kw) v (kw_multilayout kw) (kw_layout kw) (kw_stack
    kw) (kw_grid kw) (kw_filename kw) (kw_file kw) (kw_output kw) (kw_title kw) (kw_format
    kw) (kw_comparison kw) (kw_features kw) (kw_ldwarf kw) (kw_mdwarf kw) (kw_tdwarf kw)
    (kw_young kw) (kw_binary kw) (kw_legend kw) (kw_legends kw) (kw_label kw) (kw_labels kw)
    (kw_legendLocation kw) (kw_labelLocation kw) (kw_zeropoint kw) (kw_xlabel kw) (kw_ylabel
    kw) (kw_xrange kw) (kw_yrange kw) (kw_linestyle kw) (kw_linestyles kw) (kw_colors kw)
    (kw_color kw) (kw_colorScheme kw) (kw_colorMap kw) (kw_colorsUnc kw) (kw_colorUnc kw)
    (kw_showNoise kw) (kw_noise kw) (kw_uncertainty kw) (kw_showZero kw) (kw_figsize kw)
    (kw_colorComparison kw) (kw_linestyleComparison kw) (kw_telluric kw) (kw_interactive
    kw).
Definition with_output (v : option string) (kw : kwargs) : kwargs :=
  mkKwargs (kw_nsamples kw) (kw_multiplot kw) (kw_multipage kw) (kw_multilayout kw)
    (kw_layout kw) (kw_stack kw) (kw_grid kw) (kw_filename kw) (kw_file kw) v (kw_title kw)
    (kw_format kw) (kw_comparison kw) (kw_features kw) (kw_ldwarf kw) (kw_mdwarf kw)
    (kw_tdwarf kw) (kw_young kw) (kw_binary kw) (kw_legend kw) (kw_legends kw) (kw_label kw)
    (kw_labels kw) (kw_legendLocation kw) (kw_labelLocation kw) (kw_zeropoint kw) (kw_xlabel
    kw) (kw_ylabel kw) (kw_xrange kw) (kw_yrange kw) (kw_linestyle kw) (kw_linestyles kw)
    (kw_colors kw) (kw_color kw) (kw_colorScheme kw) (kw_colorMap kw) (kw_colorsUnc kw)
    (kw_colorUnc kw) (kw_showNoise kw) (kw_noise kw) (kw_uncertainty kw) (kw_showZero kw)
    (kw_figsize kw) (kw_colorComparison kw) (kw_linestyleComparison kw) (kw_telluric kw)
    (kw_interactive kw).
Definition with_features (v : option (ref string)) (kw : kwargs) : kwargs :=
  mkKwargs (kw_nsamples kw) (kw_multiplot kw) (kw_multipage kw) (kw_multilayout kw)
    (kw_layout kw) (kw_stack kw) (kw_grid kw) (kw_filename kw) (kw_file kw) (kw_output kw)
    (kw_title kw) (kw_format kw) (kw_comparison kw) v (kw_ldwarf kw) (kw_mdwarf kw)
    (kw_tdwarf kw) (kw_young kw) (kw_binary kw) (kw_legend kw) (kw_legends kw) (kw_label kw)
    (kw_labels kw) (kw_legendLocation kw) (kw_labelLocation kw) (kw_zeropoint kw) (kw_xlabel
    kw) (kw_ylabel kw) (kw_xrange kw) (kw_yrange kw) (kw_linestyle kw) (kw_linestyles kw)
    (kw_colors kw) (kw_color kw) (kw_colorScheme kw) (kw_colorMap kw) (kw_colorsUnc kw)
    (kw_colorUnc kw) (kw_showNoise kw) (kw_noise kw) (kw_uncertainty kw) (kw_showZero kw)
    (kw_figsize kw) (kw_colorComparison kw) (kw_linestyleComparison kw) (kw_telluric kw)
    (kw_interactive kw).
Definition with_mdwarf (v : bool) (kw : kwargs) : kwargs :=
  mkKwargs (kw_nsamples kw) (kw_multiplot kw) (kw_multipage kw) (kw_multilayout kw)
    (kw_layout kw) (kw_stack kw) (kw_grid kw) (kw_filename kw) (kw_file kw) (kw_output kw)
    (kw_title kw) (kw_format kw) (kw_comparison kw) (kw_features kw) (kw_ldwarf kw) v
    (kw_tdwarf kw) (kw_young kw) (kw_binary kw) (kw_legend kw) (kw_legends kw) (kw_label kw)
    (kw_labels kw) (kw_legendLocation kw) (kw_labelLocation kw) (kw_zeropoint kw) (kw_xlabel
    kw) (kw_ylabel kw) (kw_xrange kw) (kw_yrange kw) (kw_linestyle kw) (kw_linestyles kw)
    (kw_colors kw) (kw_color kw) (kw_colorScheme kw) (kw_colorMap kw) (kw_colorsUnc kw)
    (kw_colorUnc kw) (kw_showNoise kw) (kw_noise kw) (kw_uncertainty kw) (kw_showZero kw)
    (kw_figsize kw) (kw_colorComparison kw) (kw_linestyleComparison kw) (kw_telluric kw)
    (kw_interactive kw).
Definition with_tdwarf (v : bool) (kw : kwargs) : kwargs :=
  mkKwargs (kw_nsamples kw) (kw_multiplot kw) (kw_multipage kw) (kw_multilayout kw)
    (kw_layout kw) (kw_stack kw) (kw_grid kw) (kw_filename kw) (kw_file kw) (kw_output kw)
    (kw_title kw) (kw_format kw) (kw_comparison kw) (kw_features kw) (kw_ldwarf kw)
    (kw_mdwarf kw) v (kw_young kw) (kw_binary kw) (kw_legend kw) (kw_legends kw) (kw_label
    kw) (kw_labels kw) (kw_legendLocation kw) (kw_labelLocation kw) (kw_zeropoint kw)
    (kw_xlabel kw) (kw_ylabel kw) (kw_xrange kw) (kw_yrange kw) (kw_linestyle kw)
    (kw_linestyles kw) (kw_colors kw) (kw_color kw) (kw_colorScheme kw) (kw_colorMap kw)
    (kw_colorsUnc kw) (kw_colorUnc kw) (kw_showNoise kw) (kw_noise kw) (kw_uncertainty kw)
    (kw_showZero kw) (kw_figsize kw) (kw_colorComparison kw) (kw_linestyleComparison kw)
    (kw_telluric kw) (kw_interactive kw).
Definition with_xrange (v : option (ref float)) (kw : kwargs) : kwargs :=
  mkKwargs (kw_nsamples kw) (kw_multiplot kw) (kw_multipage kw) (kw_multilayout kw)
    (kw_layout kw) (kw_stack kw) (kw_grid kw) (kw_filename kw) (kw_file kw) (kw_output kw)
    (kw_title kw) (kw_format kw) (kw_comparison kw) (kw_features kw) (kw_ldwarf kw)
    (kw_mdwarf kw) (kw_tdwarf kw) (kw_young kw) (kw_binary kw) (kw_legend kw) (kw_legends
    kw) (kw_label kw) (kw_labels kw) (kw_legendLocation kw) (kw_labelLocation kw)
    (kw_zeropoint kw) (kw_xlabel kw) (kw_ylabel kw) v (kw_yrange kw) (kw_linestyle kw)
    (kw_linestyles kw) (kw_colors kw) (kw_color kw) (kw_colorScheme kw) (kw_colorMap kw)
    (kw_colorsUnc kw) (kw_colorUnc kw) (kw_showNoise kw) (kw_noise kw) (kw_uncertainty kw)
    (kw_showZero kw) (kw_figsize kw) (kw_colorComparison kw) (kw_linestyleComparison kw)
    (kw_telluric kw) (kw_interactive kw).
Definition with_yrange (v : option (ref float)) (kw : kwargs) : kwargs :=
  mkKwargs (kw_nsamples kw) (kw_multiplot kw) (kw_multipage kw) (kw_multilayout kw)
    (kw_layout kw) (kw_stack kw) (kw_grid kw) (kw_filename kw) (kw_file kw) (kw_output kw)
    (kw_title kw) (kw_format kw) (kw_comparison kw) (kw_features kw) (kw_ldwarf kw)
    (kw_mdwarf kw) (kw_tdwarf kw) (kw_young kw) (kw_binary kw) (kw_legend kw) (kw_legends
    kw) (kw_label kw) (kw_labels kw) (kw_legendLocation kw) (kw_labelLocation kw)
    (kw_zeropoint kw) (kw_xlabel kw) (kw_ylabel kw) (kw_xrange kw) v (kw_linestyle kw)
    (kw_linestyles kw) (kw_colors kw) (kw_color kw) (kw_colorScheme kw) (kw_colorMap kw)
    (kw_colorsUnc kw) (kw_colorUnc kw) (kw_showNoise kw) (kw_noise kw) (kw_uncertainty kw)
    (kw_showZero kw) (kw_figsize kw) (kw_colorComparison kw) (kw_linestyleComparison kw)
    (kw_telluric kw) (kw_interactive kw).
Definition with_uncertainty (v : option (bool + ref bool)) (kw : kwargs) : kwargs :=
  mkKwargs (kw_nsamples kw) (kw_multiplot kw) (kw_multipage kw) (kw_multilayout kw)
    (kw_layout kw) (kw_stack kw) (kw_grid kw) (kw_filename kw) (kw_file kw) (kw_output kw)
    (kw_title kw) (kw_format kw) (kw_comparison kw) (kw_features kw) (kw_ldwarf kw)
    (kw_mdwarf kw) (kw_tdwarf kw) (kw_young kw) (kw_binary kw) (kw_legend kw) (kw_legends
    kw) (kw_label kw) (kw_labels kw) (kw_legendLocation kw) (kw_labelLocation kw)
    (kw_zeropoint kw) (kw_xlabel kw) (kw_ylabel kw) (kw_xrange kw) (kw_yrange kw)
    (kw_linestyle kw) (kw_linestyles kw) (kw_colors kw) (kw_color kw) (kw_colorScheme kw)
    (kw_colorMap kw) (kw_colorsUnc kw) (kw_colorUnc kw) (kw_showNoise kw) (kw_noise kw) v
    (kw_showZero kw) (kw_figsize kw) (kw_colorComparison kw) (kw_linestyleComparison kw)
    (kw_telluric kw) (kw_interactive kw).
Definition with_legend (v : option (ref string)) (kw : kwargs) : kwargs :=
  mkKwargs (kw_nsamples kw) (kw_multiplot kw) (kw_multipage kw) (kw_multilayout kw)
    (kw_layout kw) (kw_stack kw) (kw_grid kw) (kw_filename kw) (kw_file kw) (kw_output kw)
    (kw_title kw) (kw_format kw) (kw_comparison kw) (kw_features kw) (kw_ldwarf kw)
    (kw_mdwarf kw) (kw_tdwarf kw) (kw_young kw) (kw_binary kw) v (kw_legends kw) (kw_label
    kw) (kw_labels kw) (kw_legendLocation kw) (kw_labelLocation kw) (kw_zeropoint kw)
    (kw_xlabel kw) (kw_ylabel kw) (kw_xrange kw) (kw_yrange kw) (kw_linestyle kw)
    (kw_linestyles kw) (kw_colors kw) (kw_color kw) (kw_colorScheme kw) (kw_colorMap kw)
    (kw_colorsUnc kw) (kw_colorUnc kw) (kw_showNoise kw) (kw_noise kw) (kw_uncertainty kw)
    (kw_showZero kw) (kw_figsize kw) (kw_colorComparison kw) (kw_linestyleComparison kw)
    (kw_telluric kw) (kw_interactive kw).
Definition with_zeropoint (v : option (ref float)) (kw : kwargs) : kwargs :=
  mkKwargs (kw_nsamples kw) (kw_multiplot kw) (kw_multipage kw) (kw_multilayout kw)
    (kw_layout kw) (kw_stack kw) (kw_grid kw) (kw_filename kw) (kw_file kw) (kw_output kw)
    (kw_title kw) (kw_format kw) (kw_comparison kw) (kw_features kw) (kw_ldwarf kw)
    (kw_mdwarf kw) (kw_tdwarf kw) (kw_young kw) (kw_binary kw) (kw_legend kw) (kw_legends
    kw) (kw_label kw) (kw_labels kw) (kw_legendLocation kw) (kw_labelLocation kw) v
    (kw_xlabel kw) (kw_ylabel kw) (kw_xrange kw) (kw_yrange kw) (kw_linestyle kw)
    (kw_linestyles kw) (kw_colors kw) (kw_color kw) (kw_colorScheme kw) (kw_colorMap kw)
    (kw_colorsUnc kw) (kw_colorUnc kw) (kw_showNoise kw) (kw_noise kw) (kw_uncertainty kw)
    (kw_showZero kw) (kw_figsize kw) (kw_colorComparison kw) (kw_linestyleComparison kw)
    (kw_telluric kw) (kw_interactive kw).
Definition with_stack (v : option float) (kw : kwargs) : kwargs :=
  mkKwargs (kw_nsamples kw) (kw_multiplot kw) (kw_multipage kw) (kw_multilayout kw)
    (kw_layout kw) v (kw_grid kw) (kw_filename kw) (kw_file kw) (kw_output kw) (kw_title kw)
    (kw_format kw) (kw_comparison kw) (kw_features kw) (kw_ldwarf kw) (kw_mdwarf kw)
    (kw_tdwarf kw) (kw_young kw) (kw_binary kw) (kw_legend kw) (kw_legends kw) (kw_label kw)
    (kw_labels kw) (kw_legendLocation kw) (kw_labelLocation kw) (kw_zeropoint kw) (kw_xlabel
    kw) (kw_ylabel kw) (kw_xrange kw) (kw_yrange kw) (kw_linestyle kw) (kw_linestyles kw)
    (kw_colors kw) (kw_color kw) (kw_colorScheme kw) (kw_colorMap kw) (kw_colorsUnc kw)
    (kw_colorUnc kw) (kw_showNoise kw) (kw_noise kw) (kw_uncertainty kw) (kw_showZero kw)
    (kw_figsize kw) (kw_colorComparison kw) (kw_linestyleComparison kw) (kw_telluric kw)
    (kw_interactive kw).

(** [kwargs.get(k2, kwargs.get(k1, default))]: the later key wins. *)
Definition or_else {A} (later earlier : option A) : option A :=
  match later with Some _ => later | None => earlier end.

(** ** Strings *)

Fixpoint split_aux (sep : ascii) (cur : string) (s : string) : list string :=
  match s with
  | EmptyString => [cur]
  | String c rest =>
      if Ascii.eqb c sep then cur :: split_aux sep "" rest
      else split_aux sep (cur +:+ String c "") rest
  end.

(** [s.split('.')] *)
Definition split_dot (s : string) : list string := split_aux "."%char "" s.

Definition lower_ascii (c : ascii) : ascii :=
  let n := nat_of_ascii c in
  if ((65 <=? n) && (n <=? 90))%nat then ascii_of_nat (n + 32) else c.

(** [s.lower()] *)
Fixpoint lower (s : string) : string :=
  match s with
  | EmptyString => EmptyString
  | String c rest => String (lower_ascii c) (lower rest)
  end.

(** ['{}'.format(n)] for a natural number. *)
Definition str_of_nat (n : nat) : string :=
  DecimalString.NilZero.string_of_uint (Nat.to_uint n).

(** ** The feature table (lines 149-166) *)

Inductive feature_type := band | line.

Record feature := mkFeature {
  ft_label : string;
  ft_type : feature_type;
  ft_wavelengths : list (float * float)
}.

Definition HI_lines : list (float * float) :=
  [(1.004, 1.005); (1.093, 1.094); (1.281, 1.282); (1.944, 1.945); (2.166, 2.166)]%float.
Definition NaI_lines : list (float * float) :=
  [(0.8186, 0.8195); (1.136, 1.137); (2.206, 2.209)]%float.
Definition KI_lines : list (float * float) :=
  [(0.7699, 0.7665); (1.169, 1.177); (1.244, 1.252)]%float.

Definition feature_labels : list (string * feature) :=
  [ ("h2o", mkFeature "H$_2$O" band [(0.92, 0.95); (1.08, 1.20); (1.325, 1.550); (1.72, 2.14)]%float);
    ("ch4", mkFeature "CH$_4$" band [(1.1, 1.24); (1.28, 1.44); (1.6, 1.76); (2.2, 2.35)]%float);
    ("co", mkFeature "CO" band [(2.28, 2.39)]%float);
    ("tio", mkFeature "TiO" band [(0.76, 0.80); (0.825, 0.831)]%float);
    ("vo", mkFeature "VO" band [(1.04, 1.08)]%float);
    ("feh", mkFeature "FeH" band [(0.86, 0.90); (0.98, 1.03); (1.19, 1.25); (1.57, 1.64)]%float);
    ("h2", mkFeature "H$_2$" band [(2.05, 2.6)]%float);
    ("sb", mkFeature "*" band [(1.6, 1.64)]%float);
    ("h", mkFeature "H I" line HI_lines);
    ("hi", mkFeature "H I" line HI_lines);
    ("h1", mkFeature "H I" line HI_lines);
    ("na", mkFeature "Na I" line NaI_lines);
    ("nai", mkFeature "Na I" line NaI_lines);
    ("na1", mkFeature "Na I" line NaI_lines);
    ("k", mkFeature "K I" line KI_lines);
    ("ki", mkFeature "K I" line KI_lines);
    ("k1", mkFeature "K I" line KI_lines) ].

(** [feature_labels[ftr]], when [ftr in feature_labels]. *)
Fixpoint lookup_feature (ftr : string) (table : list (string * feature)) : option feature :=
  match table with
  | [] => None
  | (code, ft) :: rest => if String.eqb ftr code then Some ft else lookup_feature ftr rest
  end.

(** ** Requested features (lines 168-182) *)

Definition dwarf_features : list string := ["k"; "na"; "feh"; "tio"; "co"; "h2o"; "h2"].
Definition tdwarf_features : list string := ["k"; "ch4"; "h2o"; "h2"].

(** Lines 168-176: the list given as [features] (a new empty list when none
    is given), extended in place by the class-membership flags. *)
Definition requested_features (kw : kwargs) : M (ref string) :=
  let* features := kwlist (kw_features kw) [] in
  when (kw_ldwarf kw || kw_mdwarf kw) (extend features dwarf_features) ;;;
  when (kw_tdwarf kw) (extend features tdwarf_features) ;;;
  when (kw_young kw) (extend features ["vo"]) ;;;
  when (kw_binary kw) (extend features ["sb"]) ;;;
  ret features.

(** Lines 177-182: "clean repeats while maintaining order". *)
Definition clean_repeats (features : list string) : list string :=
  fold_left (fun fea i => if bool_decide (i ∈ fea) then fea else fea ++ [i]) features [].

(** ** Input normalisation (lines 184-223) *)

(** The text of the warning of line 202. *)
Definition ignoring (repr : string) : string :=
  "plotSpectrum: Ignoring input object " +:+ repr
  +:+ " as it is neither a Spectrum object nor a list".

(** Lines 194-202: the positional arguments, one by one. *)
Fixpoint gather_args (args : list pyobj) (splist : list pyobj) : M (list pyobj) :=
  match args with
  | [] => ret splist
  | a :: rest =>
      match a with
      | PSpectrum _ => gather_args rest (splist ++ [a])
      | PList _ => gather_args rest (splist ++ [a])
      | POther repr =>
          emit (Print (ignoring repr)) ;;;
          gather_args rest splist
      end
  end.

(** Lines 189-202, for at least one argument. *)
Definition input_list (args : list pyobj) : M (list pyobj) :=
  match args with
  | [PList l] => ret l
  | _ => gather_args args []
  end.

(** [[item for sublist in splist for item in sublist]]; of the objects
    represented, only a list can be iterated. *)
Fixpoint flatten (splist : list pyobj) : result (list pyobj) :=
  match splist with
  | [] => Ok []
  | PList l :: rest =>
      match flatten rest with
      | Ok items => Ok (l ++ items)
      | Err e => Err e
      end
  | _ :: _ => Err TypeError
  end.

(** Lines 205-210: the multiplot flag after the shape of the input is seen. *)
Definition multiplot_flag (multiplot : bool) (splist : list pyobj) : bool :=
  if (length splist =? 1)%nat then false
  else if (1 <? length splist)%nat && is_list (nth 0 splist (POther "")) then true
  else multiplot.

(** Lines 212-221: the list of plot groups.  [splist[0]] fails on an empty
    list. *)
Definition plot_groups (multiplot : bool) (splist : list pyobj) : result (list pyobj) :=
  match splist with
  | [] => Err (IndexError "splist")
  | first :: _ =>
      if multiplot && is_Spectrum first then
        Ok (List.map (fun s => PList [s]) splist)
      else if negb multiplot && is_Spectrum first then
        Ok [PList splist]
      else if negb multiplot && is_list first && (1 <? length splist)%nat then
        match flatten splist with
        | Ok items => Ok [PList items]
        | Err e => Err e
        end
      else Ok splist
  end.

Definition lift_result {A} (r : result A) : M A :=
  match r with Ok a => ret a | Err e => raise e end.

(** ** Settings fixed before the loop over the plot groups (lines 126-144,
    225-249) *)
Record config := mkConfig {
  nsamples : float;
  multipage : bool;
  multilayout : Z * Z;
  stack : float;
  grid : bool;
  filename : string;
  title : string;
  filebase : string;
  filetype : string;
  comparison : option Spectrum;
  features : list string;
  legend : ref string;
  legendLocation : string;
  nplot : Z;
  numpages : Z;
  files : list string
}.

(** The per-group settings of lines 261-315. *)
Record params := mkParams {
  zeropoint : ref float;
  xlabel : string;
  ylabel : string;
  bound : ref float;
  linestyle : ref string;
  colors : ref color;
  colorsUnc : ref color;
  showNoise : ref bool;
  showZero : ref bool
}.

(** The counters the loop carries from one group to the next, and the list
    [fig] of pages: [true] where a figure has been stored, [false] where the
    entry is still the integer [range] left there. *)
Record counters := mkCounters {
  pg_n : Z;
  lg_n : nat;
  fig : list bool
}.

(** Lines 257-260: [sp[0]] must be a Spectrum.  Of the objects represented,
    only a list can be indexed. *)
Definition first_spectrum (sp : pyobj) : M (list pyobj * Spectrum) :=
  match sp with
  | PList [] => raise (IndexError "sp")
  | PList (PSpectrum s :: rest) => ret (PSpectrum s :: rest, s)
  | PList (_ :: _) => raise (ValueError "Input to plotSpectrum has wrong format")
  | _ => raise TypeError
  end.

(** Lines 264-269: labels from the first spectrum, or the placeholders when
    an attribute is missing. *)
Definition axis_labels (kw : kwargs) (s : Spectrum) : string * string :=
  match wlabel s, wunit s, fscale s, flabel s, funit s with
  | Some wl, Some wu, Some fs, Some fl, Some fu =>
      (kwget (kw_xlabel kw) (wl +:+ " (" +:+ wu +:+ ")"),
       kwget (kw_ylabel kw) (fs +:+ " " +:+ fl +:+ " (" +:+ fu +:+ ")"))
  | _, _, _, _, _ =>
      (kwget (kw_xlabel kw) "Wavelength (unknown units)",
       kwget (kw_ylabel kw) "Flux (unknown units)")
  end.

(** The objects of a group as Spectrum objects; [s.fluxMax()] of line 272
    fails on every other object represented (a list, a plain value). *)
Fixpoint spectra_of (sp : list pyobj) : result (list Spectrum) :=
  match sp with
  | [] => Ok []
  | PSpectrum s :: rest =>
      match spectra_of rest with
      | Ok l => Ok (s :: l)
      | Err e => Err e
      end
  | _ :: _ => Err AttributeError
  end.

Definition empty_reduction : exn :=
  ValueError "zero-size array to reduction operation".

(** Lines 270-274: the axis bounds.  [bound] is the very list [xrange]. *)
Definition axis_bounds (kw : kwargs) (spectra : list Spectrum) (zeropoint : ref float)
  : M (ref float) :=
  let* xrange := kwlist (kw_xrange kw) [0.85; 2.42]%float in
  let bound := xrange in
  let ymax := List.map fluxMax spectra in
  let* top := lift_option empty_reduction (Numpy.nanmax ymax) in
  let* zp := load zeropoint in
  let* ztop := lift_option empty_reduction (Numpy.nanmax zp) in
  let* yrng := match kw_yrange kw with
               | Some r => load r
               | None => ret (List.map (fun x => (x * (top + ztop))%float) [-0.02; 1.2]%float)
               end in
  extend bound yrng ;;;
  ret bound.

(** Lines 275-278 *)
Definition line_styles (kw : kwargs) (n : nat) : M (ref string) :=
  let* linestyle :=
    match or_else (kw_linestyles kw) (kw_linestyle kw) with
    | Some r => ret r
    | None => alloc (replicate n "steps")
    end in
  pad linestyle n "steps" ;;;
  ret linestyle.

(** Lines 293-294: [colors[i] = scalarMap.to_rgba(values[i])] for [i] from
    [i] on. *)
Fixpoint map_colors (scheme : string) (colors : ref color) (vmax : nat) (i : nat) (todo : nat)
  : M unit :=
  match todo with
  | O => ret tt
  | S todo' =>
      setitem "colors" colors i (Mapped scheme i vmax) ;;;
      map_colors scheme colors vmax (S i) todo'
  end.

(** Lines 280-298 *)
Definition line_colors (kw : kwargs) (n : nat) : M (ref color * ref color) :=
  let* colors :=
    match or_else (kw_color kw) (kw_colors kw) with
    | Some r => ret r
    | None => alloc (replicate n (Named "k"))
    end in
  pad colors n (Named "k") ;;;
  match or_else (kw_colorMap kw) (kw_colorScheme kw) with
  | Some scheme => map_colors scheme colors (n - 1) 0 n
  | None => ret tt
  end ;;;
  let colorsUnc := kwget (or_else (kw_colorUnc kw) (kw_colorsUnc kw)) colors in
  pad colorsUnc n (Named "k") ;;;
  ret (colors, colorsUnc).

(** A per-spectrum flag option: the caller's list, or a new one-element list
    around a value that is no list, or the default list; then padded with
    [True]. *)
Definition flag_list (given : option (bool + ref bool)) (default : list bool) (n : nat)
  : M (ref bool) :=
  let* flags :=
    match given with
    | Some (inr r) => ret r
    | Some (inl b) => alloc [b]
    | None => alloc default
    end in
  pad flags n true ;;;
  ret flags.

(** Lines 301-308 *)
Definition show_noise (kw : kwargs) (n : nat) : M (ref bool) :=
  flag_list (or_else (kw_uncertainty kw) (or_else (kw_noise kw) (kw_showNoise kw)))
            (replicate n false) n.

(** Lines 310-315 *)
Definition show_zero (kw : kwargs) (n : nat) : M (ref bool) :=
  flag_list (kw_showZero kw) (replicate n true) n.

(** Lines 261-315: "set specific plot parameters". *)
Definition plot_parameters (kw : kwargs) (sp : list pyobj) (first : Spectrum)
  : M (params * list Spectrum) :=
  let n := length sp in
  let* zeropoint := kwlist (kw_zeropoint kw) (replicate n 0%float) in
  let labels := axis_labels kw first in
  let* spectra := lift_result (spectra_of sp) in
  let* bound := axis_bounds kw spectra zeropoint in
  let* linestyle := line_styles kw n in
  let* '(colors, colorsUnc) := line_colors kw n in
  let* showNoise := show_noise kw n in
  let* showZero := show_zero kw n in
  ret (mkParams zeropoint (fst labels) (snd labels) bound linestyle colors colorsUnc
                showNoise showZero,
       spectra).

(** [l[i]] with Python's reading of a negative index. *)
Definition py_index {A} (l : list A) (i : Z) : option A :=
  if (0 <=? i)%Z then l !! Z.to_nat i
  else if (- Z.of_nat (length l) <=? i)%Z then l !! Z.to_nat (Z.of_nat (length l) + i)
  else None.

(** Lines 318-338: "GENERATE PLOTS": the axes the group is drawn on. *)
Definition generate_plot (kw : kwargs) (cfg : config) (plts : nat) (c : counters)
  : M counters :=
  if multipage cfg then
    let plt_n := (Z.of_nat plts mod nplot cfg)%Z in
    let* c :=
      if (plt_n =? 0)%Z then
        if (Z.to_nat (pg_n c) <? length (fig c))%nat then
          emit (Figure (Some (pg_n c)) None) ;;;
          ret (mkCounters (pg_n c + 1) (lg_n c) (<[Z.to_nat (pg_n c) := true]> (fig c)))
        else raise (IndexError "fig")
      else ret c in
    match py_index (fig c) (pg_n c - 1) with
    | None => raise (IndexError "fig")
    | Some false => raise AttributeError
    | Some true =>
        emit (AddSubplot (Some (pg_n c - 1)) (fst (multilayout cfg)) (snd (multilayout cfg))
                         (plt_n + 1)) ;;;
        ret c
    end
  else
    emit CloseAll ;;;
    emit (Figure None (kw_figsize kw)) ;;;
    emit (AddSubplot None 1 1 1) ;;;
    ret c.

(** [[i + zeropoint[ii] for i in values]]: the zero point is read once per
    value, so not at all for no values. *)
Definition offset_by (zeropoint : ref float) (ii : nat) (values : list float)
  : M (list float) :=
  match values with
  | [] => ret []
  | _ :: _ =>
      let* z := getitem "zeropoint" zeropoint ii in
      ret (List.map (fun i => (i + z)%float) values)
  end.

(** Lines 341-346: the flux with its zero point and its place in the stack. *)
Definition stacked_flux (kw : kwargs) (cfg : config) (p : params) (n ii : nat) (a : Spectrum)
  : M (list float) :=
  let* flx := offset_by (zeropoint p) ii (flux a) in
  if (0 <? stack cfg)%float then
    let flx := List.map (fun f => (f + Numpy.float_of_nat (n - ii) * stack cfg)%float) flx in
    match kw_yrange kw with
    | None =>
        let* top := getitem "bound" (bound p) 3 in
        setitem "bound" (bound p) 3 (top + stack cfg)%float
    | Some _ => ret tt
    end ;;;
    ret flx
  else ret flx.

(** Line 349 *)
Definition draw_spectrum (cfg : config) (p : params) (ii : nat) (a : Spectrum)
    (flx : list float) (lg : nat) : M unit :=
  let* c := getitem "colors" (colors p) ii in
  let* ls := getitem "linestyle" (linestyle p) ii in
  let* lab := getitem "legend" (legend cfg) lg in
  emit (Plot (Curve ii) (wave a) flx c ls None (Some lab)).

(** Lines 351-354: "noise". *)
Definition draw_noise (p : params) (ii : nat) (a : Spectrum) : M unit :=
  let* sn := getitem "showNoise" (showNoise p) ii in
  when sn (
    let* ns := offset_by (zeropoint p) ii (noise a) in
    let* cu := getitem "colorsUnc" (colorsUnc p) ii in
    let* ls := getitem "linestyle" (linestyle p) ii in
    emit (Plot (NoiseCurve ii) (wave a) ns cu ls (Some 0.3%float) None)).

(** Lines 357-360: "zeropoint". *)
Definition draw_zero (p : params) (ii : nat) (a : Spectrum) : M unit :=
  let* sz := getitem "showZero" (showZero p) ii in
  when sz (
    let* z := getitem "zeropoint" (zeropoint p) ii in
    let ze := replicate (length (flux a)) (1 * z)%float in
    let* c := getitem "colors" (colors p) ii in
    emit (Plot (ZeroLine ii) (wave a) ze c ":" (Some 0.3%float) None)).

(** [interp1d(x, y, bounds_error=False, fill_value=0.)] with its errors. *)
Definition interpolant (xs ys : list float) : M (list float -> list float) :=
  match Numpy.interp1d xs ys with
  | inr f => ret f
  | inl Numpy.TakeOutOfBounds => raise (IndexError "y")
  | inl Numpy.NoEntries => raise (ValueError "x and y arrays must have at least 1 entries")
  end.

(** Lines 362-368: "determine maximum flux for all spectra".  [env] is the
    pair ([wvmax], [flxmax]). *)
Definition max_flux (p : params) (ii : nat) (a : Spectrum) (flx : list float)
    (env : list float * list float) : M (list float * list float) :=
  let* f := interpolant (wave a) flx in
  if (ii =? 0)%nat then
    let* lo := getitem "bound" (bound p) 0 in
    let* hi := getitem "bound" (bound p) 1 in
    let wvmax := Numpy.arange lo hi 0.001 in
    ret (wvmax, f wvmax)
  else
    ret (fst env, zip_with Numpy.maximum (snd env) (f (fst env))).

(** Lines 340-371: one spectrum of the group. *)
Definition plot_one (kw : kwargs) (cfg : config) (p : params) (n ii : nat) (a : Spectrum)
    (lg : nat) (env : list float * list float) : M (list float * list float) :=
  let* flx := stacked_flux kw cfg p n ii a in
  draw_spectrum cfg p ii a flx lg ;;;
  draw_noise p ii a ;;;
  draw_zero p ii a ;;;
  max_flux p ii a flx env.

(** Lines 340-371: [for ii, a in enumerate(sp)]. *)
Fixpoint plot_spectra (kw : kwargs) (cfg : config) (p : params) (n ii : nat)
    (sp : list Spectrum) (lg : nat) (env : list float * list float)
  : M (nat * (list float * list float)) :=
  match sp with
  | [] => ret (lg, env)
  | a :: rest =>
      let* env := plot_one kw cfg p n ii a lg env in
      plot_spectra kw cfg p n (S ii) rest (S lg) env
  end.

(** Lines 374-378: "add comparison". *)
Definition add_comparison (kw : kwargs) (cfg : config) (p : params) : M unit :=
  match comparison cfg with
  | None => ret tt
  | Some c =>
      let* c0 := getitem "colors" (colors p) 0 in
      let* ls0 := getitem "linestyle" (linestyle p) 0 in
      emit (Plot ComparisonCurve (wave c) (flux c) (kwget (kw_colorComparison kw) c0)
                 (kwget (kw_linestyleComparison kw) ls0) (Some 0.5%float) None)
  end.

(** Lines 388-406: one wavelength interval [waveRng] (number [k]) of the
    feature [ftr].  Returns the new [flxmax]. *)
Definition label_interval (cfg : config) (p : params) (yoff : float) (fontsize : Z)
    (ftr : string) (ft : feature) (k : nat) (waveRng : float * float)
    (wvmax flxmax : list float) : M (list float) :=
  let '(w0, w1) := waveRng in
  let* lo := getitem "bound" (bound p) 0 in
  let* hi := getitem "bound" (bound p) 1 in
  if (lo <? Numpy.minimum w0 w1)%float && (Numpy.maximum w0 w1 <? hi)%float then
    let x := List.map (fun t => (t / nsamples cfg * (Numpy.fmax w0 w1 - Numpy.fmin w0 w1 + 0.1)
                                 + Numpy.fmin w0 w1 - 0.05)%float)
                      (Numpy.arange 0 (nsamples cfg + 1.0) 1) in
    let* f := interpolant wvmax flxmax in
    let* top := lift_option empty_reduction (Numpy.nanmax (f x)) in
    let y := (top + 0.5 * yoff)%float in
    let* waveRng :=
      match ft_type ft with
      | band =>
          emit (Plot (BandBracket ftr k) [w0; w1] [y + yoff; y + yoff]%float
                     (Named "k") "-" None None) ;;;
          emit (Plot (BandEdge ftr k) [w0; w0] [y; y + yoff]%float
                     (Named "k") "-" None None) ;;;
          emit (Text (FeatureLabel ftr k) (Numpy.mean [w0; w1]) (y + 1.5 * yoff)%float
                     (ft_label ft) fontsize) ;;;
          ret (w0, w1)
      | line =>
          emit (Plot (LineTick ftr k) [w0; w0] [y; y + yoff]%float
                     (Named "k") "-" None None) ;;;
          emit (Plot (LineTick ftr k) [w1; w1] [y; y + yoff]%float
                     (Named "k") "-" None None) ;;;
          emit (Text (FeatureLabel ftr k) (Numpy.mean [w0; w1]) (y + 1.5 * yoff)%float
                     (ft_label ft) fontsize) ;;;
          ret (w0 - 0.05, w1 + 0.05)%float
      end in
    let foff := List.map (fun w => if (fst waveRng <=? w)%float && (w <=? snd waveRng)%float
                                   then (y + 3 * yoff)%float else 0%float) wvmax in
    ret (zip_with Numpy.maximum flxmax foff)
  else ret flxmax.

(** Lines 387-406: [for ii, waveRng in enumerate(...)]. *)
Fixpoint label_intervals (cfg : config) (p : params) (yoff : float) (fontsize : Z)
    (ftr : string) (ft : feature) (k : nat) (ranges : list (float * float))
    (wvmax flxmax : list float) : M (list float) :=
  match ranges with
  | [] => ret flxmax
  | waveRng :: rest =>
      let* flxmax := label_interval cfg p yoff fontsize ftr ft k waveRng wvmax flxmax in
      label_intervals cfg p yoff fontsize ftr ft (S k) rest wvmax flxmax
  end.

(** Lines 384-406: [for ftr in features]. *)
Fixpoint label_features (cfg : config) (p : params) (yoff : float) (fontsize : Z)
    (ftrs : list string) (wvmax flxmax : list float) : M (list float) :=
  match ftrs with
  | [] => ret flxmax
  | ftr :: rest =>
      let ftr := lower ftr in
      let* flxmax :=
        match lookup_feature ftr feature_labels with
        | Some ft =>
            label_intervals cfg p yoff fontsize ftr ft 0 (ft_wavelengths ft) wvmax flxmax
        | None => ret flxmax
        end in
      label_features cfg p yoff fontsize rest wvmax flxmax
  end.

Definition twv : list (float * float) := [(1.1, 1.2); (1.3, 1.5); (1.75, 2.0)]%float.

(** Lines 411-416: the telluric bands. *)
Fixpoint overplot_telluric (p : params) (yoff : float) (fontsize : Z)
    (ranges : list (float * float)) : M unit :=
  match ranges with
  | [] => ret tt
  | (w0, w1) :: rest =>
      let* bottom := getitem "bound" (bound p) 2 in
      let* top := getitem "bound" (bound p) 3 in
      emit (AddPatch w0 bottom (w1 - w0) (top - bottom))%float ;;;
      let* bottom := getitem "bound" (bound p) 2 in
      emit (Text TelluricMark (Numpy.mean [w0; w1]) (bottom + 3 * yoff)%float
                 "$\oplus$" fontsize) ;;;
      overplot_telluric p yoff fontsize rest
  end.

Definition layout_tiles (cfg : config) : Z := fst (multilayout cfg) * snd (multilayout cfg).

(** Lines 380-448: annotations, axes, legend and output of one group. *)
Definition finish_plot (kw : kwargs) (cfg : config) (p : params) (plts : nat)
    (wvmax flxmax : list float) : M unit :=
  let* top := getitem "bound" (bound p) 3 in
  let* bottom := getitem "bound" (bound p) 2 in
  let yoff := (0.02 * (top - bottom))%float in
  let fontsize := (10 - Z.min (layout_tiles cfg - 1) 6)%Z in
  let* flxmax := label_features cfg p yoff fontsize (features cfg) wvmax flxmax in
  let* peak := lift_option empty_reduction (Numpy.max flxmax) in
  setitem "bound" (bound p) 3 (peak + 2 * yoff)%float ;;;
  when (kw_telluric kw) (overplot_telluric p yoff fontsize twv) ;;;
  when (grid cfg) (emit Grid) ;;;
  let* b := load (bound p) in
  (if (length b =? 4)%nat then emit (Axis b)
   else raise (ValueError "too many values to unpack")) ;;;
  let fontsize := (13 - Z.min (layout_tiles cfg - 1) 8)%Z in
  emit (SetXLabel (xlabel p) fontsize) ;;;
  emit (SetYLabel (ylabel p) fontsize) ;;;
  emit (TickParams "x" fontsize) ;;;
  emit (TickParams "y" fontsize) ;;;
  (if String.eqb (legendLocation cfg) "outside" then
     emit SetPosition ;;;
     emit (Legend "center left" true fontsize)
   else emit (Legend (legendLocation cfg) false fontsize)) ;;;
  if multipage cfg then ret tt
  else if negb (String.eqb (filebase cfg) "") then
    let* file := lift_option (IndexError "files") (files cfg !! plts) in
    emit (SaveFig file (filetype cfg))
  else
    emit Show ;;;
    if kw_interactive kw then emit Ion else emit Ioff.

(** Lines 257-448: the body of the loop, for group number [plts]. *)
Definition plot_group (kw : kwargs) (cfg : config) (plts : nat) (sp : pyobj) (c : counters)
  : M counters :=
  let* '(sp, first) := first_spectrum sp in
  let* '(p, spectra) := plot_parameters kw sp first in
  let* c := generate_plot kw cfg plts c in
  let* '(lg, (wvmax, flxmax)) :=
    plot_spectra kw cfg p (length sp) 0 spectra (lg_n c) ([], []) in
  add_comparison kw cfg p ;;;
  finish_plot kw cfg p plts wvmax flxmax ;;;
  ret (mkCounters (pg_n c) lg (fig c)).

(** Line 257: [for plts, sp in enumerate(splist)]. *)
Fixpoint plot_all (kw : kwargs) (cfg : config) (plts : nat) (splist : list pyobj)
    (c : counters) : M counters :=
  match splist with
  | [] => ret c
  | sp :: rest =>
      let* c := plot_group kw cfg plts sp c in
      plot_all kw cfg (S plts) rest c
  end.

(** Lines 452-458: the pages of the document, from page [pg] on. *)
Fixpoint save_pages (cfg : config) (c : counters) (pg : nat) (todo : nat) : M unit :=
  match todo with
  | O => ret tt
  | S todo' =>
      match fig c !! pg with
      | None => raise (IndexError "fig")
      | Some false => raise AttributeError
      | Some true =>
          emit (Suptitle (Z.of_nat pg) (title cfg)) ;;;
          (if String.eqb (filetype cfg) "pdf" then emit (PdfSaveFig (Z.of_nat pg))
           else raise (NameError "pdf_pages")) ;;;
          save_pages cfg c (S pg) todo'
      end
  end.

(** Lines 451-460 *)
Definition write_document (cfg : config) (c : counters) : M unit :=
  when (multipage cfg) (
    save_pages cfg c 0 (Z.to_nat (numpages cfg)) ;;;
    when (String.eqb (filetype cfg) "pdf") (emit PdfClose)).

(** Lines 244-246 *)
Definition page_count (groups tiles : Z) : Z :=
  let numpages := (groups / tiles + 1)%Z in
  if (groups mod tiles =? 0)%Z then (numpages - 1)%Z else numpages.

(** Lines 225-233: "prep legend". *)
Definition prep_legend (kw : kwargs) (tot_sp : nat) : M (ref string) :=
  let* legend :=
    match or_else (kw_labels kw) (or_else (kw_label kw)
                     (or_else (kw_legends kw) (kw_legend kw))) with
    | Some r => ret r
    | None => alloc (replicate tot_sp "")
    end in
  pad legend tot_sp "" ;;;
  ret legend.

(** Lines 126-144 and 239-249, given the groups, the features and the legend. *)
Definition make_config (kw : kwargs) (features : list string) (legend : ref string)
    (splist : list pyobj) : M config :=
  let multilayout := kwget (kw_layout kw) (kwget (kw_multilayout kw) (1, 1)%Z) in
  let filename := kwget (kw_output kw) (kwget (kw_file kw) (kwget (kw_filename kw) "")) in
  let filebase := List.hd "" (split_dot filename) in
  let filetype := kwget (kw_format kw) (List.last (split_dot filename) "") in
  let filetype := if String.eqb filetype "" then "pdf" else filetype in
  let comparison := match kw_comparison kw with
                    | Some (PSpectrum s) => Some s
                    | _ => None
                    end in
  let nplot := (fst multilayout * snd multilayout)%Z in
  let cfg numpages :=
    mkConfig (kwget (kw_nsamples kw) 1000%float) (kw_multipage kw) multilayout
             (kwget (kw_stack kw) 0%float) (kw_grid kw) filename (kwget (kw_title kw) "")
             filebase filetype comparison features legend
             (kwget (kw_labelLocation kw) (kwget (kw_legendLocation kw) "upper right"))
             nplot numpages
             (List.map (fun i => filebase +:+ str_of_nat (i + 1) +:+ "." +:+ filetype)
                       (seq 0 (length splist))) in
  emit CloseAll ;;;
  if kw_multipage kw then
    when (String.eqb filetype "pdf") (emit (PdfPages filename)) ;;;
    if (nplot =? 0)%Z then raise ZeroDivisionError
    else ret (cfg (page_count (Z.of_nat (length splist)) nplot))
  else ret (cfg 0%Z).

(** The input as the groups to plot (lines 189-223): the multiplot flag as
    set by the function, the groups, and the total number of spectra. *)
Definition normalize_input (kw : kwargs) (args : list pyobj) : M (bool * list pyobj * nat) :=
  let* splist := input_list args in
  let multiplot := multiplot_flag (kw_multiplot kw) splist in
  let* splist := lift_result (plot_groups multiplot splist) in
  let* items := lift_result (flatten splist) in
  ret (multiplot, splist, length items).

(** * The function *)
Definition plotSpectrum (args : list pyobj) (kw : kwargs) : M unit :=
  let* features := requested_features kw in
  let* requested := load features in
  let features := clean_repeats requested in
  match args with
  | [] => emit (Print "plotSpectrum needs at least one Spectrum object to plot")
  | _ :: _ =>
      let* '(_, splist, tot_sp) := normalize_input kw args in
      let* legend := prep_legend kw tot_sp in
      let* cfg := make_config kw features legend splist in
      emit (Print "multipage, splist") ;;;
      emit CloseAll ;;;
      let* c := plot_all kw cfg 0 splist (mkCounters 0 0 (replicate (Z.to_nat (numpages cfg)) false)) in
      write_document cfg c
  end.

(** A call from a given store, with an empty trace. *)
Definition call (args : list pyobj) (kw : kwargs) (h : Heap) : result unit * state :=
  plotSpectrum args kw (mkState h []).

(** * Reading a trace *)

(** The output artifacts: files written and windows shown. *)
Definition is_output (e : event) : bool :=
  match e with
  | SaveFig _ _ | Show | PdfSaveFig _ => true
  | _ => false
  end.

Definition outputs (tr : list event) : list event := List.filter is_output tr.

(** The bounds given to [ax.axis], one entry per plot. *)
Definition axes (tr : list event) : list (list float) :=
  flat_map (fun e => match e with Axis b => [b] | _ => [] end) tr.

(** The captions of the annotated features, in the order they are written. *)
Definition feature_captions (tr : list event) : list (string * nat) :=
  flat_map (fun e => match e with
                     | Text (FeatureLabel ftr k) _ _ _ _ => [(ftr, k)]
                     | _ => []
                     end) tr.

(** Whether an event is part of the annotation of interval [k] of the
    feature [ftr]: its label, its bracket or its tick marks. *)
Definition annotates (ftr : string) (k : nat) (e : event) : Prop :=
  match e with
  | Plot (BandBracket f j) _ _ _ _ _ _
  | Plot (BandEdge f j) _ _ _ _ _ _
  | Plot (LineTick f j) _ _ _ _ _ _
  | Text (FeatureLabel f j) _ _ _ _ => f = ftr /\ j = k
  | _ => False
  end.

(** * Example inputs *)

Definition described (w f n : list float) (top : float) : Spectrum :=
  mkSpectrum w f n top (Some "Wavelength") (Some "micron")
             (Some "Normalized") (Some "Flux") (Some "erg/s").

(** A spectrum sampled on the wavelength range 1.0 to 1.3. *)
Definition spec_J : Spectrum :=
  described [1.0; 1.1; 1.2; 1.3]%float [1.0; 2.0; 1.5; 1.0]%float
            [0.1; 0.1; 0.1; 0.1]%float 2.0%float.

Definition spec_H : Spectrum :=
  described [1.5; 1.6; 1.7]%float [0.5; 0.8; 0.6]%float
            [0.05; 0.05; 0.05]%float 0.8%float.

(** The kind of a backend call, by what it does. *)
Inductive kind :=
| KPrint | KClose | KDocument | KFigure | KSubplot
| KCurve | KNoise | KZero | KComparison | KFeature | KTelluric
| KGrid | KAxis | KLabels | KLegend | KSave | KShow | KPage.

Definition kind_of (e : event) : kind :=
  match e with
  | Print _ => KPrint
  | CloseAll => KClose
  | PdfPages _ | PdfClose => KDocument
  | Figure _ _ => KFigure
  | AddSubplot _ _ _ _ => KSubplot
  | Plot (Curve _) _ _ _ _ _ _ => KCurve
  | Plot (NoiseCurve _) _ _ _ _ _ _ => KNoise
  | Plot (ZeroLine _) _ _ _ _ _ _ => KZero
  | Plot ComparisonCurve _ _ _ _ _ _ => KComparison
  | Plot (BandBracket _ _) _ _ _ _ _ _
  | Plot (BandEdge _ _) _ _ _ _ _ _
  | Plot (LineTick _ _) _ _ _ _ _ _
  | Text (FeatureLabel _ _) _ _ _ _ => KFeature
  | Text TelluricMark _ _ _ _ | AddPatch _ _ _ _ => KTelluric
  | Grid => KGrid
  | Axis _ => KAxis
  | SetXLabel _ _ | SetYLabel _ _ | TickParams _ _ => KLabels
  | SetPosition | Legend _ _ _ => KLegend
  | SaveFig _ _ => KSave
  | Show | Ion | Ioff => KShow
  | Suptitle _ _ | PdfSaveFig _ => KPage
  end.

(** A relation between the state before and after a computation that every
    step respects. *)
Definition preserves {A} (R : state -> state -> Prop) (m : M A) : Prop :=
  forall st, R st (snd (m st)).

(** What a relation must allow for the steps of [plotSpectrum] to respect it:
    the events of the allowed kinds, new lists, and the ways the function
    writes to a list. *)
Record frame (R : state -> state -> Prop) (allowed : kind -> bool) : Prop := mkFrame {
  frame_refl : forall st, R st st;
  frame_trans : forall s1 s2 s3, R s1 s2 -> R s2 s3 -> R s1 s3;
  frame_emit : forall e st, allowed (kind_of e) = true -> R st (snd (emit e st));
  frame_alloc_float : forall (l : list float) st, R st (snd (alloc l st));
  frame_alloc_string : forall (l : list string) st, R st (snd (alloc l st));
  frame_alloc_color : forall (l : list color) st, R st (snd (alloc l st));
  frame_alloc_bool : forall (l : list bool) st, R st (snd (alloc l st));
  frame_extend_string : forall (r : ref string) ext st, R st (snd (extend r ext st));
  frame_extend_color : forall (r : ref color) ext st, R st (snd (extend r ext st));
  frame_extend_true : forall (r : ref bool) k st, R st (snd (extend r (replicate k true) st));
  frame_setitem_float : forall var (r : ref float) i v st, R st (snd (setitem var r i v st));
  frame_setitem_color : forall var (r : ref color) i v st, R st (snd (setitem var r i v st))
}.

(** * Reading the input *)

(** The arguments that line 197-200 keep. *)
Definition kept (a : pyobj) : bool := is_Spectrum a || is_list a.

(** The warnings for the arguments that are dropped. *)
Definition warnings (args : list pyobj) : list event :=
  flat_map (fun a => match a with POther repr => [Print (ignoring repr)] | _ => [] end) args.

(** The list [splist] of line 191 or of lines 195-202. *)
Definition input_of (args : list pyobj) : list pyobj :=
  match args with
  | [PList l] => l
  | _ => List.filter kept args
  end.

(** A plot group made of Spectrum objects. *)
Definition group (spectra : list Spectrum) : pyobj := PList (List.map PSpectrum spectra).

(** What a trace says about plots and curves: the axes opened, and the
    spectra drawn with their place in the group and their wavelengths. *)
Inductive mark :=
| NewPlot
| Drawn (ii : nat) (x : list float).

Definition marks (tr : list event) : list mark :=
  flat_map (fun e => match e with
                     | AddSubplot _ _ _ _ => [NewPlot]
                     | Plot (Curve ii) x _ _ _ _ _ => [Drawn ii x]
                     | _ => []
                     end) tr.

(** The marks of one plot of the spectra [spectra], numbered from [ii]. *)
Fixpoint curve_marks (ii : nat) (spectra : list Spectrum) : list mark :=
  match spectra with
  | [] => []
  | s :: rest => Drawn ii (wave s) :: curve_marks (S ii) rest
  end.

Definition group_marks (spectra : list Spectrum) : list mark :=
  NewPlot :: curve_marks 0 spectra.

(** The subplots a trace opens: page, grid and tile. *)
Definition subplots (tr : list event) : list (option Z * Z * Z * Z) :=
  flat_map (fun e => match e with
                     | AddSubplot page r c k => [(page, r, c, k)]
                     | _ => []
                     end) tr.


(** The trace only grows, by events of the allowed kinds. *)
Definition appends (allowed : kind -> bool) (st st' : state) : Prop :=
  exists evs, trace st' = trace st ++ evs /\
              Forall (fun e => allowed (kind_of e) = true) evs.

(** The kinds of events that open no plot and draw no spectrum. *)
Definition background (k : kind) : bool :=
  match k with KSubplot | KCurve => false | _ => true end.


Definition any_kind (k : kind) : bool := true.

(** The plot groups the function makes of its arguments (lines 189-221). *)
Definition groups_of (kw : kwargs) (args : list pyobj) : result (list pyobj) :=
  plot_groups (multiplot_flag (kw_multiplot kw) (input_of args)) (input_of args).

(** * More example inputs *)

(** A call from the empty store with an empty trace. *)
Definition start : state := mkState empty_heap [].

(** [multiplot=True] *)
Definition multiplot_on : kwargs := with_multiplot true no_kwargs.

(** [yrange=[0., 5.]], the list being the first list of floats of the store. *)
Definition own_yrange : kwargs := with_yrange (Some (Ref 0)) no_kwargs.
Definition own_yrange_store : Heap := mkHeap [[0; 5]%float] [] [] [].

(** [features=['H2O'], mdwarf=True], the list being the first string list of
    the store. *)
Definition water_and_mdwarf : kwargs :=
  with_features (Some (Ref 0)) (with_mdwarf true no_kwargs).
Definition water_store : Heap := mkHeap [] [["H2O"]] [] [].




(** * Relations between the store before and after *)

(** The list of strings at address [a] only grows at its end. *)
Definition strings_grow (a : nat) (st st' : state) : Prop :=
  forall l, strs (heap st) !! a = Some l ->
            exists ext, strs (heap st') !! a = Some (l ++ ext).

(** The list of flags at address [a] stays its first entries [shown]
    followed by [True]s, ever more of them. *)
Definition flags_padded (a : nat) (shown : list bool) (st st' : state) : Prop :=
  forall m, bools (heap st) !! a = Some (shown ++ replicate m true) ->
            exists m', (m <= m')%nat
                       /\ bools (heap st') !! a = Some (shown ++ replicate m' true).

(** The list of floats at address [a] never gets shorter. *)
Definition floats_lengthen (a : nat) (st st' : state) : Prop :=
  forall l, floats (heap st) !! a = Some l ->
            exists l', floats (heap st') !! a = Some l' /\ (length l <= length l')%nat.

(** The computation leaves every list of floats as it is. *)
Definition keeps_floats {A} (m : M A) : Prop :=
  forall st, floats (heap (snd (m st))) = floats (heap st).

(** [yrng] of line 273 for the spectra of a plot group, in the store [h]: the
    list given as [yrange]; with none, -0.02 and 1.2 times the sum of the
    greatest flux maximum and the greatest zero point, the zero points being
    the list given as [zeropoint] or else 0 for every spectrum. *)
Definition y_range (kw : kwargs) (spectra : list Spectrum) (h : Heap) : option (list float) :=
  match kw_yrange kw with
  | Some ry => floats h !! addr ry
  | None =>
      match Numpy.nanmax (List.map fluxMax spectra),
            match kw_zeropoint kw with
            | Some rz => floats h !! addr rz
            | None => Some (replicate (length spectra) 0%float)
            end with
      | Some top, Some zp =>
          match Numpy.nanmax zp with
          | Some ztop => Some (List.map (fun x => (x * (top + ztop))%float) [-0.02; 1.2]%float)
          | None => None
          end
      | _, _ => None
      end
  end.

(** What line 274 appends has at least [k] entries in the store [h]: the
    list given as [yrange] has that many, or none is given and [k] is at
    most 2. *)
Definition yrange_has (kw : kwargs) (k : nat) (h : Heap) : Prop :=
  match kw_yrange kw with
  | Some ry => exists Y, floats h !! addr ry = Some Y /\ (k <= length Y)%nat
  | None => (k <= 2)%nat
  end.

(** The list of floats at address [a] keeps its length. *)
Definition floats_keep_length (a : nat) (st st' : state) : Prop :=
  forall l, floats (heap st) !! a = Some l ->
            exists l', floats (heap st') !! a = Some l' /\ length l' = length l.


(** The event [e] was recorded between the states [st] and [st']. *)
Definition recorded (st st' : state) (e : event) : Prop :=
  exists before after, trace st' = trace st ++ before ++ e :: after.

(** * Example settings for one plot group *)

(** The settings of a call with no keyword, with the legend in the first
    string list of the store. *)
Definition plain_config : config :=
  mkConfig 1000 false (1, 1) 0 false "" "" "" "pdf" None [] (Ref 0) "upper right" 1 0
           ["1.pdf"].

Definition no_pages : counters := mkCounters 0 0 [].

(** [uncertainty=[False]], the list being the first list of flags of the
    store; the legend of [plain_config] is there too. *)
Definition one_noise_flag : kwargs := with_uncertainty (Some (inr (Ref 0))) no_kwargs.
Definition one_noise_flag_state : state := mkState (mkHeap [] [[""; ""]] [] [[false]]) [].

(** The codes the class-membership flags add to the request (lines 169-176). *)
Definition preset_features (kw : kwargs) : list string :=
  (if kw_ldwarf kw || kw_mdwarf kw then dwarf_features else [])
  ++ (if kw_tdwarf kw then tdwarf_features else [])
  ++ (if kw_young kw then ["vo"] else [])
  ++ (if kw_binary kw then ["sb"] else []).

(** [xrange=[0.9, 2.4], features=['co'], tdwarf=True]: the first list of
    floats and the first list of strings of the store. *)
Definition own_range_and_features : kwargs :=
  with_xrange (Some (Ref 0)) (with_features (Some (Ref 0)) (with_tdwarf true no_kwargs)).
Definition own_lists : Heap := mkHeap [[0.9; 2.4]%float] [["co"]] [] [].

(** The list of colours at address [a] never gets shorter. *)
Definition colors_lengthen (a : nat) (st st' : state) : Prop :=
  forall l, cols (heap st) !! a = Some l ->
            exists l', cols (heap st') !! a = Some l' /\ (length l <= length l')%nat.

(** * Errors *)

(** The per-spectrum lists that the function pads before it indexes them. *)
Definition padded_lists : list string := ["colors"; "colorsUnc"; "linestyle"; "legend"].

(** Any error but an IndexError on one of the padded lists. *)
Definition other_error (e : exn) : bool :=
  match e with
  | IndexError var => negb (existsb (String.eqb var) padded_lists)
  | _ => true
  end.

(** A computation that can only fail with such an error. *)
Definition harmless {A} (m : M A) : Prop :=
  forall st e st', m st = (Err e, st') -> other_error e = true.

(** The list [r] is in the store and has at least [n] entries. *)
Definition covers {A} `{Cell A} (r : ref A) (n : nat) (st : state) : Prop :=
  exists l, cell_get (heap st) !! addr r = Some l /\ (n <= length l)%nat.




(** A plot group whose [bound] is the second list of floats of the store
    [default_range_state]: the default x range and the y range [0, 1]. *)
Definition default_range_params : params :=
  mkParams (Ref 0) "" "" (Ref 1) (Ref 0) (Ref 0) (Ref 0) (Ref 0) (Ref 0).
Definition default_range_state : state :=
  mkState (mkHeap [[0]; [0.85; 2.42; 0; 1]]%float [] [] []) [].

(** * Further readings of a call *)

(** No kind of event at all. *)
Definition silent (k : kind) : bool := false.

(** Lines 133-141: the name of the output file, its base and its type. *)
Definition file_name (kw : kwargs) : string :=
  kwget (kw_output kw) (kwget (kw_file kw) (kwget (kw_filename kw) "")).

Definition file_base (kw : kwargs) : string := List.hd "" (split_dot (file_name kw)).

Definition file_type (kw : kwargs) : string :=
  let filetype := kwget (kw_format kw) (List.last (split_dot (file_name kw)) "") in
  if String.eqb filetype "" then "pdf" else filetype.

(** The kinds of events that save or show nothing. *)
Definition no_output (k : kind) : bool :=
  match k with KSave | KShow | KPage => false | _ => true end.

(** What the plot of group number [i] is written to, outside multipage mode
    (lines 249 and 440-444). *)
Definition plot_output (kw : kwargs) (i : nat) : event :=
  if String.eqb (file_base kw) "" then Show
  else SaveFig (file_base kw +:+ str_of_nat (i + 1) +:+ "." +:+ file_type kw) (file_type kw).

(** [output='spectrum.pdf'] *)
Definition to_spectrum_pdf : kwargs := with_output (Some "spectrum.pdf") no_kwargs.

(** [multipage=True, output='spectra.png'] *)
Definition png_document : kwargs :=
  with_multipage true (with_output (Some "spectra.png") no_kwargs).



(** The uncertainty curves a trace draws: the places of their spectra in
    their groups. *)
Definition noise_curves (tr : list event) : list nat :=
  flat_map (fun e => match e with
                     | Plot (NoiseCurve ii) _ _ _ _ _ _ => [ii]
                     | _ => []
                     end) tr.

(** The kinds of events that draw no uncertainty curve. *)
Definition no_noise (k : kind) : bool :=
  match k with KNoise => false | _ => true end.

(** Entry [ii] of a list of flags completed with [True]. *)
Definition flag_at (shown : list bool) (ii : nat) : bool :=
  match shown !! ii with Some f => f | None => true end.

(** The flags of lines 302-306 for a group of [n] spectra, before they are
    completed: the caller's list (its current contents [given]), a one-element
    list around a value that is no list, or [False] for every spectrum. *)
Definition noise_flags (kw : kwargs) (n : nat) (given : list bool) : list bool :=
  match or_else (kw_uncertainty kw) (or_else (kw_noise kw) (kw_showNoise kw)) with
  | Some (inr _) => given
  | Some (inl b) => [b]
  | None => replicate n false
  end.

(** [uncertainty=False] *)
Definition no_uncertainty : kwargs := with_uncertainty (Some (inl false)) no_kwargs.
Definition legend_only : state := mkState (mkHeap [] [[""; ""; ""]] [] []) [].

Definition with_colorMap (v : option string) (kw : kwargs) : kwargs :=
  mkKwargs (kw_nsamples kw) (kw_multiplot kw) (kw_multipage kw) (kw_multilayout kw)
    (kw_layout kw) (kw_stack kw) (kw_grid kw) (kw_filename kw) (kw_file kw) (kw_output kw)
    (kw_title kw) (kw_format kw) (kw_comparison kw) (kw_features kw) (kw_ldwarf kw)
    (kw_mdwarf kw) (kw_tdwarf kw) (kw_young kw) (kw_binary kw) (kw_legend kw)
    (kw_legends kw) (kw_label kw) (kw_labels kw) (kw_legendLocation kw)
    (kw_labelLocation kw) (kw_zeropoint kw) (kw_xlabel kw) (kw_ylabel kw) (kw_xrange kw)
    (kw_yrange kw) (kw_linestyle kw) (kw_linestyles kw) (kw_colors kw) (kw_color kw)
    (kw_colorScheme kw) v (kw_colorsUnc kw) (kw_colorUnc kw) (kw_showNoise kw) (kw_noise kw)
    (kw_uncertainty kw) (kw_showZero kw) (kw_figsize kw) (kw_colorComparison kw)
    (kw_linestyleComparison kw) (kw_telluric kw) (kw_interactive kw).

(** [colorMap='copper'] *)
Definition copper_map : kwargs := with_colorMap (Some "copper") no_kwargs.

(** The labels of the spectra a trace draws, in the order they are drawn. *)
Definition curve_labels (tr : list event) : list string :=
  flat_map (fun e => match e with
                     | Plot (Curve _) _ _ _ _ _ (Some lab) => [lab]
                     | _ => []
                     end) tr.

(** The kinds of events that draw no spectrum. *)
Definition no_curve (k : kind) : bool :=
  match k with KCurve => false | _ => true end.

(** The legend entries the caller supplies (lines 226-229), [supplied] being
    the contents of the list that is given, if any. *)
Definition legend_given (kw : kwargs) (supplied : list string) : list string :=
  match or_else (kw_labels kw) (or_else (kw_label kw)
                  (or_else (kw_legends kw) (kw_legend kw))) with
  | Some _ => supplied
  | None => []
  end.

(** [legend=['J band']], the list being the first list of strings of the
    store. *)
Definition one_label : kwargs := with_legend (Some (Ref 0)) no_kwargs.
Definition one_label_store : Heap := mkHeap [] [["J band"]] [] [].

(** [zeropoint=[0.5]], the list being the first list of floats of the
    store. *)
Definition one_zeropoint : kwargs := with_zeropoint (Some (Ref 0)) no_kwargs.
Definition one_zeropoint_state : state :=
  mkState (mkHeap [[0.5]%float] [[""; ""]] [] []) [].

(** * Properties *)

(** ** Running the primitives *)

Lemma bind_run {A B} (m : M A) (k : A -> M B) st :
  bind m k st = match m st with
                | (Ok a, st') => k a st'
                | (Err e, st') => (Err e, st')
                end.
Proof. reflexivity. Qed.

Lemma bind_Ok_inv {A B} (m : M A) (k : A -> M B) st b st' :
  bind m k st = (Ok b, st') ->
  exists a st1, m st = (Ok a, st1) /\ k a st1 = (Ok b, st').
Proof.
  rewrite bind_run. destruct (m st) as [[a|e] st1]; [eauto | discriminate].
Qed.

Section StoreRun.
Context {A : Type} `{Cell A}.

Lemma load_run (r : ref A) st l :
  cell_get (heap st) !! addr r = Some l -> load r st = (Ok l, st).
Proof. intros E. unfold load. now rewrite E. Qed.

Lemma load_Ok_inv (r : ref A) st l st' :
  load r st = (Ok l, st') -> st' = st /\ cell_get (heap st) !! addr r = Some l.
Proof.
  unfold load. destruct (cell_get (heap st) !! addr r); intros E; inversion E; auto.
Qed.

Lemma load_state (r : ref A) st : snd (load r st) = st.
Proof. unfold load. now destruct (cell_get (heap st) !! addr r). Qed.

Lemma getitem_run var (r : ref A) i st l x :
  cell_get (heap st) !! addr r = Some l -> l !! i = Some x ->
  getitem var r i st = (Ok x, st).
Proof.
  intros E Ei. unfold getitem. rewrite bind_run, (load_run _ _ _ E).
  cbn. now rewrite Ei.
Qed.

Lemma getitem_Ok_inv var (r : ref A) i st x st' :
  getitem var r i st = (Ok x, st') ->
  st' = st /\ exists l, cell_get (heap st) !! addr r = Some l /\ l !! i = Some x.
Proof.
  unfold getitem. intros E. apply bind_Ok_inv in E as (l & st1 & E1 & E2).
  apply load_Ok_inv in E1 as [-> E1]. destruct (l !! i) eqn:Ei; inversion E2; subst.
  eauto.
Qed.

Lemma getitem_state var (r : ref A) i st : snd (getitem var r i st) = st.
Proof.
  unfold getitem. rewrite bind_run. unfold load.
  destruct (cell_get (heap st) !! addr r) as [l|]; [|reflexivity].
  now destruct (l !! i).
Qed.
End StoreRun.

(** ** Relations that every step respects *)

Create HintDb frame.

Section Frame.
Variable R : state -> state -> Prop.
Variable allowed : kind -> bool.
Hypothesis F : frame R allowed.

Lemma preserves_ret {A} (a : A) : preserves R (ret a).
Proof. intros st. apply (frame_refl _ _ F). Qed.

Lemma preserves_raise {A} e : preserves R (@raise A e).
Proof. intros st. apply (frame_refl _ _ F). Qed.

Lemma preserves_bind {A B} (m : M A) (k : A -> M B) :
  preserves R m -> (forall a, preserves R (k a)) -> preserves R (bind m k).
Proof.
  intros Hm Hk st. rewrite bind_run. specialize (Hm st).
  destruct (m st) as [[a|e] st1]; cbn in *; [|assumption].
  eapply (frame_trans _ _ F); [eassumption | apply Hk].
Qed.

Lemma preserves_emit e : allowed (kind_of e) = true -> preserves R (emit e).
Proof. intros He st. now apply (frame_emit _ _ F). Qed.

Lemma preserves_when b (m : M unit) : preserves R m -> preserves R (when b m).
Proof. destruct b; [trivial | intros _; apply preserves_ret]. Qed.

Lemma preserves_lift_option {A} e (o : option A) : preserves R (lift_option e o).
Proof. destruct o; [apply preserves_ret | apply preserves_raise]. Qed.

Lemma preserves_lift_result {A} (r : result A) : preserves R (lift_result r).
Proof. destruct r; [apply preserves_ret | apply preserves_raise]. Qed.

Lemma preserves_load {A} `{Cell A} (r : ref A) : preserves R (load r).
Proof. intros st. rewrite load_state. apply (frame_refl _ _ F). Qed.

Lemma preserves_getitem {A} `{Cell A} var (r : ref A) i : preserves R (getitem var r i).
Proof. intros st. rewrite getitem_state. apply (frame_refl _ _ F). Qed.

Hint Resolve preserves_ret preserves_raise preserves_lift_option preserves_lift_result
  preserves_load preserves_getitem : frame.

Ltac frame_step :=
  match goal with
  | |- preserves _ (bind _ _) => apply preserves_bind; [ | intros ? ]
  | |- preserves _ (when _ _) => apply preserves_when
  | |- preserves _ (emit _) =>
      apply preserves_emit; first [ assumption | solve [ auto with frame ] ]
  | |- preserves _ (match ?x with _ => _ end) => destruct x
  | |- preserves _ _ => solve [ eauto 12 with frame ]
  end.
Ltac frame := repeat frame_step.

Lemma preserves_alloc_float (l : list float) : preserves R (alloc l).
Proof. intros st. apply (frame_alloc_float _ _ F). Qed.
Lemma preserves_alloc_string (l : list string) : preserves R (alloc l).
Proof. intros st. apply (frame_alloc_string _ _ F). Qed.
Lemma preserves_alloc_color (l : list color) : preserves R (alloc l).
Proof. intros st. apply (frame_alloc_color _ _ F). Qed.
Lemma preserves_alloc_bool (l : list bool) : preserves R (alloc l).
Proof. intros st. apply (frame_alloc_bool _ _ F). Qed.
Lemma preserves_extend_string (r : ref string) ext : preserves R (extend r ext).
Proof. intros st. apply (frame_extend_string _ _ F). Qed.
Lemma preserves_extend_color (r : ref color) ext : preserves R (extend r ext).
Proof. intros st. apply (frame_extend_color _ _ F). Qed.
Lemma preserves_extend_true (r : ref bool) k : preserves R (extend r (replicate k true)).
Proof. intros st. apply (frame_extend_true _ _ F). Qed.
Lemma preserves_setitem_float var (r : ref float) i v : preserves R (setitem var r i v).
Proof. intros st. apply (frame_setitem_float _ _ F). Qed.
Lemma preserves_setitem_color var (r : ref color) i v : preserves R (setitem var r i v).
Proof. intros st. apply (frame_setitem_color _ _ F). Qed.

Hint Resolve preserves_alloc_float preserves_alloc_string preserves_alloc_color
  preserves_alloc_bool preserves_extend_string preserves_extend_color preserves_extend_true
  preserves_setitem_float preserves_setitem_color : frame.

Lemma preserves_pad_string (r : ref string) n d : preserves R (pad r n d).
Proof. unfold pad. frame. Qed.
Lemma preserves_pad_color (r : ref color) n d : preserves R (pad r n d).
Proof. unfold pad. frame. Qed.
Lemma preserves_pad_true (r : ref bool) n : preserves R (pad r n true).
Proof. unfold pad. frame. Qed.
Hint Resolve preserves_pad_string preserves_pad_color preserves_pad_true : frame.

Lemma preserves_kwlist_float (given : option (ref float)) l : preserves R (kwlist given l).
Proof. unfold kwlist. frame. Qed.
Lemma preserves_kwlist_string (given : option (ref string)) l :
  preserves R (kwlist given l).
Proof. unfold kwlist. frame. Qed.
Hint Resolve preserves_kwlist_float preserves_kwlist_string : frame.

(** *** The steps that write no float list *)

Lemma requested_features_frame kw : preserves R (requested_features kw).
Proof. unfold requested_features, kwlist. frame. Qed.
Hint Resolve requested_features_frame : frame.

Lemma gather_args_frame args :
  allowed KPrint = true -> forall splist, preserves R (gather_args args splist).
Proof. intros HP. induction args as [|a args IH]; intros splist; cbn; frame. Qed.
Hint Resolve gather_args_frame : frame.

Lemma normalize_input_frame kw args :
  allowed KPrint = true -> preserves R (normalize_input kw args).
Proof.
  intros HP.
  unfold normalize_input, input_list. frame.
Qed.
Hint Resolve normalize_input_frame : frame.

Lemma prep_legend_frame kw n : preserves R (prep_legend kw n).
Proof. unfold prep_legend. frame. Qed.
Hint Resolve prep_legend_frame : frame.

Lemma make_config_frame kw ftrs lg splist :
  allowed KClose = true -> allowed KDocument = true ->
  preserves R (make_config kw ftrs lg splist).
Proof. intros HC HD. unfold make_config. frame. Qed.
Hint Resolve make_config_frame : frame.

Lemma first_spectrum_frame sp : preserves R (first_spectrum sp).
Proof. unfold first_spectrum. frame. Qed.
Hint Resolve first_spectrum_frame : frame.

Lemma line_styles_frame kw n : preserves R (line_styles kw n).
Proof. unfold line_styles. frame. Qed.
Hint Resolve line_styles_frame : frame.

Lemma map_colors_frame scheme r vmax todo : forall i, preserves R (map_colors scheme r vmax i todo).
Proof. induction todo as [|todo IH]; intros i; cbn; frame. Qed.
Hint Resolve map_colors_frame : frame.

Lemma line_colors_frame kw n : preserves R (line_colors kw n).
Proof. unfold line_colors. frame. Qed.
Hint Resolve line_colors_frame : frame.

Lemma flag_list_frame given default n : preserves R (flag_list given default n).
Proof. unfold flag_list. frame. Qed.
Hint Resolve flag_list_frame : frame.

Lemma show_noise_frame kw n : preserves R (show_noise kw n).
Proof. apply flag_list_frame. Qed.
Hint Resolve show_noise_frame : frame.

Lemma show_zero_frame kw n : preserves R (show_zero kw n).
Proof. apply flag_list_frame. Qed.
Hint Resolve show_zero_frame : frame.

Lemma generate_plot_frame kw cfg plts c :
  allowed KClose = true -> allowed KFigure = true -> allowed KSubplot = true ->
  preserves R (generate_plot kw cfg plts c).
Proof. intros HC HF HS. unfold generate_plot. frame. Qed.
Hint Resolve generate_plot_frame : frame.

Lemma interpolant_frame xs ys : preserves R (interpolant xs ys).
Proof. unfold interpolant. frame. Qed.
Hint Resolve interpolant_frame : frame.

Lemma offset_by_frame zp ii values : preserves R (offset_by zp ii values).
Proof. unfold offset_by. frame. Qed.
Hint Resolve offset_by_frame : frame.

Lemma stacked_flux_frame kw cfg p n ii a : preserves R (stacked_flux kw cfg p n ii a).
Proof. unfold stacked_flux. frame. Qed.
Hint Resolve stacked_flux_frame : frame.

Lemma draw_spectrum_frame cfg p ii a flx lg :
  allowed KCurve = true -> preserves R (draw_spectrum cfg p ii a flx lg).
Proof. intros HC. unfold draw_spectrum. frame. Qed.
Hint Resolve draw_spectrum_frame : frame.

Lemma draw_noise_frame p ii a : allowed KNoise = true -> preserves R (draw_noise p ii a).
Proof. intros HN. unfold draw_noise. frame. Qed.
Hint Resolve draw_noise_frame : frame.

Lemma draw_zero_frame p ii a : allowed KZero = true -> preserves R (draw_zero p ii a).
Proof. intros HZ. unfold draw_zero. frame. Qed.
Hint Resolve draw_zero_frame : frame.

Lemma max_flux_frame p ii a flx env : preserves R (max_flux p ii a flx env).
Proof. unfold max_flux. frame. Qed.
Hint Resolve max_flux_frame : frame.

Lemma plot_one_frame kw cfg p n ii a lg env :
  allowed KCurve = true -> allowed KNoise = true -> allowed KZero = true ->
  preserves R (plot_one kw cfg p n ii a lg env).
Proof. intros HC HN HZ. unfold plot_one. frame. Qed.
Hint Resolve plot_one_frame : frame.

Lemma plot_spectra_frame kw cfg p n sp :
  allowed KCurve = true -> allowed KNoise = true -> allowed KZero = true ->
  forall ii lg env, preserves R (plot_spectra kw cfg p n ii sp lg env).
Proof.
  intros HC HN HZ. induction sp as [|a sp IH]; intros ii lg env; cbn.
  - frame.
  - apply preserves_bind; [now apply plot_one_frame | intros env'; apply IH].
Qed.
Hint Resolve plot_spectra_frame : frame.

Lemma add_comparison_frame kw cfg p :
  allowed KComparison = true -> preserves R (add_comparison kw cfg p).
Proof. intros HC. unfold add_comparison. frame. Qed.
Hint Resolve add_comparison_frame : frame.

Lemma label_interval_frame cfg p yoff fs ftr ft k waveRng wvmax flxmax :
  allowed KFeature = true ->
  preserves R (label_interval cfg p yoff fs ftr ft k waveRng wvmax flxmax).
Proof. intros HF. unfold label_interval. frame. Qed.
Hint Resolve label_interval_frame : frame.

Lemma label_intervals_frame cfg p yoff fs ftr ft ranges wvmax :
  allowed KFeature = true ->
  forall k flxmax, preserves R (label_intervals cfg p yoff fs ftr ft k ranges wvmax flxmax).
Proof.
  intros HF. induction ranges as [|w ranges IH]; intros k flxmax; cbn.
  - frame.
  - apply preserves_bind; [now apply label_interval_frame | intros f; apply IH].
Qed.
Hint Resolve label_intervals_frame : frame.

Lemma label_features_frame cfg p yoff fs ftrs wvmax :
  allowed KFeature = true ->
  forall flxmax, preserves R (label_features cfg p yoff fs ftrs wvmax flxmax).
Proof.
  intros HF. induction ftrs as [|ftr ftrs IH]; intros flxmax; cbn [label_features].
  - frame.
  - apply preserves_bind; [|intros f; apply IH].
    destruct (lookup_feature (lower ftr) feature_labels);
      [now apply label_intervals_frame | frame].
Qed.
Hint Resolve label_features_frame : frame.

Lemma overplot_telluric_frame p yoff fs ranges :
  allowed KTelluric = true -> preserves R (overplot_telluric p yoff fs ranges).
Proof. intros HT. induction ranges as [|[w0 w1] ranges IH]; cbn; frame. Qed.
Hint Resolve overplot_telluric_frame : frame.

Lemma finish_plot_frame kw cfg p plts wvmax flxmax :
  allowed KFeature = true -> allowed KTelluric = true -> allowed KGrid = true ->
  allowed KAxis = true -> allowed KLabels = true -> allowed KLegend = true ->
  allowed KSave = true -> allowed KShow = true ->
  preserves R (finish_plot kw cfg p plts wvmax flxmax).
Proof.
  intros HF HT HG HA HL HLg HS HSh.
  unfold finish_plot. frame.
Qed.
Hint Resolve finish_plot_frame : frame.

Lemma save_pages_frame cfg c todo :
  allowed KPage = true -> forall pg, preserves R (save_pages cfg c pg todo).
Proof. intros HP. induction todo as [|todo IH]; intros pg; cbn; frame. Qed.
Hint Resolve save_pages_frame : frame.

Lemma write_document_frame cfg c :
  allowed KPage = true -> allowed KDocument = true -> preserves R (write_document cfg c).
Proof.
  intros HP HD.
  unfold write_document. frame.
Qed.
Hint Resolve write_document_frame : frame.

(** *** The steps that extend the axis bounds *)

Hypothesis extend_float : forall (r : ref float) ext st, R st (snd (extend r ext st)).

Lemma axis_bounds_frame kw spectra zp : preserves R (axis_bounds kw spectra zp).
Proof.
  unfold axis_bounds, kwlist. frame. intros st. apply extend_float.
Qed.
Hint Resolve axis_bounds_frame : frame.

Lemma plot_parameters_frame kw sp first : preserves R (plot_parameters kw sp first).
Proof.
  unfold plot_parameters, kwlist. frame.
Qed.
Hint Resolve plot_parameters_frame : frame.

Hypothesis every_kind : forall k, allowed k = true.
Hint Resolve every_kind : frame.

Lemma plot_group_frame kw cfg plts sp c : preserves R (plot_group kw cfg plts sp c).
Proof.
  unfold plot_group. frame.
Qed.
Hint Resolve plot_group_frame : frame.

Lemma plot_all_frame kw cfg splist :
  forall plts c, preserves R (plot_all kw cfg plts splist c).
Proof.
  induction splist as [|sp splist IH]; intros plts c; cbn.
  - frame.
  - apply preserves_bind; [apply plot_group_frame | intros c'; apply IH].
Qed.
Hint Resolve plot_all_frame : frame.

Lemma plotSpectrum_frame args kw : preserves R (plotSpectrum args kw).
Proof.
  unfold plotSpectrum. frame.
Qed.
Hint Resolve plotSpectrum_frame : frame.
End Frame.

(** ** The trace only grows *)

Section StoreTrace.
Context {A : Type} `{Cell A}.

Lemma alloc_trace (l : list A) st : trace (snd (alloc l st)) = trace st.
Proof. reflexivity. Qed.

Lemma write_trace (r : ref A) l st : trace (snd (write r l st)) = trace st.
Proof. reflexivity. Qed.

Lemma extend_trace (r : ref A) ext st : trace (snd (extend r ext st)) = trace st.
Proof.
  unfold extend. rewrite bind_run. unfold load.
  now destruct (cell_get (heap st) !! addr r).
Qed.

Lemma setitem_trace var (r : ref A) i v st : trace (snd (setitem var r i v st)) = trace st.
Proof.
  unfold setitem. rewrite bind_run. unfold load.
  destruct (cell_get (heap st) !! addr r) as [l|]; [|reflexivity].
  now destruct (i <? length l)%nat.
Qed.
End StoreTrace.

Lemma appends_silent allowed st st' : trace st' = trace st -> appends allowed st st'.
Proof. intros E. exists []. rewrite E, app_nil_r. split; [reflexivity | constructor]. Qed.

Lemma appends_frame allowed : frame (appends allowed) allowed.
Proof.
  split.
  - intros st. now apply appends_silent.
  - intros s1 s2 s3 (e1 & E1 & F1) (e2 & E2 & F2). exists (e1 ++ e2).
    rewrite E2, E1, app_assoc. split; [reflexivity | now apply Forall_app].
  - intros e st He. exists [e]. split; [reflexivity | now repeat constructor].
  - intros; now apply appends_silent.
  - intros; now apply appends_silent.
  - intros; now apply appends_silent.
  - intros; now apply appends_silent.
  - intros; apply appends_silent, extend_trace.
  - intros; apply appends_silent, extend_trace.
  - intros; apply appends_silent, extend_trace.
  - intros; apply appends_silent, setitem_trace.
  - intros; apply appends_silent, setitem_trace.
Qed.

Lemma appends_extend_float allowed (r : ref float) ext st :
  appends allowed st (snd (extend r ext st)).
Proof. apply appends_silent, extend_trace. Qed.

(** ** Reading the input (lines 189-223) *)

Lemma gather_args_run args : forall splist st,
  gather_args args splist st
  = (Ok (splist ++ List.filter kept args), mkState (heap st) (trace st ++ warnings args)).
Proof.
  induction args as [|a args IH]; intros splist st; cbn [gather_args].
  - cbn. rewrite !app_nil_r. now destruct st.
  - destruct a as [s|l|repr]; cbn [List.filter kept is_Spectrum is_list orb warnings flat_map].
    + rewrite IH, <- app_assoc. reflexivity.
    + rewrite IH, <- app_assoc. reflexivity.
    + rewrite bind_run. cbn [emit]. rewrite IH. cbn. now rewrite <- app_assoc.
Qed.

Lemma input_list_run args st :
  fst (input_list args st) = Ok (input_of args)
  /\ heap (snd (input_list args st)) = heap st
  /\ trace (snd (input_list args st))
     = trace st ++ match args with [PList _] => [] | _ => warnings args end.
Proof.
  unfold input_list, input_of.
  destruct args as [|[s|l|repr] [|b args]]; try rewrite gather_args_run; cbn;
    rewrite ?app_nil_r; auto.
Qed.

Lemma flatten_groups (groups : list (list Spectrum)) :
  flatten (List.map group groups) = Ok (List.map PSpectrum (concat groups)).
Proof.
  induction groups as [|g groups IH]; [reflexivity|].
  cbn [List.map]. unfold group at 1. cbn [flatten]. rewrite IH.
  cbn [concat]. now rewrite List.map_app.
Qed.

(** ** Following a call that returns *)

#[global] Hint Resolve preserves_ret preserves_raise preserves_emit preserves_when
  preserves_kwlist_float preserves_kwlist_string
  preserves_lift_option
  preserves_lift_result preserves_load preserves_getitem interpolant_frame
  requested_features_frame gather_args_frame normalize_input_frame prep_legend_frame
  make_config_frame first_spectrum_frame line_styles_frame line_colors_frame
  show_noise_frame show_zero_frame generate_plot_frame offset_by_frame stacked_flux_frame
  draw_spectrum_frame draw_noise_frame draw_zero_frame max_flux_frame plot_one_frame
  plot_spectra_frame add_comparison_frame label_interval_frame label_intervals_frame
  label_features_frame overplot_telluric_frame finish_plot_frame save_pages_frame
  write_document_frame axis_bounds_frame plot_parameters_frame plot_group_frame
  plot_all_frame plotSpectrum_frame appends_frame appends_extend_float : frame.
#[global] Hint Extern 1 (_ = true) => reflexivity : frame.

Ltac framed := solve [ eauto 6 with frame ].

Ltac inv_bind H :=
  let a := fresh "a" in
  let st := fresh "st" in
  let H1 := fresh H in
  apply bind_Ok_inv in H as (a & st & H1 & H).

Lemma preserves_run {A} R (m : M A) st r st' :
  preserves R m -> m st = (r, st') -> R st st'.
Proof. intros P E. specialize (P st). now rewrite E in P. Qed.

Lemma ret_Ok_inv {A} (a b : A) st st' : ret a st = (Ok b, st') -> b = a /\ st' = st.
Proof. intros E. inversion E. auto. Qed.

Lemma lift_result_Ok_inv {A} (r : result A) a st st' :
  lift_result r st = (Ok a, st') -> r = Ok a /\ st' = st.
Proof. destruct r; intros E; inversion E; auto. Qed.

Lemma lift_option_Ok_inv {A} e (o : option A) a st st' :
  lift_option e o st = (Ok a, st') -> o = Some a /\ st' = st.
Proof. destruct o; intros E; inversion E; auto. Qed.

Lemma emit_Ok_inv e u st st' :
  emit e st = (Ok u, st') -> st' = mkState (heap st) (trace st ++ [e]).
Proof. intros E. inversion E. reflexivity. Qed.

(** ** Plots and curves *)

Lemma marks_app tr1 tr2 : marks (tr1 ++ tr2) = marks tr1 ++ marks tr2.
Proof. unfold marks. apply flat_map_app. Qed.

Lemma marks_background evs :
  Forall (fun e => background (kind_of e) = true) evs -> marks evs = [].
Proof.
  induction 1 as [|e evs He _ IH]; [reflexivity|].
  change (e :: evs) with ([e] ++ evs). rewrite marks_app, IH, app_nil_r.
  destruct e as [| | | | | w | w | | | | | | | | | | | | | | | ]; try reflexivity;
    try destruct w; try reflexivity; discriminate He.
Qed.

Lemma background_marks {A} (m : M A) st r st' :
  preserves (appends background) m -> m st = (r, st') ->
  marks (trace st') = marks (trace st).
Proof.
  intros P E. destruct (preserves_run _ _ _ _ _ P E) as (evs & -> & Hevs).
  now rewrite marks_app, (marks_background _ Hevs), app_nil_r.
Qed.

Ltac quiet_marks E :=
  match type of E with
  | ?m ?st = _ => rewrite (background_marks m st _ _ ltac:(framed) E)
  end.

Lemma spectra_of_Ok sp spectra :
  spectra_of sp = Ok spectra -> sp = List.map PSpectrum spectra.
Proof.
  revert spectra. induction sp as [|a sp IH]; intros spectra E; cbn in E.
  - now inversion E.
  - destruct a as [s| |]; try discriminate.
    destruct (spectra_of sp) as [l|]; [|discriminate]. inversion E; subst.
    cbn. now rewrite (IH l).
Qed.

Lemma first_spectrum_Ok sp l first st st' :
  first_spectrum sp st = (Ok (l, first), st') ->
  st' = st /\ sp = PList l /\ exists rest, l = PSpectrum first :: rest.
Proof.
  unfold first_spectrum. destruct sp as [s|[|[s| |] rest]|]; intros E; inversion E; subst.
  eauto.
Qed.

Lemma plot_parameters_spectra kw sp first p spectra st st' :
  plot_parameters kw sp first st = (Ok (p, spectra), st') -> spectra_of sp = Ok spectra.
Proof.
  unfold plot_parameters. intros E.
  inv_bind E. inv_bind E. apply lift_result_Ok_inv in E1 as [E1 ->].
  inv_bind E. inv_bind E. inv_bind E. destruct a3. inv_bind E. inv_bind E.
  apply ret_Ok_inv in E as [E _]. now inversion E; subst.
Qed.

Lemma generate_plot_marks kw cfg plts c c' st st' :
  generate_plot kw cfg plts c st = (Ok c', st') ->
  marks (trace st') = marks (trace st) ++ [NewPlot] /\ lg_n c' = lg_n c.
Proof.
  unfold generate_plot. destruct (multipage cfg).
  - intros E. inv_bind E.
    assert (marks (trace st0) = marks (trace st) /\ lg_n a = lg_n c) as [Em Elg].
    { destruct (_ =? 0)%Z.
      - destruct (_ <? _)%nat; [|discriminate]. inv_bind E0.
        apply emit_Ok_inv in E1 as ->. apply ret_Ok_inv in E0 as [-> ->].
        cbn. now rewrite marks_app, app_nil_r.
      - apply ret_Ok_inv in E0 as [-> ->]. auto. }
    destruct (py_index _ _) as [[|]|]; try discriminate.
    inv_bind E. apply emit_Ok_inv in E1 as ->. apply ret_Ok_inv in E as [-> ->].
    cbn. now rewrite marks_app, Em.
  - intros E. inversion E; subst. cbn. rewrite !marks_app. cbn.
    now rewrite !app_nil_r.
Qed.

Lemma draw_spectrum_marks cfg p ii a flx lg u st st' :
  draw_spectrum cfg p ii a flx lg st = (Ok u, st') ->
  marks (trace st') = marks (trace st) ++ [Drawn ii (wave a)].
Proof.
  unfold draw_spectrum. intros E. inv_bind E. inv_bind E. inv_bind E.
  apply getitem_Ok_inv in E0 as [-> _]. apply getitem_Ok_inv in E1 as [-> _].
  apply getitem_Ok_inv in E2 as [-> _]. apply emit_Ok_inv in E as ->.
  cbn. now rewrite marks_app.
Qed.

Lemma plot_one_marks kw cfg p n ii a lg env env' st st' :
  plot_one kw cfg p n ii a lg env st = (Ok env', st') ->
  marks (trace st') = marks (trace st) ++ [Drawn ii (wave a)].
Proof.
  unfold plot_one. intros E. inv_bind E. inv_bind E. inv_bind E. inv_bind E.
  apply draw_spectrum_marks in E1.
  quiet_marks E. quiet_marks E3. quiet_marks E2. rewrite E1. now quiet_marks E0.
Qed.

Lemma plot_spectra_marks kw cfg p n spectra : forall ii lg env lg' env' st st',
  plot_spectra kw cfg p n ii spectra lg env st = (Ok (lg', env'), st') ->
  marks (trace st') = marks (trace st) ++ curve_marks ii spectra
  /\ lg' = (lg + length spectra)%nat.
Proof.
  induction spectra as [|a spectra IH]; intros ii lg env lg' env' st st' E;
    cbn [plot_spectra] in E.
  - apply ret_Ok_inv in E as [E ->]. inversion E; subst. cbn.
    rewrite app_nil_r. auto with arith.
  - inv_bind E. apply plot_one_marks in E0. apply IH in E as [E ->].
    rewrite E, E0, <- app_assoc. cbn. split; [reflexivity | lia].
Qed.

Lemma plot_group_marks kw cfg plts sp c c' st st' :
  plot_group kw cfg plts sp c st = (Ok c', st') ->
  exists spectra,
    sp = group spectra /\ spectra <> []
    /\ marks (trace st') = marks (trace st) ++ group_marks spectra
    /\ lg_n c' = (lg_n c + length spectra)%nat.
Proof.
  unfold plot_group. intros E. inv_bind E. destruct a as [l first].
  apply first_spectrum_Ok in E0 as (-> & -> & rest & ->).
  inv_bind E. destruct a as [p spectra].
  pose proof (plot_parameters_spectra _ _ _ _ _ _ _ E0) as Hsp.
  apply spectra_of_Ok in Hsp.
  inv_bind E. apply generate_plot_marks in E1 as [E1 Elg].
  inv_bind E. destruct a0 as [lg [wvmax flxmax]].
  apply plot_spectra_marks in E2 as [E2 ->].
  inv_bind E. inv_bind E. apply ret_Ok_inv in E as [-> ->].
  exists spectra. split; [now rewrite Hsp | split].
  - destruct spectra; [discriminate | congruence].
  - quiet_marks E4. quiet_marks E3. rewrite E2, E1. quiet_marks E0.
    cbn. rewrite <- app_assoc. split; [reflexivity | lia].
Qed.

Lemma plot_all_marks kw cfg splist : forall plts c c' st st',
  plot_all kw cfg plts splist c st = (Ok c', st') ->
  exists groups,
    splist = List.map group groups /\ Forall (fun g => g <> []) groups
    /\ marks (trace st') = marks (trace st) ++ flat_map group_marks groups.
Proof.
  induction splist as [|sp splist IH]; intros plts c c' st st' E; cbn [plot_all] in E.
  - apply ret_Ok_inv in E as [_ ->]. exists []. cbn. now rewrite app_nil_r.
  - inv_bind E. apply plot_group_marks in E0 as (g & -> & Hg & E0 & _).
    apply IH in E as (groups & -> & Hgs & E). exists (g :: groups).
    split; [reflexivity | split; [now constructor|]].
    rewrite E, E0, <- app_assoc. reflexivity.
Qed.

Lemma normalize_input_Ok kw args mp splist tot st st' :
  normalize_input kw args st = (Ok (mp, splist, tot), st') ->
  mp = multiplot_flag (kw_multiplot kw) (input_of args)
  /\ groups_of kw args = Ok splist
  /\ (exists items, flatten splist = Ok items /\ tot = length items)
  /\ heap st' = heap st.
Proof.
  unfold normalize_input, groups_of. intros E. inv_bind E.
  destruct (input_list_run args st) as (E1 & E2 & _). rewrite E0 in E1, E2.
  cbn in E1, E2. inversion E1; subst a. clear E1.
  inv_bind E. apply lift_result_Ok_inv in E1 as [E1 ->].
  inv_bind E. apply lift_result_Ok_inv in E3 as [E3 ->].
  apply ret_Ok_inv in E as [E ->]. inversion E; subst. repeat split; eauto.
Qed.

Lemma plotSpectrum_marks a args kw u st st' :
  plotSpectrum (a :: args) kw st = (Ok u, st') ->
  exists groups,
    groups_of kw (a :: args) = Ok (List.map group groups)
    /\ Forall (fun g => g <> []) groups
    /\ marks (trace st') = marks (trace st) ++ flat_map group_marks groups.
Proof.
  unfold plotSpectrum. intros E. inv_bind E. inv_bind E. inv_bind E.
  destruct a2 as [[mp splist] tot]. inv_bind E. inv_bind E. inv_bind E. inv_bind E.
  inv_bind E.
  apply plot_all_marks in E7 as (groups & -> & Hg & E7).
  apply normalize_input_Ok in E2 as Hn. destruct Hn as (_ & Hn & _).
  exists groups. split; [assumption | split; [assumption|]].
  quiet_marks E. rewrite E7. quiet_marks E6. quiet_marks E5. quiet_marks E4.
  quiet_marks E3. quiet_marks E2. quiet_marks E1. now quiet_marks E0.
Qed.

Lemma map_PSpectrum_inj g1 : forall g2,
  List.map PSpectrum g1 = List.map PSpectrum g2 -> g1 = g2.
Proof.
  induction g1 as [|s g1 IH]; intros [|s2 g2] E; try discriminate; [reflexivity|].
  cbn in E. inversion E; subst. f_equal. now apply IH.
Qed.

Lemma group_inj g1 g2 : group g1 = group g2 -> g1 = g2.
Proof. unfold group. intros E. injection E as E. now apply map_PSpectrum_inj. Qed.

Lemma map_group_inj gs1 gs2 : List.map group gs1 = List.map group gs2 -> gs1 = gs2.
Proof.
  revert gs2. induction gs1 as [|g gs1 IH]; intros [|g2 gs2] E; try discriminate;
    [reflexivity|].
  cbn [List.map] in E. injection E as E1 E2. apply map_PSpectrum_inj in E1.
  apply IH in E2. congruence.
Qed.

Lemma normalize_input_run kw args splist items st :
  groups_of kw args = Ok splist -> flatten splist = Ok items ->
  fst (normalize_input kw args st)
  = Ok (multiplot_flag (kw_multiplot kw) (input_of args), splist, length items).
Proof.
  unfold groups_of, normalize_input. intros Eg Ef. rewrite bind_run.
  destruct (input_list_run args st) as (E1 & _).
  destruct (input_list args st) as [r st1]. cbn in E1. subst r.
  rewrite bind_run, Eg. cbn. rewrite bind_run, Ef. reflexivity.
Qed.

Lemma flatten_singletons (spectra : list Spectrum) :
  flatten (List.map (fun s => group [s]) spectra) = Ok (List.map PSpectrum spectra).
Proof.
  induction spectra as [|s spectra IH]; [reflexivity|].
  cbn [List.map]. unfold group at 1. cbn [flatten List.map]. now rewrite IH.
Qed.

Lemma singleton_marks (spectra : list Spectrum) :
  flat_map group_marks (List.map (fun s => [s]) spectra)
  = flat_map (fun s => [NewPlot; Drawn 0 (wave s)]) spectra.
Proof.
  induction spectra as [|s spectra IH]; [reflexivity|].
  cbn [List.map flat_map]. now rewrite IH.
Qed.

(** * The claims *)

(** C7.  A flat list of two or more Spectrum objects (given as one list or as
    separate arguments) with [multiplot=True] is read as one spectrum per
    plot: the plot groups are the one-element groups of the spectra, in
    order, and a call that returns has opened one plot for each spectrum and
    drawn exactly that spectrum on it. *)
Theorem multiplot_flat_list_is_one_spectrum_per_plot
    (kw : kwargs) (spectra : list Spectrum) (args : list pyobj) :
  kw_multiplot kw = true ->
  (2 <= length spectra)%nat ->
  input_of args = List.map PSpectrum spectra ->
  (forall st, fst (normalize_input kw args st)
              = Ok (true, List.map (fun s => group [s]) spectra, length spectra))
  /\ (forall h st', call args kw h = (Ok tt, st') ->
        marks (trace st') = flat_map (fun s => [NewPlot; Drawn 0 (wave s)]) spectra).
Proof.
  intros Hm Hn Hin.
  assert (Hflag : multiplot_flag (kw_multiplot kw) (input_of args) = true).
  { rewrite Hin, Hm. unfold multiplot_flag. rewrite length_map.
    destruct spectra as [|s [|s' spectra]]; cbn in Hn; try lia. reflexivity. }
  assert (Hg : groups_of kw args = Ok (List.map (fun s => group [s]) spectra)).
  { unfold groups_of. rewrite Hflag, Hin.
    destruct spectra as [|s spectra]; cbn in Hn; [lia|].
    cbn [plot_groups List.map is_Spectrum andb]. f_equal.
    rewrite List.map_map. reflexivity. }
  split.
  - intros st. rewrite (normalize_input_run _ _ _ _ _ Hg (flatten_singletons spectra)).
    now rewrite Hflag, length_map.
  - intros h st' E. unfold call in E.
    destruct args as [|a args]; [destruct spectra; cbn in *; [lia | discriminate]|].
    apply plotSpectrum_marks in E as (groups & Eg & _ & E).
    rewrite Hg in Eg. injection Eg as Eg.
    rewrite <- (List.map_map (fun s => [s]) group) in Eg. apply map_group_inj in Eg.
    subst groups. rewrite E. apply singleton_marks.
Qed.

Lemma multiplot_flat_list_witness :
  fst (normalize_input multiplot_on [PList [PSpectrum spec_J; PSpectrum spec_H]] start)
  = Ok (true, [group [spec_J]; group [spec_H]], 2%nat)
  /\ marks (trace (snd (call [PList [PSpectrum spec_J; PSpectrum spec_H]] multiplot_on
                             empty_heap)))
     = [NewPlot; Drawn 0 (wave spec_J); NewPlot; Drawn 0 (wave spec_H)].
Proof.
  destruct (multiplot_flat_list_is_one_spectrum_per_plot multiplot_on [spec_J; spec_H]
              [PList [PSpectrum spec_J; PSpectrum spec_H]] eq_refl
              ltac:(apply Nat.le_refl) eq_refl) as [H1 H2].
  split; [apply H1 | apply (H2 empty_heap)]. vm_compute. reflexivity.
Defined.

(** C6 (as the code has it).  For a sequence-of-sequences input (a list of
    lists of spectra, or several lists as separate arguments) the plot groups
    are exactly the inner sequences, whatever the caller gave as [multiplot]:
    a call that returns has opened one plot per inner sequence and drawn that
    sequence's spectra on it.  The flag itself is forced on when there are two
    or more inner sequences and forced off when there is exactly one. *)
Theorem sequence_of_sequences_is_one_plot_per_inner_sequence
    (kw : kwargs) (groups : list (list Spectrum)) (args : list pyobj) :
  groups <> [] ->
  input_of args = List.map group groups ->
  (forall st, fst (normalize_input kw args st)
              = Ok (negb (length groups =? 1)%nat, List.map group groups,
                    length (concat groups)))
  /\ (forall h st', call args kw h = (Ok tt, st') ->
        marks (trace st') = flat_map group_marks groups).
Proof.
  intros Hne Hin.
  assert (Hflag : multiplot_flag (kw_multiplot kw) (input_of args)
                  = negb (length groups =? 1)%nat).
  { rewrite Hin. unfold multiplot_flag. rewrite length_map.
    destruct groups as [|g [|g' groups]]; [congruence | reflexivity | reflexivity]. }
  assert (Hg : groups_of kw args = Ok (List.map group groups)).
  { unfold groups_of. rewrite Hflag, Hin.
    destruct groups as [|g [|g' groups]]; [congruence | reflexivity | reflexivity]. }
  split.
  - intros st. rewrite (normalize_input_run _ _ _ _ _ Hg (flatten_groups groups)).
    now rewrite Hflag, length_map.
  - intros h st' E. unfold call in E.
    destruct args as [|a args]; [destruct groups; [congruence | discriminate]|].
    apply plotSpectrum_marks in E as (groups' & Eg & _ & E).
    rewrite Hg in Eg. injection Eg as Eg. apply map_group_inj in Eg.
    subst groups'. exact E.
Qed.

Lemma sequence_of_sequences_witness :
  fst (normalize_input no_kwargs [PList [group [spec_J; spec_H]; group [spec_H]]] start)
  = Ok (true, [group [spec_J; spec_H]; group [spec_H]], 3%nat)
  /\ marks (trace (snd (call [PList [group [spec_J; spec_H]; group [spec_H]]] no_kwargs
                             empty_heap)))
     = [NewPlot; Drawn 0 (wave spec_J); Drawn 1 (wave spec_H);
        NewPlot; Drawn 0 (wave spec_H)].
Proof.
  destruct (sequence_of_sequences_is_one_plot_per_inner_sequence no_kwargs
              [[spec_J; spec_H]; [spec_H]]
              [PList [group [spec_J; spec_H]; group [spec_H]]]
              ltac:(discriminate) eq_refl) as [H1 H2].
  split; [apply H1 | apply (H2 empty_heap)]. vm_compute. reflexivity.
Defined.

(** C6 as stated fails: a sequence of sequences with a single inner sequence,
    passed with [multiplot=True], leaves the function with the flag off. *)
Lemma single_inner_sequence_turns_multiplot_off :
  fst (normalize_input multiplot_on [PList [group [spec_J; spec_H]]] start)
  = Ok (false, [group [spec_J; spec_H]], 2%nat).
Proof. reflexivity. Qed.

(** Lines 194-202.  When the spectra are passed as separate arguments
    (anything but one single list), every argument that is neither a Spectrum
    nor a list is dropped with one warning, the others are kept in order as
    the input list, and this reading of the arguments never fails. *)
Lemma separate_arguments_skip_malformed (args : list pyobj) (st : state) :
  (forall l, args <> [PList l]) ->
  input_list args st
  = (Ok (List.filter kept args), mkState (heap st) (trace st ++ warnings args)).
Proof.
  intros Hseq. unfold input_list.
  destruct args as [|[s|l|repr] [|b args]]; try exact (gather_args_run _ [] st).
  now destruct (Hseq l).
Qed.

Lemma separate_arguments_example :
  input_list [PSpectrum spec_J; POther "5"; PSpectrum spec_H] start
  = (Ok [PSpectrum spec_J; PSpectrum spec_H], mkState empty_heap [Print (ignoring "5")]).
Proof.
  apply (separate_arguments_skip_malformed
           [PSpectrum spec_J; POther "5"; PSpectrum spec_H] start).
  intros l. discriminate.
Defined.

(** C3: the code on the number 5 beside a spectrum, in the two ways of
    passing them.  As separate arguments, [plotSpectrum(sp, 5)], the number
    is dropped with the warning and the spectrum is plotted and shown.  As
    one flat list, [plotSpectrum([sp, 5])], the number is not skipped and no
    warning is printed: the list is taken as it is (line 191), the number
    reaches [s.fluxMax()] of line 272, and the call ends in an
    AttributeError with nothing drawn and no output. *)
Theorem malformed_list_element_is_not_skipped :
  (fst (call [PSpectrum spec_J; POther "5"] no_kwargs empty_heap) = Ok tt
   /\ In (Print (ignoring "5"))
         (trace (snd (call [PSpectrum spec_J; POther "5"] no_kwargs empty_heap)))
   /\ marks (trace (snd (call [PSpectrum spec_J; POther "5"] no_kwargs empty_heap)))
      = [NewPlot; Drawn 0 (wave spec_J)]
   /\ outputs (trace (snd (call [PSpectrum spec_J; POther "5"] no_kwargs empty_heap)))
      = [Show])
  /\ (fst (call [PList [PSpectrum spec_J; POther "5"]] no_kwargs empty_heap)
      = Err AttributeError
      /\ ~ In (Print (ignoring "5"))
              (trace (snd (call [PList [PSpectrum spec_J; POther "5"]] no_kwargs
                                empty_heap)))
      /\ marks (trace (snd (call [PList [PSpectrum spec_J; POther "5"]] no_kwargs
                                 empty_heap)))
         = []
      /\ outputs (trace (snd (call [PList [PSpectrum spec_J; POther "5"]] no_kwargs
                                   empty_heap)))
         = []).
Proof.
  split; [split; [|split; [|split]] | split; [|split; [|split]]];
    try (vm_compute; reflexivity).
  - vm_compute. left. reflexivity.
  - vm_compute. intros [H|[H|[H|[]]]]; discriminate H.
Qed.

(** C2: the code at [features=['H2O'], mdwarf=True].  The request list is
    H2O, k, na, feh, tio, co, h2o, h2; the repeats are cleaned by exact
    spelling, the table is read in lower case, and the water bands are
    annotated twice. *)
Theorem water_is_annotated_twice :
  feature_captions
    (trace (snd (call [PSpectrum spec_J] water_and_mdwarf water_store)))
  = [("h2o", 0); ("h2o", 1); ("h2o", 2); ("h2o", 3);
     ("k", 1); ("k", 2); ("na", 1); ("na", 2);
     ("feh", 0); ("feh", 1); ("feh", 2); ("feh", 3); ("co", 0);
     ("h2o", 0); ("h2o", 1); ("h2o", 2); ("h2o", 3)]%nat.
Proof. vm_compute. reflexivity. Qed.

(** C1: the code on one spectrum with every option at its default.  For the
    spectrum [spec_J] (wavelengths 1.0 to 1.3, flux maximum 2) the call
    returns and shows exactly one plot, with x bounds 0.85 and 2.42 and lower
    y bound -0.02 times the flux maximum; but the upper y bound given to
    [ax.axis] is not 1.2 times the flux maximum (2.4): it is 2.0976 to four
    places, line 410 having replaced it by the peak of the sampled flux plus
    twice [yoff].  Line 410 does the same to the upper bound of a [yrange] of
    the caller: with [yrange=[0., 5.]] the upper bound drawn is 2.2 to four
    places, not 5. *)
Theorem default_upper_bound_is_below_scaled_maximum :
  fst (call [PSpectrum spec_J] no_kwargs empty_heap) = Ok tt
  /\ outputs (trace (snd (call [PSpectrum spec_J] no_kwargs empty_heap))) = [Show]
  /\ (exists top,
        axes (trace (snd (call [PSpectrum spec_J] no_kwargs empty_heap)))
        = [[0.85; 2.42; -0.02 * fluxMax spec_J; top]%float]
        /\ (2.09755 <? top)%float = true /\ (top <? 2.09765)%float = true
        /\ (top <? 1.2 * fluxMax spec_J)%float = true)
  /\ (exists top,
        axes (trace (snd (call [PSpectrum spec_J] own_yrange own_yrange_store)))
        = [[0.85; 2.42; 0; top]%float]
        /\ (2.19995 <? top)%float = true /\ (top <? 2.20005)%float = true).
Proof.
  split; [vm_compute; reflexivity|]. split; [vm_compute; reflexivity|]. split.
  - exists 2.0976%float. repeat split; vm_compute; reflexivity.
  - exists 2.2%float. repeat split; vm_compute; reflexivity.
Qed.

(** ** Pages and tiles *)

Lemma subplots_app tr1 tr2 : subplots (tr1 ++ tr2) = subplots tr1 ++ subplots tr2.
Proof. unfold subplots. apply flat_map_app. Qed.










Lemma make_config_Ok kw ftrs lg splist cfg st st' :
  make_config kw ftrs lg splist st = (Ok cfg, st') ->
  multipage cfg = kw_multipage kw
  /\ multilayout cfg = kwget (kw_layout kw) (kwget (kw_multilayout kw) (1, 1))
  /\ nplot cfg = fst (multilayout cfg) * snd (multilayout cfg)
  /\ features cfg = ftrs
  /\ legend cfg = lg
  /\ (kw_multipage kw = true ->
      numpages cfg = page_count (Z.of_nat (length splist)) (nplot cfg)).
Proof.
  unfold make_config. intros E. inv_bind E. destruct (kw_multipage kw).
  - inv_bind E. destruct (_ =? 0)%Z; [discriminate|].
    apply ret_Ok_inv in E as [-> _]. cbn. repeat split; reflexivity.
  - apply ret_Ok_inv in E as [-> _]. cbn. repeat split; try reflexivity. discriminate.
Qed.



Lemma plot_groups_not_empty mp l splist : plot_groups mp l = Ok splist -> splist <> [].
Proof.
  unfold plot_groups. destruct l as [|first l]; [discriminate|].
  repeat match goal with
         | |- context [if ?b then _ else _] => destruct b
         | |- context [match ?x with Ok _ => _ | Err _ => _ end] => destruct x
         end; intros E; inversion E; discriminate.
Qed.



(** ** Feature annotation (lines 384-406) *)

Lemma getitem_cases {A} `{Cell A} var (r : ref A) i st :
  getitem var r i st
  = (match cell_get (heap st) !! addr r with
     | Some l => match l !! i with
                 | Some x => Ok x
                 | None => Err (IndexError var)
                 end
     | None => Err InvalidRef
     end, st).
Proof.
  unfold getitem. rewrite bind_run. unfold load.
  destruct (cell_get (heap st) !! addr r) as [l|]; [|reflexivity].
  now destruct (l !! i).
Qed.

(** One interval: the store is left as it is, every event written belongs
    to this interval of this feature, and nothing is written when the
    interval is not strictly inside the x bounds. *)
Lemma label_interval_events cfg p yoff fs ftr ft k w0 w1 wvmax flxmax st :
  let out := label_interval cfg p yoff fs ftr ft k (w0, w1) wvmax flxmax st in
  heap (snd out) = heap st
  /\ exists evs,
       trace (snd out) = trace st ++ evs
       /\ Forall (annotates ftr k) evs
       /\ (forall b lo hi,
             floats (heap st) !! addr (bound p) = Some b ->
             b !! 0%nat = Some lo -> b !! 1%nat = Some hi ->
             (lo <? Numpy.minimum w0 w1)%float && (Numpy.maximum w0 w1 <? hi)%float = false ->
             evs = []).
Proof.
  cbv zeta. unfold label_interval. rewrite bind_run, getitem_cases.
  change (cell_get (heap st)) with (floats (heap st)).
  destruct (floats (heap st) !! addr (bound p)) as [b|] eqn:Eb; cbn [fst snd];
    [|split; [reflexivity | exists []; rewrite app_nil_r; repeat split; auto]].
  destruct (b !! 0%nat) as [lo|] eqn:E0;
    [|split; [reflexivity | exists []; rewrite app_nil_r; repeat split; auto]].
  rewrite bind_run, getitem_cases. change (cell_get (heap st)) with (floats (heap st)).
  rewrite Eb. destruct (b !! 1%nat) as [hi|] eqn:E1;
    [|split; [reflexivity | exists []; rewrite app_nil_r; repeat split; auto]].
  destruct ((lo <? Numpy.minimum w0 w1)%float && (Numpy.maximum w0 w1 <? hi)%float) eqn:Ein.
  - rewrite bind_run. unfold interpolant.
    destruct (Numpy.interp1d wvmax flxmax) as [[|]|f]; cbn [ret raise];
      [split; [reflexivity | exists []; rewrite app_nil_r; repeat split; auto] ..|].
    rewrite bind_run. destruct (Numpy.nanmax _) as [top|]; cbn [lift_option ret raise];
      [|split; [reflexivity | exists []; rewrite app_nil_r; repeat split; auto]].
    destruct (ft_type ft); cbn; rewrite <- ?app_assoc; (split; [reflexivity|]); eexists;
      (split; [reflexivity|]);
      (split; [repeat constructor; cbn; auto|]);
      intros b' lo' hi' Hb H0 H1 Hout; inversion Hb; subst b';
      rewrite E0 in H0; rewrite E1 in H1; inversion H0; inversion H1; subst;
      rewrite Ein in Hout; discriminate.
  - cbn. split; [reflexivity | exists []; rewrite app_nil_r; repeat split; auto].
Qed.

Lemma not_annotated_elsewhere ftr k ftr' k' evs :
  (ftr', k') <> (ftr, k) -> Forall (annotates ftr' k') evs ->
  Forall (fun e => ~ annotates ftr k e) evs.
Proof.
  intros Hne H. eapply Forall_impl; [exact H|]. intros e He Hk. apply Hne.
  destruct e as [| | | | | w | w | | | | | | | | | | | | | | | ]; try destruct w;
    cbn in He, Hk; try contradiction; destruct He, Hk; congruence.
Qed.

(** The intervals of one feature, from number [j] on. *)
Lemma label_intervals_events cfg p yoff fs ftr ft wvmax b lo hi k w0 w1 ranges :
  forall j flxmax st,
    floats (heap st) !! addr (bound p) = Some b ->
    b !! 0%nat = Some lo -> b !! 1%nat = Some hi ->
    (lo <? Numpy.minimum w0 w1)%float && (Numpy.maximum w0 w1 <? hi)%float = false ->
    (forall i, (j + i)%nat = k -> ranges !! i = Some (w0, w1)) ->
    let out := label_intervals cfg p yoff fs ftr ft j ranges wvmax flxmax st in
    heap (snd out) = heap st
    /\ exists evs, trace (snd out) = trace st ++ evs
                   /\ Forall (fun e => ~ annotates ftr k e) evs.
Proof.
  induction ranges as [|[v0 v1] ranges IH]; intros j flxmax st Hb H0 H1 Hout Hk;
    cbv zeta; cbn [label_intervals].
  - cbn. split; [reflexivity | exists []; now rewrite app_nil_r].
  - rewrite bind_run.
    destruct (label_interval_events cfg p yoff fs ftr ft j v0 v1 wvmax flxmax st)
      as (Hh & evs & Ht & Hann & Hnone).
    destruct (label_interval cfg p yoff fs ftr ft j (v0, v1) wvmax flxmax st)
      as [[flxmax'|e] st1]; cbn [fst snd] in *.
    + assert (Hevs : Forall (fun e => ~ annotates ftr k e) evs).
      { destruct (Nat.eq_dec j k) as [->|Hjk].
        - specialize (Hk 0%nat ltac:(lia)). cbn in Hk. inversion Hk; subst.
          rewrite (Hnone b lo hi Hb H0 H1 Hout). constructor.
        - eapply not_annotated_elsewhere; [|exact Hann]. congruence. }
      destruct (IH (S j) flxmax' st1) as (Hh' & evs' & Ht' & Hann'); try assumption.
      * now rewrite Hh.
      * intros i Hi. apply (Hk (S i)). lia.
      * split; [congruence|]. exists (evs ++ evs'). rewrite Ht', Ht, app_assoc.
        split; [reflexivity | now apply Forall_app].
    + split; [assumption|]. exists evs. split; [assumption|].
      destruct (Nat.eq_dec j k) as [->|Hjk].
      * specialize (Hk 0%nat ltac:(lia)). cbn in Hk. inversion Hk; subst.
        rewrite (Hnone b lo hi Hb H0 H1 Hout). constructor.
      * eapply not_annotated_elsewhere; [|exact Hann]. congruence.
Qed.

(** The intervals of a feature other than [ftr]. *)
Lemma label_intervals_other cfg p yoff fs ftr k ftr' ft' wvmax ranges :
  ftr' <> ftr ->
  forall j flxmax st,
    let out := label_intervals cfg p yoff fs ftr' ft' j ranges wvmax flxmax st in
    heap (snd out) = heap st
    /\ exists evs, trace (snd out) = trace st ++ evs
                   /\ Forall (fun e => ~ annotates ftr k e) evs.
Proof.
  intros Hne. induction ranges as [|[v0 v1] ranges IH]; intros j flxmax st;
    cbv zeta; cbn [label_intervals].
  - cbn. split; [reflexivity | exists []; now rewrite app_nil_r].
  - rewrite bind_run.
    destruct (label_interval_events cfg p yoff fs ftr' ft' j v0 v1 wvmax flxmax st)
      as (Hh & evs & Ht & Hann & _).
    assert (Hevs : Forall (fun e => ~ annotates ftr k e) evs)
      by (eapply not_annotated_elsewhere; [|exact Hann]; congruence).
    destruct (label_interval cfg p yoff fs ftr' ft' j (v0, v1) wvmax flxmax st)
      as [[flxmax'|e] st1]; cbn [fst snd] in *.
    + destruct (IH (S j) flxmax' st1) as (Hh' & evs' & Ht' & Hann').
      split; [congruence|]. exists (evs ++ evs'). rewrite Ht', Ht, app_assoc.
      split; [reflexivity | now apply Forall_app].
    + split; [assumption|]. now exists evs.
Qed.

(** C8.  Let the x bounds of the plot be [lo] and [hi] (the first two entries
    of [bound]) and take any feature code of the table and any of its
    wavelength intervals, number [k].  If the interval is not strictly inside
    the bounds (its minimum is not above [lo], or its maximum is not below
    [hi]), then whatever the list of requested features, the labelling of
    lines 384-406 draws nothing for it: no label, no bracket, no tick mark. *)
Theorem interval_outside_bounds_is_not_annotated
    (cfg : config) (p : params) (yoff : float) (fontsize : Z) (requested : list string)
    (wvmax : list float) (b : list float) (lo hi : float)
    (ftr : string) (ft : feature) (k : nat) (w0 w1 : float) :
  b !! 0%nat = Some lo -> b !! 1%nat = Some hi ->
  lookup_feature ftr feature_labels = Some ft ->
  ft_wavelengths ft !! k = Some (w0, w1) ->
  (lo <? Numpy.minimum w0 w1)%float && (Numpy.maximum w0 w1 <? hi)%float = false ->
  forall flxmax st,
    floats (heap st) !! addr (bound p) = Some b ->
    let out := label_features cfg p yoff fontsize requested wvmax flxmax st in
    heap (snd out) = heap st
    /\ exists evs, trace (snd out) = trace st ++ evs
                   /\ Forall (fun e => ~ annotates ftr k e) evs.
Proof.
  intros H0 H1 Hft Hk Hout.
  induction requested as [|code requested IH]; intros flxmax st Hb; cbv zeta;
    cbn [label_features].
  - cbn. split; [reflexivity | exists []; now rewrite app_nil_r].
  - match goal with |- context [bind ?m _] => set (step := m) end.
    rewrite bind_run.
    assert (Hstep :
      heap (snd (step st)) = heap st
      /\ exists evs, trace (snd (step st)) = trace st ++ evs
                     /\ Forall (fun e => ~ annotates ftr k e) evs).
    { subst step. destruct (String.eqb_spec (lower code) ftr) as [->|Hne].
      - rewrite Hft. apply (label_intervals_events _ _ _ _ _ _ _ b lo hi k w0 w1);
          try assumption. intros i <-. exact Hk.
      - destruct (lookup_feature (lower code) feature_labels) as [ft'|].
        + now apply label_intervals_other.
        + cbn. split; [reflexivity | exists []; now rewrite app_nil_r]. }
    destruct Hstep as (Hh & evs & Ht & Hann).
    destruct (step st) as [[flxmax'|e] st1]; cbn [fst snd] in *.
    + destruct (IH flxmax' st1) as (Hh' & evs' & Ht' & Hann'); [now rewrite Hh|].
      split; [congruence|]. exists (evs ++ evs'). rewrite Ht', Ht, app_assoc.
      split; [reflexivity | now apply Forall_app].
    + split; [assumption|]. now exists evs.
Qed.

Lemma interval_outside_bounds_witness :
  exists evs,
    trace (snd (label_features plain_config default_range_params 0.02 10 ["h2o"; "H2"]
                               [1.0; 1.3]%float [1; 1]%float default_range_state))
    = trace default_range_state ++ evs
    /\ Forall (fun e => ~ annotates "h2" 0 e) evs.
Proof.
  pose proof (interval_outside_bounds_is_not_annotated plain_config default_range_params
                0.02 10 ["h2o"; "H2"] [1.0; 1.3]%float [0.85; 2.42; 0; 1]%float
                0.85 2.42 "h2" (mkFeature "H$_2$" band [(2.05, 2.6)]%float) 0 2.05 2.6
                eq_refl eq_refl eq_refl eq_refl eq_refl
                [1; 1]%float default_range_state eq_refl) as H.
  cbv zeta in H. destruct H as [_ H]. exact H.
Defined.

(** ** What the steps do to the store *)

Section StoreEffect.
Context {A : Type} `{Cell A}.

Lemma alloc_heap (l : list A) st :
  heap (snd (alloc l st)) = cell_set (cell_get (heap st) ++ [l]) (heap st).
Proof. reflexivity. Qed.

Lemma extend_heap (r : ref A) ext st :
  heap (snd (extend r ext st))
  = match cell_get (heap st) !! addr r with
    | Some l => cell_set (<[addr r := l ++ ext]> (cell_get (heap st))) (heap st)
    | None => heap st
    end.
Proof.
  unfold extend. rewrite bind_run. unfold load.
  now destruct (cell_get (heap st) !! addr r).
Qed.

Lemma setitem_heap var (r : ref A) i v st :
  heap (snd (setitem var r i v st))
  = match cell_get (heap st) !! addr r with
    | Some l => if (i <? length l)%nat
                then cell_set (<[addr r := <[i := v]> l]> (cell_get (heap st))) (heap st)
                else heap st
    | None => heap st
    end.
Proof.
  unfold setitem. rewrite bind_run. unfold load.
  destruct (cell_get (heap st) !! addr r) as [l|]; [|reflexivity].
  now destruct (i <? length l)%nat.
Qed.
End StoreEffect.

Ltac break_match :=
  repeat match goal with
         | |- context [if ?b then _ else _] => destruct b
         | |- context [match ?x with Some _ => _ | None => _ end] => destruct x
         end.

(** Lists are never dropped from a store, and a list only changes where it is
    written. *)
Lemma lookup_after_alloc {A} (s : store A) (l x : list A) a :
  s !! a = Some x -> (s ++ [l]) !! a = Some x.
Proof. intros E. now apply lookup_app_l_Some. Qed.

Lemma lookup_after_write {A} (s : store A) (l x : list A) a b :
  s !! a = Some x ->
  <[b := l]> s !! a = Some (if Nat.eq_dec a b then l else x).
Proof.
  intros E. destruct (Nat.eq_dec a b) as [->|Hne].
  - apply list_lookup_insert_eq. now apply lookup_lt_Some in E.
  - now rewrite list_lookup_insert_ne by congruence.
Qed.

(** *** A list of strings only grows at its end *)

Lemma strings_grow_same a st st' :
  strs (heap st') = strs (heap st) -> strings_grow a st st'.
Proof. intros E l Hl. exists []. now rewrite E, app_nil_r. Qed.

Lemma strings_grow_frame a : frame (strings_grow a) any_kind.
Proof.
  split; try (intros; apply strings_grow_same; reflexivity).
  - intros s1 s2 s3 H1 H2 l Hl. destruct (H1 l Hl) as [e1 E1].
    destruct (H2 _ E1) as [e2 E2]. exists (e1 ++ e2). now rewrite app_assoc.
  - intros l st x Hx. exists []. rewrite app_nil_r, alloc_heap. cbn -[insert lookup app].
    now apply lookup_after_alloc.
  - intros r ext st x Hx. rewrite extend_heap. cbn -[insert lookup app].
    destruct (strs (heap st) !! addr r) as [l|] eqn:El; cbn -[insert lookup app].
    + rewrite (lookup_after_write _ _ _ _ _ Hx). destruct (Nat.eq_dec a (addr r)) as [->|].
      * rewrite Hx in El. inversion El; subst. now exists ext.
      * exists []. now rewrite app_nil_r.
    + exists []. now rewrite app_nil_r.
  - intros r ext st. apply strings_grow_same. rewrite extend_heap. cbn -[insert lookup app].
    now destruct (cols (heap st) !! addr r).
  - intros r k st. apply strings_grow_same. rewrite extend_heap. cbn -[insert lookup app].
    now destruct (bools (heap st) !! addr r).
  - intros var r i v st. apply strings_grow_same. rewrite setitem_heap. cbn -[insert lookup app].
    now break_match.
  - intros var r i v st. apply strings_grow_same. rewrite setitem_heap. cbn -[insert lookup app].
    now break_match.
Qed.

Lemma strings_grow_extend_float a (r : ref float) ext st :
  strings_grow a st (snd (extend r ext st)).
Proof.
  apply strings_grow_same. rewrite extend_heap. cbn -[insert lookup app].
  now destruct (floats (heap st) !! addr r).
Qed.

(** *** A list of flags that is only ever padded with [True] *)

Lemma flags_padded_same a shown st st' :
  bools (heap st') = bools (heap st) -> flags_padded a shown st st'.
Proof. intros E m Hm. exists m. now rewrite E. Qed.

Lemma flags_padded_frame a shown : frame (flags_padded a shown) any_kind.
Proof.
  split; try (intros; apply flags_padded_same; reflexivity).
  - intros s1 s2 s3 H1 H2 m Hm. destruct (H1 m Hm) as (m1 & L1 & E1).
    destruct (H2 _ E1) as (m2 & L2 & E2). exists m2. split; [lia | assumption].
  - intros l st m Hm. exists m. split; [lia|]. rewrite alloc_heap. cbn -[insert lookup app].
    now apply lookup_after_alloc.
  - intros r ext st. apply flags_padded_same. rewrite extend_heap. cbn -[insert lookup app].
    now destruct (strs (heap st) !! addr r).
  - intros r ext st. apply flags_padded_same. rewrite extend_heap. cbn -[insert lookup app].
    now destruct (cols (heap st) !! addr r).
  - intros r k st m Hm. rewrite extend_heap. cbn -[insert lookup app].
    destruct (bools (heap st) !! addr r) as [l|] eqn:El; cbn -[insert lookup app].
    + rewrite (lookup_after_write _ _ _ _ _ Hm). destruct (Nat.eq_dec a (addr r)) as [->|].
      * rewrite Hm in El. inversion El; subst. exists (m + k)%nat. split; [lia|].
        now rewrite <- app_assoc, replicate_add.
      * exists m. split; [lia | reflexivity].
    + exists m. split; [lia | assumption].
  - intros var r i v st. apply flags_padded_same. rewrite setitem_heap. cbn -[insert lookup app].
    now break_match.
  - intros var r i v st. apply flags_padded_same. rewrite setitem_heap. cbn -[insert lookup app].
    now break_match.
Qed.

Lemma flags_padded_extend_float a shown (r : ref float) ext st :
  flags_padded a shown st (snd (extend r ext st)).
Proof.
  apply flags_padded_same. rewrite extend_heap. cbn -[insert lookup app].
  now destruct (floats (heap st) !! addr r).
Qed.

(** *** A list of floats that keeps its length *)

Lemma floats_keep_length_same a st st' :
  floats (heap st') = floats (heap st) -> floats_keep_length a st st'.
Proof. intros E l Hl. exists l. now rewrite E. Qed.

Lemma floats_keep_length_frame a : frame (floats_keep_length a) any_kind.
Proof.
  split; try (intros; apply floats_keep_length_same; reflexivity).
  - intros s1 s2 s3 H1 H2 l Hl. destruct (H1 l Hl) as (l1 & E1 & L1).
    destruct (H2 _ E1) as (l2 & E2 & L2). exists l2. split; [assumption | lia].
  - intros l st x Hx. exists x. split; [|reflexivity]. rewrite alloc_heap. cbn -[insert lookup app].
    now apply lookup_after_alloc.
  - intros r ext st. apply floats_keep_length_same. rewrite extend_heap. cbn -[insert lookup app].
    now destruct (strs (heap st) !! addr r).
  - intros r ext st. apply floats_keep_length_same. rewrite extend_heap. cbn -[insert lookup app].
    now destruct (cols (heap st) !! addr r).
  - intros r k st. apply floats_keep_length_same. rewrite extend_heap. cbn -[insert lookup app].
    now destruct (bools (heap st) !! addr r).
  - intros var r i v st x Hx. rewrite setitem_heap. cbn -[insert lookup app].
    destruct (floats (heap st) !! addr r) as [l|] eqn:El; [|eauto].
    match goal with |- context [if ?b then _ else _] => destruct b end; [|eauto].
    cbn -[insert lookup app].
    rewrite (lookup_after_write _ _ _ _ _ Hx). destruct (Nat.eq_dec a (addr r)) as [->|].
    + rewrite Hx in El. inversion El; subst. eexists. split; [reflexivity|].
      apply length_insert.
    + eauto.
  - intros var r i v st. apply floats_keep_length_same. rewrite setitem_heap. cbn -[insert lookup app].
    now break_match.
Qed.

(** ** Padding (lines 230-231, 277-278, 284-285, 307-308) *)

Tactic Notation "inv_bind" hyp(H) "as" ident(a) ident(st) ident(H1) :=
  apply bind_Ok_inv in H as (a & st & H1 & H).

Section Padding.
Context {A : Type} `{Cell A}.
Hypothesis get_set : forall (s : store A) h, cell_get (cell_set s h) = s.

(** A list shorter than [n] is completed with [d]; a longer one is left as
    it is.  The padding itself never fails. *)
Lemma pad_run (r : ref A) n d st l :
  cell_get (heap st) !! addr r = Some l ->
  fst (pad r n d st) = Ok tt
  /\ cell_get (heap (snd (pad r n d st))) !! addr r
     = Some (l ++ replicate (n - length l) d)
  /\ trace (snd (pad r n d st)) = trace st.
Proof.
  intros E. unfold pad. rewrite bind_run, (load_run _ _ _ E).
  destruct (length l <? n)%nat eqn:Elt; cbn [when].
  - unfold extend. rewrite bind_run, (load_run _ _ _ E). cbn -[insert lookup app].
    rewrite get_set. split; [reflexivity | split; [|reflexivity]].
    apply list_lookup_insert_eq. now apply lookup_lt_Some in E.
  - cbn. apply Nat.ltb_ge in Elt. replace (n - length l)%nat with 0%nat by lia.
    cbn. now rewrite app_nil_r.
Qed.

Lemma pad_long (r : ref A) n d st l :
  cell_get (heap st) !! addr r = Some l -> (n <= length l)%nat ->
  pad r n d st = (Ok tt, st).
Proof.
  intros E Hn. unfold pad. rewrite bind_run, (load_run _ _ _ E).
  apply Nat.ltb_ge in Hn. now rewrite Hn.
Qed.

End Padding.

Lemma float_get_set (s : store float) h : cell_get (cell_set s h) = s.
Proof. reflexivity. Qed.
Lemma string_get_set (s : store string) h : cell_get (cell_set s h) = s.
Proof. reflexivity. Qed.
Lemma color_get_set (s : store color) h : cell_get (cell_set s h) = s.
Proof. reflexivity. Qed.
Lemma bool_get_set (s : store bool) h : cell_get (cell_set s h) = s.
Proof. reflexivity. Qed.

(** ** The uncertainty flags (lines 301-308, 351-354) *)

Lemma recorded_later st0 st st' e :
  appends any_kind st0 st -> recorded st st' e -> recorded st0 st' e.
Proof.
  intros (evs & E & _) (before & after & E'). exists (evs ++ before), after.
  now rewrite E', E, <- !app_assoc.
Qed.

Lemma recorded_earlier st st' st2 e :
  recorded st st' e -> appends any_kind st' st2 -> recorded st st2 e.
Proof.
  intros (before & after & E) (evs & E' & _). exists before, (after ++ evs).
  now rewrite E', E, <- !app_assoc.
Qed.

Lemma appends_run {A} (m : M A) st r st' :
  preserves (appends any_kind) m -> m st = (r, st') -> appends any_kind st st'.
Proof. apply preserves_run. Qed.

Lemma flags_run {A} a shown (m : M A) st r st' k :
  preserves (flags_padded a shown) m -> m st = (r, st') ->
  bools (heap st) !! a = Some (shown ++ replicate k true) ->
  exists k', (k <= k')%nat /\ bools (heap st') !! a = Some (shown ++ replicate k' true).
Proof. intros P E. exact (preserves_run _ _ _ _ _ P E k). Qed.

#[global] Hint Resolve strings_grow_frame strings_grow_extend_float flags_padded_frame
  flags_padded_extend_float floats_keep_length_frame : frame.
#[global] Hint Extern 1 (forall k : kind, _ = true) => intros; reflexivity : frame.

Ltac appends_step E A :=
  match type of E with
  | ?m ?st = _ => pose proof (appends_run m st _ _ ltac:(framed) E) as A
  end.

(** From the flags before the step [E] to the flags after it. *)
Ltac flags_step E H k :=
  match type of E with
  | ?m ?st = _ =>
      let Hk := fresh "Hk" in
      let H' := fresh "Hflags" in
      destruct (flags_run _ _ m st _ _ _ ltac:(framed) E H) as (k & Hk & H');
      clear H; rename H' into H
  end.

Lemma show_noise_given kw n r st flags st' :
  or_else (kw_uncertainty kw) (or_else (kw_noise kw) (kw_showNoise kw)) = Some (inr r) ->
  show_noise kw n st = (Ok flags, st') ->
  flags = r
  /\ exists l, bools (heap st') !! addr r = Some l /\ (n <= length l)%nat.
Proof.
  intros Hkw E. unfold show_noise, flag_list in E. rewrite Hkw in E.
  inv_bind E as x s0 E0. apply ret_Ok_inv in E0 as [-> ->].
  inv_bind E as u s1 E1. apply ret_Ok_inv in E as [-> ->].
  split; [reflexivity|].
  assert (exists l, bools (heap st) !! addr r = Some l) as [l Hl].
  { unfold pad in E1. inv_bind E1 as l s2 E2. apply load_Ok_inv in E2 as [_ E2]. eauto. }
  destruct (pad_run bool_get_set r n true st l Hl) as (_ & Hpad & _).
  rewrite E1 in Hpad. cbn [snd] in Hpad. eexists. split; [exact Hpad|].
  rewrite length_app, length_replicate. lia.
Qed.

Lemma plot_parameters_flags kw sp first p spectra st st' r shown k :
  or_else (kw_uncertainty kw) (or_else (kw_noise kw) (kw_showNoise kw)) = Some (inr r) ->
  bools (heap st) !! addr r = Some (shown ++ replicate k true) ->
  plot_parameters kw sp first st = (Ok (p, spectra), st') ->
  showNoise p = r
  /\ exists k', (k <= k')%nat /\ (length sp <= length shown + k')%nat
                /\ bools (heap st') !! addr r = Some (shown ++ replicate k' true).
Proof.
  intros Hkw Hflags E. unfold plot_parameters in E.
  inv_bind E as zp s0 E0. flags_step E0 Hflags k0.
  inv_bind E as sps s1 E1. apply lift_result_Ok_inv in E1 as [E1 ->].
  inv_bind E as bd s2 E2. flags_step E2 Hflags k2.
  inv_bind E as ls s3 E3. flags_step E3 Hflags k3.
  inv_bind E as cc s4 E4. destruct cc as [cs cu]. flags_step E4 Hflags k4.
  inv_bind E as sn s5 E5.
  destruct (show_noise_given _ _ _ _ _ _ Hkw E5) as (-> & l & Hl & Hlen).
  flags_step E5 Hflags k5. rewrite Hflags in Hl. inversion Hl; subst l.
  rewrite length_app, length_replicate in Hlen.
  inv_bind E as sz s6 E6. flags_step E6 Hflags k6.
  apply ret_Ok_inv in E as [E ->]. inversion E; subst. cbn [showNoise].
  split; [reflexivity|]. exists k6. repeat split; [lia | lia | assumption].
Qed.

Lemma draw_noise_shown p ii a u st st' shown k :
  bools (heap st) !! addr (showNoise p) = Some (shown ++ replicate k true) ->
  (length shown <= ii)%nat ->
  draw_noise p ii a st = (Ok u, st') ->
  exists ns cu ls,
    trace st' = trace st ++ [Plot (NoiseCurve ii) (wave a) ns cu ls (Some 0.3%float) None].
Proof.
  intros Hflags Hii E. unfold draw_noise in E. inv_bind E as sn s0 E0.
  apply getitem_Ok_inv in E0 as (-> & l & Hl & Hsn).
  change (cell_get (heap st)) with (bools (heap st)) in Hl.
  rewrite Hflags in Hl. inversion Hl; subst l.
  rewrite lookup_app_r in Hsn by assumption.
  apply lookup_replicate_1 in Hsn as [-> _]. cbn [when] in E.
  inv_bind E as ns s1 E1. inv_bind E as cu s2 E2. inv_bind E as ls s3 E3.
  apply getitem_Ok_inv in E2 as (-> & _). apply getitem_Ok_inv in E3 as (-> & _).
  assert (trace s1 = trace st) as Ht.
  { unfold offset_by in E1. destruct (noise a).
    - now apply ret_Ok_inv in E1 as [_ ->].
    - inv_bind E1 as z s4 E4. apply getitem_Ok_inv in E4 as (-> & _).
      now apply ret_Ok_inv in E1 as [_ ->]. }
  apply emit_Ok_inv in E as ->. cbn [trace]. rewrite Ht. eauto.
Qed.

Lemma plot_one_noise kw cfg p n ii a lg env env' st st' shown k :
  bools (heap st) !! addr (showNoise p) = Some (shown ++ replicate k true) ->
  (length shown <= ii)%nat ->
  plot_one kw cfg p n ii a lg env st = (Ok env', st') ->
  exists ns cu ls,
    recorded st st' (Plot (NoiseCurve ii) (wave a) ns cu ls (Some 0.3%float) None).
Proof.
  intros Hflags Hii E. unfold plot_one in E.
  inv_bind E as flx s0 E0. appends_step E0 A0.
  flags_step E0 Hflags k0.
  inv_bind E as u1 s1 E1. appends_step E1 A1.
  flags_step E1 Hflags k1.
  inv_bind E as u2 s2 E2.
  destruct (draw_noise_shown _ _ _ _ _ _ _ _ Hflags Hii E2) as (ns & cu & ls & Ht).
  inv_bind E as u3 s3 E3. appends_step E3 A3.
  appends_step E A4.
  exists ns, cu, ls. apply (recorded_later _ _ _ _ A0), (recorded_later _ _ _ _ A1).
  eapply recorded_earlier; [|exact A4]. eapply recorded_earlier; [|exact A3].
  exists [], []. now rewrite Ht.
Qed.

Lemma plot_spectra_noise kw cfg p n shown spectra :
  forall ii lg env out st st' k,
    bools (heap st) !! addr (showNoise p) = Some (shown ++ replicate k true) ->
    plot_spectra kw cfg p n ii spectra lg env st = (Ok out, st') ->
    forall j a, spectra !! j = Some a -> (length shown <= ii + j)%nat ->
      exists ns cu ls,
        recorded st st' (Plot (NoiseCurve (ii + j)) (wave a) ns cu ls (Some 0.3%float) None).
Proof.
  induction spectra as [|s spectra IH]; intros ii lg env out st st' k Hflags E j a Hj Hlen;
    [discriminate Hj|].
  cbn [plot_spectra] in E. inv_bind E as env1 s1 E1.
  appends_step E1 A1.
  appends_step E A2.
  destruct j as [|j]; cbn in Hj.
  - inversion Hj; subst s. rewrite Nat.add_0_r in *.
    destruct (plot_one_noise _ _ _ _ _ _ _ _ _ _ _ _ _ Hflags Hlen E1) as (ns & cu & ls & H).
    exists ns, cu, ls. eapply recorded_earlier; eassumption.
  - flags_step E1 Hflags k1.
    destruct (IH (S ii) _ _ _ _ _ _ Hflags E j a Hj ltac:(lia)) as (ns & cu & ls & H).
    exists ns, cu, ls. replace (ii + S j)%nat with (S ii + j)%nat by lia.
    eapply recorded_later; eassumption.
Qed.

Lemma show_noise_default kw n st :
  or_else (kw_uncertainty kw) (or_else (kw_noise kw) (kw_showNoise kw)) = None ->
  show_noise kw n st
  = (Ok (Ref (length (bools (heap st)))),
     mkState (mkHeap (floats (heap st)) (strs (heap st)) (cols (heap st))
                     (bools (heap st) ++ [replicate n false]))
             (trace st)).
Proof.
  intros Hkw. unfold show_noise, flag_list. rewrite Hkw, bind_run.
  cbn [alloc fst snd cell_get cell_set bool_cell heap trace].
  rewrite bind_run, (pad_long _ _ _ _ (replicate n false)); [reflexivity | |].
  - cbn. apply list_lookup_middle. reflexivity.
  - now rewrite length_replicate.
Qed.

(** C10.  When the uncertainty option (uncertainty, else noise, else
    showNoise) is a list shorter than the plot group, the list is completed
    with [True]: in a plot group that is drawn without error, the uncertainty
    curve of every spectrum beyond the entries supplied is drawn.  (The list
    is the caller's, so for a later group it is the supplied entries followed
    by the [True]s of earlier groups; [k] counts them.)  With none of the
    three keys, the flags are a new list of [False], one per spectrum. *)
Theorem short_noise_list_is_padded_with_True
    (kw : kwargs) (cfg : config) (plts : nat) (spectra : list Spectrum)
    (c c' : counters) (st st' : state) (r : ref bool) (shown : list bool) (k : nat) :
  or_else (kw_uncertainty kw) (or_else (kw_noise kw) (kw_showNoise kw)) = Some (inr r) ->
  bools (heap st) !! addr r = Some (shown ++ replicate k true) ->
  plot_group kw cfg plts (group spectra) c st = (Ok c', st') ->
  (exists k', (k <= k')%nat /\ (length spectra <= length shown + k')%nat
              /\ bools (heap st') !! addr r = Some (shown ++ replicate k' true))
  /\ (forall ii a, spectra !! ii = Some a -> (length shown <= ii)%nat ->
        exists ns cu ls,
          recorded st st' (Plot (NoiseCurve ii) (wave a) ns cu ls (Some 0.3%float) None))
  /\ (forall kw0 n st0,
        or_else (kw_uncertainty kw0) (or_else (kw_noise kw0) (kw_showNoise kw0)) = None ->
        exists flags st1,
          show_noise kw0 n st0 = (Ok flags, st1)
          /\ bools (heap st1) !! addr flags = Some (replicate n false)).
Proof.
  intros Hkw Hflags E. unfold plot_group in E.
  inv_bind E as x s0 E0. destruct x as [l first].
  apply first_spectrum_Ok in E0 as (-> & Hl & _). injection Hl as <-.
  inv_bind E as y s1 E1. destruct y as [p spectra'].
  pose proof (plot_parameters_spectra _ _ _ _ _ _ _ E1) as Hsp.
  apply spectra_of_Ok, map_PSpectrum_inj in Hsp. subst spectra'.
  destruct (plot_parameters_flags _ _ _ _ _ _ _ _ _ _ Hkw Hflags E1)
    as (Hr & k1 & Hk1 & Hlen & Hflags1).
  rewrite length_map in Hlen. appends_step E1 A1.
  inv_bind E as c2 s2 E2. appends_step E2 A2. flags_step E2 Hflags1 k2.
  inv_bind E as z s3 E3. destruct z as [lg [wvmax flxmax]].
  rewrite <- Hr in Hflags1.
  pose proof (plot_spectra_noise _ _ _ _ _ _ _ _ _ _ _ _ _ Hflags1 E3) as Hnoise.
  flags_step E3 Hflags1 k3.
  inv_bind E as u4 s4 E4. appends_step E4 A4. flags_step E4 Hflags1 k4.
  inv_bind E as u5 s5 E5. appends_step E5 A5. flags_step E5 Hflags1 k5.
  apply ret_Ok_inv in E as [-> ->]. rewrite Hr in Hflags1.
  split; [exists k5; repeat split; [lia | lia | assumption]|]. split.
  - intros ii a Ha Hii. destruct (Hnoise ii a Ha Hii) as (ns & cu & ls & H).
    exists ns, cu, ls. apply (recorded_later _ _ _ _ A1), (recorded_later _ _ _ _ A2).
    eapply recorded_earlier; [|exact A5]. eapply recorded_earlier; [|exact A4]. exact H.
  - intros kw0 n st0 Hkw0. rewrite (show_noise_default _ _ _ Hkw0).
    eexists _, _. split; [reflexivity|]. cbn. apply list_lookup_middle. reflexivity.
Qed.

Lemma short_noise_list_witness :
  exists ns cu ls,
    recorded one_noise_flag_state
      (snd (plot_group one_noise_flag plain_config 0 (group [spec_J; spec_H]) no_pages
              one_noise_flag_state))
      (Plot (NoiseCurve 1) (wave spec_H) ns cu ls (Some 0.3%float) None).
Proof.
  destruct (short_noise_list_is_padded_with_True one_noise_flag plain_config 0
              [spec_J; spec_H] no_pages
              (mkCounters 0 2 [])
              one_noise_flag_state
              (snd (plot_group one_noise_flag plain_config 0 (group [spec_J; spec_H])
                      no_pages one_noise_flag_state))
              (Ref 0) [false] 0 eq_refl eq_refl ltac:(vm_compute; reflexivity))
    as (_ & H & _).
  exact (H 1%nat spec_H eq_refl ltac:(cbn; lia)).
Defined.

(** ** The caller's lists (lines 168-176, 270-274) *)

Lemma extend_run {A} `{Cell A} (r : ref A) ext st l :
  cell_get (heap st) !! addr r = Some l ->
  extend r ext st
  = (Ok tt, mkState (cell_set (<[addr r := l ++ ext]> (cell_get (heap st))) (heap st))
                    (trace st)).
Proof. intros E. unfold extend. now rewrite bind_run, (load_run _ _ _ E). Qed.

Lemma when_extend_strings (r : ref string) b ext st l :
  strs (heap st) !! addr r = Some l ->
  fst (when b (extend r ext) st) = Ok tt
  /\ strs (heap (snd (when b (extend r ext) st))) !! addr r
     = Some (l ++ if b then ext else []).
Proof.
  intros E. destruct b; cbn [when].
  - rewrite (@extend_run string string_cell r ext st l E). cbn -[insert lookup app]. split; [reflexivity|].
    apply list_lookup_insert_eq. now apply lookup_lt_Some in E.
  - cbn. now rewrite app_nil_r.
Qed.

Lemma requested_features_given kw r F st :
  kw_features kw = Some r -> strs (heap st) !! addr r = Some F ->
  fst (requested_features kw st) = Ok r
  /\ strs (heap (snd (requested_features kw st))) !! addr r
     = Some (F ++ preset_features kw).
Proof.
  intros Hkw HF. unfold requested_features, preset_features. rewrite Hkw.
  cbn [kwlist]. rewrite bind_run. cbn [ret].
  repeat match goal with
  | |- context [bind (when ?b (extend r ?ext)) ?k ?s] =>
      let H1 := fresh "Hok" in
      let H2 := fresh "Hl" in
      let res := fresh "res" in
      let s' := fresh "s" in
      rewrite (bind_run (when b (extend r ext)) k s);
      match goal with
      | Hs : strs (heap s) !! addr r = Some ?l |- _ =>
          destruct (when_extend_strings r b ext s l Hs) as [H1 H2];
          destruct (when b (extend r ext) s) as [res s']; cbn [fst snd] in H1, H2;
          subst res; clear Hs; cbv beta iota
      end
  end.
  cbn. split; [reflexivity|]. now rewrite <- !app_assoc in *.
Qed.

Lemma strings_run {A} a (m : M A) st l :
  preserves (strings_grow a) m -> strs (heap st) !! a = Some l ->
  exists ext, strs (heap (snd (m st))) !! a = Some (l ++ ext).
Proof. intros P. exact (P st l). Qed.

Lemma keep_run {A} a (m : M A) st r st' l :
  preserves (floats_keep_length a) m -> m st = (r, st') ->
  floats (heap st) !! a = Some l ->
  exists l', floats (heap st') !! a = Some l' /\ length l' = length l.
Proof. intros P E. exact (preserves_run _ _ _ _ _ P E l). Qed.

(** From the list before the step [E] to the list after it, of equal length. *)
Ltac keep_step E H :=
  match type of E with
  | ?m ?st = _ =>
      match type of H with
      | _ !! ?a = _ =>
          let l := fresh "l" in
          let Hl := fresh "Hlen" in
          let H' := fresh "Hlist" in
          destruct (keep_run a m st _ _ _ ltac:(framed) E H) as (l & H' & Hl);
          clear H; rename H' into H
      end
  end.

(** A step made of steps: what each of them respects, the whole respects. *)
Ltac frame_with F :=
  repeat first
    [ framed
    | apply (preserves_bind _ _ F); [ | intros ? ]
    | match goal with
      | |- preserves _ (match ?x with _ => _ end) => destruct x
      end ].

Lemma plotSpectrum_features args kw st r F :
  kw_features kw = Some r -> strs (heap st) !! addr r = Some F ->
  exists rest,
    strs (heap (snd (plotSpectrum args kw st))) !! addr r
    = Some (F ++ preset_features kw ++ rest).
Proof.
  intros Hkw HF. destruct (requested_features_given kw r F st Hkw HF) as [Hok Hl].
  unfold plotSpectrum. rewrite bind_run.
  destruct (requested_features kw st) as [res s1]. cbn [fst snd] in Hok, Hl. subst res.
  match goal with
  | |- context [snd (?m s1)] =>
      assert (P : preserves (strings_grow (addr r)) m)
        by frame_with (strings_grow_frame (addr r));
      destruct (strings_run (addr r) m s1 _ P Hl) as [rest Hrest]
  end.
  exists rest. now rewrite Hrest, <- app_assoc.
Qed.


(** *** The list given as [xrange] *)

Section KeepsFloats.
Context {A : Type} `{Cell A}.
Hypothesis other_store : forall (s : store A) h, floats (cell_set s h) = floats h.

Lemma keeps_alloc (l : list A) : keeps_floats (alloc l).
Proof. intros st. rewrite alloc_heap. apply other_store. Qed.

Lemma keeps_extend (r : ref A) ext : keeps_floats (extend r ext).
Proof.
  intros st. rewrite extend_heap. destruct (cell_get (heap st) !! addr r); [|reflexivity].
  apply other_store.
Qed.

Lemma keeps_setitem var (r : ref A) i v : keeps_floats (setitem var r i v).
Proof.
  intros st. rewrite setitem_heap. destruct (cell_get (heap st) !! addr r); [|reflexivity].
  destruct (i <? length l)%nat; [apply other_store | reflexivity].
Qed.
End KeepsFloats.

Lemma keeps_ret {A} (a : A) : keeps_floats (ret a).
Proof. intros st. reflexivity. Qed.

Lemma keeps_bind {A B} (m : M A) (k : A -> M B) :
  keeps_floats m -> (forall a, keeps_floats (k a)) -> keeps_floats (bind m k).
Proof.
  intros Hm Hk st. rewrite bind_run. specialize (Hm st).
  destruct (m st) as [[a|e] st1]; cbn [snd] in *; [|assumption].
  now rewrite Hk.
Qed.

Lemma keeps_load {A} `{Cell A} (r : ref A) : keeps_floats (load r).
Proof. intros st. now rewrite load_state. Qed.

Lemma keeps_pad {A} `{Cell A} (r : ref A) n d :
  (forall (s : store A) h, floats (cell_set s h) = floats h) -> keeps_floats (pad r n d).
Proof.
  intros other. unfold pad. apply keeps_bind; [apply keeps_load|]. intros l.
  destruct (length l <? n)%nat; cbn [when]; [now apply keeps_extend | apply keeps_ret].
Qed.

Lemma keeps_line_styles kw n : keeps_floats (line_styles kw n).
Proof.
  unfold line_styles. apply keeps_bind.
  - destruct (or_else _ _); [apply keeps_ret | now apply keeps_alloc].
  - intros r. apply keeps_bind; [now apply keeps_pad | intros _; apply keeps_ret].
Qed.

Lemma keeps_map_colors scheme r vmax todo : forall i, keeps_floats (map_colors scheme r vmax i todo).
Proof.
  induction todo as [|todo IH]; intros i; cbn [map_colors]; [apply keeps_ret|].
  apply keeps_bind; [now apply keeps_setitem | intros _; apply IH].
Qed.

Lemma keeps_line_colors kw n : keeps_floats (line_colors kw n).
Proof.
  unfold line_colors. apply keeps_bind.
  - destruct (or_else _ _); [apply keeps_ret | now apply keeps_alloc].
  - intros r. apply keeps_bind; [now apply keeps_pad|]. intros _. apply keeps_bind.
    + destruct (or_else _ _); [apply keeps_map_colors | apply keeps_ret].
    + intros _. apply keeps_bind; [now apply keeps_pad | intros _; apply keeps_ret].
Qed.

Lemma keeps_flag_list given default n : keeps_floats (flag_list given default n).
Proof.
  unfold flag_list. apply keeps_bind.
  - destruct given as [[b|r]|]; [now apply keeps_alloc | apply keeps_ret | now apply keeps_alloc].
  - intros r. apply keeps_bind; [now apply keeps_pad | intros _; apply keeps_ret].
Qed.

Lemma keeps_run {A} (m : M A) st r st' :
  keeps_floats m -> m st = (r, st') -> floats (heap st') = floats (heap st).
Proof. intros K E. specialize (K st). now rewrite E in K. Qed.

Lemma axis_bounds_extends kw spectra zpref bd st st' rx X :
  kw_xrange kw = Some rx ->
  floats (heap st) !! addr rx = Some X ->
  axis_bounds kw spectra zpref st = (Ok bd, st') ->
  bd = rx
  /\ exists top zp ztop yrng,
       Numpy.nanmax (List.map fluxMax spectra) = Some top
       /\ floats (heap st) !! addr zpref = Some zp
       /\ Numpy.nanmax zp = Some ztop
       /\ match kw_yrange kw with
          | Some ry => floats (heap st) !! addr ry = Some yrng
          | None => yrng = List.map (fun x => (x * (top + ztop))%float) [-0.02; 1.2]%float
          end
       /\ floats (heap st') !! addr rx = Some (X ++ yrng).
Proof.
  intros Hx HX E. unfold axis_bounds in E. rewrite Hx in E. cbn [kwlist] in E.
  inv_bind E as r s0 E0. apply ret_Ok_inv in E0 as [-> ->].
  inv_bind E as top s1 E1. apply lift_option_Ok_inv in E1 as [Htop ->].
  inv_bind E as zp s2 E2. apply load_Ok_inv in E2 as [-> Hzp].
  inv_bind E as ztop s3 E3. apply lift_option_Ok_inv in E3 as [Hztop ->].
  inv_bind E as yrng s4 E4.
  assert (s4 = st /\ match kw_yrange kw with
                     | Some ry => floats (heap st) !! addr ry = Some yrng
                     | None => yrng = List.map (fun x => (x * (top + ztop))%float)
                                               [-0.02; 1.2]%float
                     end) as [-> Hyrng].
  { destruct (kw_yrange kw) as [ry|].
    - apply load_Ok_inv in E4 as [-> H4]. now split.
    - apply ret_Ok_inv in E4 as [-> ->]. now split. }
  inv_bind E as u s5 E5. apply ret_Ok_inv in E as [-> ->].
  split; [reflexivity|]. exists top, zp, ztop, yrng. repeat split; try assumption.
  rewrite (@extend_run float float_cell _ _ _ X HX) in E5. inversion E5; subst.
  cbn -[insert lookup app]. apply list_lookup_insert_eq. now apply lookup_lt_Some in HX.
Qed.

Lemma plot_parameters_xrange kw sp first p spectra st st' rx X :
  kw_xrange kw = Some rx ->
  floats (heap st) !! addr rx = Some X ->
  (forall r, kw_yrange kw = Some r -> is_Some (floats (heap st) !! addr r)) ->
  (forall r, kw_zeropoint kw = Some r -> is_Some (floats (heap st) !! addr r)) ->
  plot_parameters kw sp first st = (Ok (p, spectra), st') ->
  bound p = rx
  /\ exists yrng, y_range kw spectra (heap st) = Some yrng
                  /\ floats (heap st') !! addr rx = Some (X ++ yrng).
Proof.
  intros Hx HX Hy Hz E. unfold plot_parameters in E.
  inv_bind E as zpref s0 E0. inv_bind E as sps s1 E1.
  apply lift_result_Ok_inv in E1 as [Hsp ->].
  assert (Hn : length sp = length sps).
  { apply spectra_of_Ok in Hsp. subst sp. apply length_map. }
  assert (Hs0 : forall a l, floats (heap st) !! a = Some l -> floats (heap s0) !! a = Some l).
  { intros a l Hl. destruct (kw_zeropoint kw); cbn [kwlist] in E0.
    - now apply ret_Ok_inv in E0 as [_ ->].
    - unfold alloc in E0. injection E0 as _ <-. cbn -[lookup app].
      now apply lookup_app_l_Some. }
  assert (Hzp : match kw_zeropoint kw with
                | Some rz => floats (heap s0) !! addr zpref = floats (heap st) !! addr rz
                | None => floats (heap s0) !! addr zpref = Some (replicate (length sps) 0%float)
                end).
  { destruct (kw_zeropoint kw) as [rz|] eqn:Hkz; cbn [kwlist] in E0.
    - now apply ret_Ok_inv in E0 as [-> ->].
    - unfold alloc in E0. injection E0 as <- <-. cbn -[lookup app].
      rewrite <- Hn. now apply list_lookup_middle. }
  inv_bind E as bd s2 E2.
  destruct (axis_bounds_extends _ _ _ _ _ _ _ _ Hx (Hs0 _ _ HX) E2)
    as (-> & top & zp & ztop & yrng & Htop & Hzp0 & Hztop & Hyrng & HX2).
  inv_bind E as ls s3 E3. apply (keeps_run _ _ _ _ (keeps_line_styles _ _)) in E3.
  inv_bind E as cc s4 E4. destruct cc as [cs cu].
  apply (keeps_run _ _ _ _ (keeps_line_colors _ _)) in E4.
  inv_bind E as sn s5 E5. apply (keeps_run _ _ _ _ (keeps_flag_list _ _ _)) in E5.
  inv_bind E as sz s6 E6. apply (keeps_run _ _ _ _ (keeps_flag_list _ _ _)) in E6.
  apply ret_Ok_inv in E as [E ->]. inversion E; subst. cbn [bound].
  split; [reflexivity|]. exists yrng. split.
  - unfold y_range. destruct (kw_yrange kw) as [ry|].
    + destruct (Hy ry eq_refl) as [Y HY]. rewrite (Hs0 _ _ HY) in Hyrng. congruence.
    + rewrite Htop. destruct (kw_zeropoint kw) as [rz|].
      * rewrite <- Hzp, Hzp0, Hztop. now subst yrng.
      * rewrite Hzp in Hzp0. injection Hzp0 as <-. rewrite Hztop. now subst yrng.
  - now rewrite E6, E5, E4, E3.
Qed.

Lemma floats_lengthen_same a st st' :
  floats (heap st') = floats (heap st) -> floats_lengthen a st st'.
Proof. intros E l Hl. exists l. now rewrite E. Qed.

Lemma floats_lengthen_frame a : frame (floats_lengthen a) any_kind.
Proof.
  split; try (intros; apply floats_lengthen_same; reflexivity).
  - intros s1 s2 s3 H1 H2 l Hl. destruct (H1 l Hl) as (l1 & E1 & L1).
    destruct (H2 _ E1) as (l2 & E2 & L2). exists l2. split; [assumption | lia].
  - intros l st x Hx. exists x. split; [|reflexivity]. rewrite alloc_heap.
    cbn -[insert lookup app]. now apply lookup_after_alloc.
  - intros r ext st. apply floats_lengthen_same. rewrite extend_heap.
    cbn -[insert lookup app]. now destruct (strs (heap st) !! addr r).
  - intros r ext st. apply floats_lengthen_same. rewrite extend_heap.
    cbn -[insert lookup app]. now destruct (cols (heap st) !! addr r).
  - intros r k st. apply floats_lengthen_same. rewrite extend_heap.
    cbn -[insert lookup app]. now destruct (bools (heap st) !! addr r).
  - intros var r i v st x Hx. rewrite setitem_heap. cbn -[insert lookup app].
    destruct (floats (heap st) !! addr r) as [l|] eqn:El; [|eauto].
    match goal with |- context [if ?b then _ else _] => destruct b end; [|eauto].
    cbn -[insert lookup app].
    rewrite (lookup_after_write _ _ _ _ _ Hx). destruct (Nat.eq_dec a (addr r)) as [->|].
    + rewrite Hx in El. inversion El; subst. eexists. split; [reflexivity|].
      now rewrite length_insert.
    + eauto.
  - intros var r i v st. apply floats_lengthen_same. rewrite setitem_heap.
    cbn -[insert lookup app]. now break_match.
Qed.

Lemma floats_lengthen_extend_float a (r : ref float) ext st :
  floats_lengthen a st (snd (extend r ext st)).
Proof.
  intros x Hx. rewrite extend_heap. cbn -[insert lookup app].
  destruct (floats (heap st) !! addr r) as [l|] eqn:El; [|eauto].
  cbn -[insert lookup app]. rewrite (lookup_after_write _ _ _ _ _ Hx).
  destruct (Nat.eq_dec a (addr r)) as [->|]; [|eauto].
  rewrite Hx in El. inversion El; subst. eexists. split; [reflexivity|].
  rewrite length_app. lia.
Qed.

#[global] Hint Resolve floats_lengthen_frame floats_lengthen_extend_float : frame.

Lemma background_subplots {A} (m : M A) st r st' :
  preserves (appends background) m -> m st = (r, st') ->
  subplots (trace st') = subplots (trace st).
Proof.
  intros P E. destruct (preserves_run _ _ _ _ _ P E) as (evs & -> & Hevs).
  rewrite subplots_app. enough (subplots evs = []) as -> by apply app_nil_r.
  induction Hevs as [|e evs He _ IH]; [reflexivity|]. cbn [subplots flat_map].
  fold (subplots evs). rewrite IH. destruct e; try reflexivity. discriminate He.
Qed.

Lemma lengthen_run {A} a (m : M A) st r st' l n :
  preserves (floats_lengthen a) m -> m st = (r, st') ->
  floats (heap st) !! a = Some l -> (n <= length l)%nat ->
  exists l', floats (heap st') !! a = Some l' /\ (n <= length l')%nat.
Proof.
  intros P E Hl Hn. destruct (preserves_run _ _ _ _ _ P E l Hl) as (l' & Hl' & Hlen).
  exists l'. split; [assumption | lia].
Qed.

Lemma yrange_has_run {A} (m : M A) st r st' kw k :
  (forall a, preserves (floats_lengthen a) m) -> m st = (r, st') ->
  yrange_has kw k (heap st) -> yrange_has kw k (heap st').
Proof.
  intros P E. unfold yrange_has. destruct (kw_yrange kw) as [ry|]; [|exact id].
  intros (Y & HY & Hk).
  destruct (preserves_run _ _ _ _ _ (P (addr ry)) E Y HY) as (Y' & HY' & Hlen).
  exists Y'. split; [assumption | lia].
Qed.

(** What [yrange] has before the step [E1], it has after it. *)
Ltac yr_step E1 Hy :=
  match type of E1 with
  | ?m ?s = _ =>
      apply (yrange_has_run m s _ _ _ _
               ltac:(let a := fresh in intros a; frame_with (floats_lengthen_frame a)) E1)
        in Hy
  end.

Lemma plot_parameters_grows kw sp first p spectra st st' rx X k :
  kw_xrange kw = Some rx -> yrange_has kw k (heap st) ->
  floats (heap st) !! addr rx = Some X ->
  plot_parameters kw sp first st = (Ok (p, spectra), st') ->
  exists X', floats (heap st') !! addr rx = Some X' /\ (length X + k <= length X')%nat.
Proof.
  intros Hx Hy HX E. unfold plot_parameters in E.
  inv_bind E as zpref s0 E0. pose proof HX as HX0. keep_step E0 HX. yr_step E0 Hy.
  inv_bind E as sps s1 E1. apply lift_result_Ok_inv in E1 as [_ ->].
  inv_bind E as bd s2 E2.
  destruct (axis_bounds_extends _ _ _ _ _ _ _ _ Hx HX E2)
    as (_ & top & zp & ztop & yrng & _ & _ & _ & Hyrng & HX2).
  assert (Hk : (k <= length yrng)%nat).
  { unfold yrange_has in Hy. destruct (kw_yrange kw) as [ry|].
    - destruct Hy as (Y & HY & Hk). rewrite HY in Hyrng. now injection Hyrng as <-.
    - now subst yrng. }
  inv_bind E as ls s3 E3. keep_step E3 HX2.
  inv_bind E as cc s4 E4. destruct cc as [cs cu]. keep_step E4 HX2.
  inv_bind E as sn s5 E5. keep_step E5 HX2.
  inv_bind E as sz s6 E6. keep_step E6 HX2.
  apply ret_Ok_inv in E as [_ ->]. eexists. split; [eassumption|].
  rewrite length_app in *. lia.
Qed.

Lemma first_spectrum_state sp st : snd (first_spectrum sp st) = st.
Proof.
  destruct sp as [s|l|r]; try reflexivity. destruct l as [|x l]; [reflexivity|].
  destruct x; reflexivity.
Qed.

Lemma plot_group_grows kw cfg plts sp c res st st' rx X n k :
  kw_xrange kw = Some rx -> yrange_has kw k (heap st) ->
  floats (heap st) !! addr rx = Some X -> (n <= length X)%nat ->
  plot_group kw cfg plts sp c st = (res, st') ->
  exists X', floats (heap st') !! addr rx = Some X'
             /\ (subplots (trace st') = subplots (trace st) /\ (n <= length X')%nat
                 \/ (n + k <= length X')%nat).
Proof.
  intros Hx Hy HX Hn E. unfold plot_group in E. rewrite bind_run in E.
  destruct (first_spectrum sp st) as [[[l first]|e] s0] eqn:E0.
  - assert (s0 = st) as ->.
    { pose proof (first_spectrum_state sp st) as Hs. now rewrite E0 in Hs. }
    rewrite bind_run in E.
    destruct (plot_parameters kw l first st) as [[[p spectra]|e] s1] eqn:E1.
    + destruct (plot_parameters_grows _ _ _ _ _ _ _ _ _ _ Hx Hy HX E1)
        as (X1 & HX1 & Hlen1).
      match type of E with
      | ?m s1 = _ =>
          destruct (lengthen_run (addr rx) m s1 _ _ X1 (n + k)
                      ltac:(frame_with (floats_lengthen_frame (addr rx))) E HX1 ltac:(lia))
            as (X' & HX' & Hlen')
      end.
      exists X'. split; [assumption | now right].
    + injection E as <- <-.
      destruct (lengthen_run (addr rx) _ st _ _ X n
                  ltac:(apply (plot_parameters_frame _ _ (floats_lengthen_frame (addr rx)));
                        apply floats_lengthen_extend_float) E1 HX Hn)
        as (X' & HX' & Hlen').
      exists X'. split; [assumption|]. left. split; [|assumption].
      refine (background_subplots _ _ _ _ _ E1).
      apply (plot_parameters_frame _ _ (appends_frame background)).
      apply appends_extend_float.
  - injection E as <- <-.
    assert (s0 = st) as ->.
    { pose proof (first_spectrum_state sp st) as Hs. now rewrite E0 in Hs. }
    exists X. split; [assumption|]. left. split; [reflexivity | assumption].
Qed.

Lemma plot_all_grows kw cfg rx n k splist : forall plts c res st st' X,
  kw_xrange kw = Some rx -> yrange_has kw k (heap st) ->
  floats (heap st) !! addr rx = Some X -> (n <= length X)%nat ->
  plot_all kw cfg plts splist c st = (res, st') ->
  exists X', floats (heap st') !! addr rx = Some X'
             /\ (subplots (trace st') = subplots (trace st) /\ (n <= length X')%nat
                 \/ (n + k <= length X')%nat).
Proof.
  induction splist as [|sp splist IH]; intros plts c res st st' X Hx Hy HX Hn E;
    cbn [plot_all] in E.
  - injection E as _ <-. exists X. split; [assumption|]. left. now split.
  - rewrite bind_run in E.
    destruct (plot_group kw cfg plts sp c st) as [[c1|e] s1] eqn:E1.
    + destruct (plot_group_grows _ _ _ _ _ _ _ _ _ _ _ _ Hx Hy HX Hn E1)
        as (X1 & HX1 & [[Hq1 Hn1]|Hn1]).
      * yr_step E1 Hy.
        destruct (IH _ _ _ _ _ _ Hx Hy HX1 Hn1 E) as (X' & HX' & [[Hq' Hn']|Hn']);
          exists X'; (split; [assumption|]); [left | right]; [|assumption].
        split; [congruence | assumption].
      * destruct (lengthen_run (addr rx) _ s1 _ _ X1 (n + k)
                    ltac:(apply (plot_all_frame _ _ (floats_lengthen_frame (addr rx)));
                          [apply floats_lengthen_extend_float | reflexivity]) E HX1 Hn1)
          as (X' & HX' & Hn').
        exists X'. split; [assumption | now right].
    + injection E as _ <-.
      exact (plot_group_grows _ _ _ _ _ _ _ _ _ _ _ _ Hx Hy HX Hn E1).
Qed.

(** The step [E1] opens no plot and shortens no list: [Hq] and [HX] hold
    after it. *)
Ltac quiet_step E1 Hq HX Hn :=
  match type of E1 with
  | ?m ?s = _ =>
      match type of HX with
      | _ !! ?a = _ =>
          let Hq' := fresh in
          let X' := fresh "X" in
          let HX' := fresh in
          let Hn' := fresh in
          pose proof (eq_trans (background_subplots m s _ _
                                  ltac:(frame_with (appends_frame background)) E1) Hq) as Hq';
          destruct (lengthen_run a m s _ _ _ _
                      ltac:(frame_with (floats_lengthen_frame a)) E1 HX Hn)
            as (X' & HX' & Hn');
          clear Hq HX Hn; rename Hq' into Hq; rename HX' into HX; rename Hn' into Hn
      end
  end.

(** The next step of the computation [E], whatever its outcome. *)
Ltac any_step E a s E1 :=
  rewrite bind_run in E;
  match type of E with
  | match ?m ?st with _ => _ end = _ =>
      destruct (m st) as [[a|?] s] eqn:E1
  end.

Lemma plotSpectrum_xrange args kw st rx X k :
  kw_xrange kw = Some rx -> yrange_has kw k (heap st) ->
  floats (heap st) !! addr rx = Some X ->
  subplots (trace st) = [] ->
  subplots (trace (snd (plotSpectrum args kw st))) <> [] ->
  exists X', floats (heap (snd (plotSpectrum args kw st))) !! addr rx = Some X'
             /\ (length X + k <= length X')%nat.
Proof.
  intros Hx Hy HX Hq Hopen.
  destruct (plotSpectrum args kw st) as [res st'] eqn:E. cbn [snd] in *.
  pose proof (Nat.le_refl (length X)) as Hn. revert Hn. generalize (length X) at 1 3.
  intros n Hn. unfold plotSpectrum in E.
  any_step E ftrs s0 E0; yr_step E0 Hy; quiet_step E0 Hq HX Hn;
    [|injection E as _ <-; now rewrite Hq in Hopen].
  any_step E requested s1 E1; yr_step E1 Hy; quiet_step E1 Hq HX Hn;
    [|injection E as _ <-; now rewrite Hq in Hopen].
  destruct args as [|arg args].
  { yr_step E Hy; quiet_step E Hq HX Hn. now rewrite Hq in Hopen. }
  any_step E x s2 E2; yr_step E2 Hy; quiet_step E2 Hq HX Hn;
    [|injection E as _ <-; now rewrite Hq in Hopen].
  destruct x as [[mp splist] tot].
  any_step E lg s3 E3; yr_step E3 Hy; quiet_step E3 Hq HX Hn;
    [|injection E as _ <-; now rewrite Hq in Hopen].
  any_step E cfg s4 E4; yr_step E4 Hy; quiet_step E4 Hq HX Hn;
    [|injection E as _ <-; now rewrite Hq in Hopen].
  any_step E u5 s5 E5; yr_step E5 Hy; quiet_step E5 Hq HX Hn;
    [|injection E as _ <-; now rewrite Hq in Hopen].
  any_step E u6 s6 E6; yr_step E6 Hy; quiet_step E6 Hq HX Hn;
    [|injection E as _ <-; now rewrite Hq in Hopen].
  any_step E c s7 E7;
    destruct (plot_all_grows _ _ _ _ _ _ _ _ _ _ _ _ Hx Hy HX Hn E7)
      as (X7 & HX7 & [[Hq7 Hn7]|Hn7]).
  - rewrite Hq in Hq7. quiet_step E Hq7 HX7 Hn7. now rewrite Hq7 in Hopen.
  - destruct (lengthen_run (addr rx) (write_document cfg c) s7 _ _ X7 (n + k)
                ltac:(frame_with (floats_lengthen_frame (addr rx))) E HX7 Hn7)
      as (X' & HX' & Hn').
    exists X'. split; [assumption | lia].
  - injection E as _ <-. rewrite Hq in Hq7. now rewrite Hq7 in Hopen.
  - injection E as _ <-. exists X7. split; [assumption | lia].
Qed.

(** C9.  The call changes the caller's lists in place.  A list passed as
    [features] is extended with the codes of the class flags that are set
    (mdwarf, ldwarf, tdwarf, young, binary).  A list passed as [xrange] is
    itself the list of the bounds (line 271), and line 274 appends to it, for
    every plot group that gets that far, the y range of the group: the
    entries of the caller's [yrange] or else -0.02 and 1.2 times the sum of
    the greatest flux maximum and the greatest zero point of the group; so
    the list grows again with every plot group.  However the call ends, once
    it has opened a plot the list is longer than supplied by at least the
    length of the [yrange] given, and by at least two entries when none is
    given. *)
Theorem caller_lists_are_extended_in_place (args : list pyobj) (kw : kwargs) (h : Heap) :
  (forall rf F,
      kw_features kw = Some rf -> strs h !! addr rf = Some F ->
      exists rest,
        strs (heap (snd (call args kw h))) !! addr rf
        = Some (F ++ preset_features kw ++ rest))
  /\ (forall rx X sp first p spectra st st',
        kw_xrange kw = Some rx ->
        floats (heap st) !! addr rx = Some X ->
        (forall r, kw_yrange kw = Some r -> is_Some (floats (heap st) !! addr r)) ->
        (forall r, kw_zeropoint kw = Some r -> is_Some (floats (heap st) !! addr r)) ->
        plot_parameters kw sp first st = (Ok (p, spectra), st') ->
        bound p = rx
        /\ exists yrng, y_range kw spectra (heap st) = Some yrng
                        /\ floats (heap st') !! addr rx = Some (X ++ yrng))
  /\ (forall rx X k,
        kw_xrange kw = Some rx -> floats h !! addr rx = Some X ->
        yrange_has kw k h ->
        subplots (trace (snd (call args kw h))) <> [] ->
        exists X', floats (heap (snd (call args kw h))) !! addr rx = Some X'
                   /\ (length X + k <= length X')%nat).
Proof.
  split; [|split].
  - intros rf F Hkw HF. now apply plotSpectrum_features.
  - intros rx X sp first p spectra st st' Hx HX Hy Hz E.
    exact (plot_parameters_xrange kw sp first p spectra st st' rx X Hx HX Hy Hz E).
  - intros rx X k Hx HX Hy Hopen. unfold call in *.
    exact (plotSpectrum_xrange args kw (mkState h []) rx X k Hx Hy HX eq_refl Hopen).
Qed.

Lemma caller_lists_witness :
  strs (heap (snd (call [PList [group [spec_J]; group [spec_H]]] own_range_and_features
                        own_lists))) !! 0%nat
  = Some ["co"; "k"; "ch4"; "h2o"; "h2"]
  /\ floats (heap (snd (plot_parameters own_range_and_features [PSpectrum spec_J] spec_J
                                        (mkState own_lists [])))) !! 0%nat
     = Some [0.9; 2.4; -0.04; 2.4]%float
  /\ exists X',
       floats (heap (snd (call [PList [group [spec_J]; group [spec_H]]]
                               own_range_and_features own_lists))) !! 0%nat = Some X'
       /\ (2 + 2 <= length X')%nat.
Proof.
  destruct (caller_lists_are_extended_in_place [PList [group [spec_J]; group [spec_H]]]
              own_range_and_features own_lists) as (Hf & Hp & Hx).
  split; [|split].
  - destruct (Hf (Ref 0) ["co"] eq_refl eq_refl) as [rest Hrest].
    cbn [addr] in Hrest. rewrite Hrest. f_equal.
    vm_compute in Hrest. injection Hrest as <-. reflexivity.
  - pose proof (fun p spectra st' =>
                  Hp (Ref 0) [0.9; 2.4]%float [PSpectrum spec_J] spec_J p spectra
                     (mkState own_lists []) st' eq_refl eq_refl
                     ltac:(intros r Hr; discriminate Hr)
                     ltac:(intros r Hr; discriminate Hr)) as Hp'.
    edestruct Hp' as (_ & yrng & Hy & HX); [vm_compute; reflexivity|].
    vm_compute in Hy. injection Hy as <-. exact HX.
  - apply (Hx (Ref 0) [0.9; 2.4]%float 2%nat eq_refl eq_refl).
    + cbn. lia.
    + intros Hnone. vm_compute in Hnone. discriminate Hnone.
Defined.

(** ** Line styles, colours and legend (lines 226-231, 275-285) *)


Lemma prep_legend_given kw n st r l :
  or_else (kw_labels kw) (or_else (kw_label kw) (or_else (kw_legends kw) (kw_legend kw)))
  = Some r ->
  strs (heap st) !! addr r = Some l ->
  fst (prep_legend kw n st) = Ok r
  /\ strs (heap (snd (prep_legend kw n st))) !! addr r
     = Some (l ++ replicate (n - length l) "").
Proof.
  intros Hkw Hl. unfold prep_legend. rewrite Hkw, bind_run. cbn [ret].
  destruct (pad_run string_get_set r n "" st l Hl) as (Hok & Hpad & _).
  rewrite bind_run. destruct (pad r n "" st) as [res s1]. cbn [fst snd] in *.
  subst res. now split.
Qed.


(** ** No index error on a padded list *)

Lemma colors_lengthen_same a st st' :
  cols (heap st') = cols (heap st) -> colors_lengthen a st st'.
Proof. intros E l Hl. exists l. now rewrite E. Qed.

Lemma colors_lengthen_frame a : frame (colors_lengthen a) any_kind.
Proof.
  split; try (intros; apply colors_lengthen_same; reflexivity).
  - intros s1 s2 s3 H1 H2 l Hl. destruct (H1 l Hl) as (l1 & E1 & L1).
    destruct (H2 _ E1) as (l2 & E2 & L2). exists l2. split; [assumption | lia].
  - intros l st x Hx. exists x. split; [|reflexivity]. rewrite alloc_heap.
    cbn -[insert lookup app]. now apply lookup_after_alloc.
  - intros r ext st. apply colors_lengthen_same. rewrite extend_heap.
    cbn -[insert lookup app]. now break_match.
  - intros r ext st x Hx. rewrite extend_heap. cbn -[insert lookup app].
    destruct (cols (heap st) !! addr r) as [l|] eqn:El; [|eauto].
    cbn -[insert lookup app]. rewrite (lookup_after_write _ _ _ _ _ Hx).
    destruct (Nat.eq_dec a (addr r)) as [->|]; [|eauto].
    rewrite Hx in El. inversion El; subst. eexists. split; [reflexivity|].
    rewrite length_app. lia.
  - intros r k st. apply colors_lengthen_same. rewrite extend_heap.
    cbn -[insert lookup app]. now break_match.
  - intros var r i v st. apply colors_lengthen_same. rewrite setitem_heap.
    cbn -[insert lookup app]. now break_match.
  - intros var r i v st x Hx. rewrite setitem_heap. cbn -[insert lookup app].
    destruct (cols (heap st) !! addr r) as [l|] eqn:El; [|eauto].
    match goal with |- context [if ?b then _ else _] => destruct b end; [|eauto].
    cbn -[insert lookup app]. rewrite (lookup_after_write _ _ _ _ _ Hx).
    destruct (Nat.eq_dec a (addr r)) as [->|]; [|eauto].
    rewrite Hx in El. inversion El; subst. eexists. split; [reflexivity|].
    rewrite length_insert. lia.
Qed.

Lemma colors_lengthen_extend_float a (r : ref float) ext st :
  colors_lengthen a st (snd (extend r ext st)).
Proof.
  apply colors_lengthen_same. rewrite extend_heap. cbn -[insert lookup app].
  now break_match.
Qed.

#[global] Hint Resolve colors_lengthen_frame colors_lengthen_extend_float : frame.
#[global] Hint Resolve preserves_alloc_float preserves_alloc_string preserves_alloc_color
  preserves_alloc_bool preserves_extend_string preserves_extend_color preserves_extend_true
  preserves_setitem_float preserves_setitem_color preserves_pad_string preserves_pad_color
  preserves_pad_true map_colors_frame flag_list_frame : frame.






Lemma pad_covers {A} `{Cell A} (r : ref A) n d u st st' :
  (forall (s : store A) h, cell_get (cell_set s h) = s) ->
  pad r n d st = (Ok u, st') -> covers r n st'.
Proof.
  intros law E.
  assert (exists l, cell_get (heap st) !! addr r = Some l) as [l Hl].
  { unfold pad in E. inv_bind E as l s0 E0. apply load_Ok_inv in E0 as [_ E0]. eauto. }
  destruct (pad_run law r n d st l Hl) as (_ & Hpad & _). rewrite E in Hpad.
  eexists. split; [exact Hpad|]. rewrite length_app, length_replicate. lia.
Qed.

(** *** The steps that can only fail otherwise *)

Lemma bind_Err_inv {A B} (m : M A) (k : A -> M B) st e st' :
  bind m k st = (Err e, st') ->
  m st = (Err e, st') \/ exists a s, m st = (Ok a, s) /\ k a s = (Err e, st').
Proof.
  rewrite bind_run. destruct (m st) as [[a|e0] s]; intros E; [eauto | left; inversion E; reflexivity].
Qed.

Lemma harmless_ret {A} (a : A) : harmless (ret a).
Proof. intros st e st' E. discriminate E. Qed.

Lemma harmless_raise {A} e : other_error e = true -> harmless (@raise A e).
Proof. intros He st e' st' E. inversion E; subst. exact He. Qed.

Lemma harmless_bind {A B} (m : M A) (k : A -> M B) :
  harmless m -> (forall a, harmless (k a)) -> harmless (bind m k).
Proof.
  intros Hm Hk st e st' E. apply bind_Err_inv in E as [E | (a & s & _ & E)].
  - exact (Hm _ _ _ E).
  - exact (Hk _ _ _ _ E).
Qed.

Lemma harmless_emit e : harmless (emit e).
Proof. intros st e' st' E. discriminate E. Qed.

Lemma harmless_when b (m : M unit) : harmless m -> harmless (when b m).
Proof. destruct b; [trivial | intros _; apply harmless_ret]. Qed.

Lemma harmless_lift_option {A} e (o : option A) :
  other_error e = true -> harmless (lift_option e o).
Proof. intros He. destruct o; [apply harmless_ret | now apply harmless_raise]. Qed.

Lemma harmless_alloc {A} `{Cell A} (l : list A) : harmless (alloc l).
Proof. intros st e st' E. discriminate E. Qed.

Lemma harmless_load {A} `{Cell A} (r : ref A) : harmless (load r).
Proof.
  intros st e st' E. unfold load in E.
  destruct (cell_get (heap st) !! addr r); inversion E; reflexivity.
Qed.

Lemma harmless_extend {A} `{Cell A} (r : ref A) ext : harmless (extend r ext).
Proof.
  unfold extend. apply harmless_bind; [apply harmless_load|].
  intros l st e st' E. discriminate E.
Qed.

Lemma harmless_pad {A} `{Cell A} (r : ref A) n d : harmless (pad r n d).
Proof.
  unfold pad. apply harmless_bind; [apply harmless_load|]. intros l.
  apply harmless_when, harmless_extend.
Qed.

Lemma harmless_kwlist {A} `{Cell A} (given : option (ref A)) l : harmless (kwlist given l).
Proof. destruct given; [apply harmless_ret | apply harmless_alloc]. Qed.

Lemma harmless_getitem {A} `{Cell A} var (r : ref A) i :
  other_error (IndexError var) = true -> harmless (getitem var r i).
Proof.
  intros Hv st e st' E. rewrite getitem_cases in E.
  destruct (cell_get (heap st) !! addr r) as [l|]; [|inversion E; reflexivity].
  destruct (l !! i); inversion E; subst. exact Hv.
Qed.

Lemma harmless_setitem {A} `{Cell A} var (r : ref A) i v :
  other_error (IndexError var) = true -> harmless (setitem var r i v).
Proof.
  intros Hv. unfold setitem. apply harmless_bind; [apply harmless_load|]. intros l.
  destruct (i <? length l)%nat; [|now apply harmless_raise].
  intros st e st' E. discriminate E.
Qed.

Lemma harmless_flatten splist : harmless (lift_result (flatten splist)).
Proof.
  intros st e st' E.
  assert (H : forall l e, flatten l = Err e -> e = TypeError).
  { clear. induction l as [|[s|l'|r] l IH]; intros e E; cbn in E; try discriminate;
      try (now inversion E).
    destruct (flatten l); [discriminate|]. inversion E; subst. now apply IH. }
  destruct (flatten splist) eqn:Ef; inversion E; subst.
  now rewrite (H _ _ Ef).
Qed.

Lemma harmless_plot_groups mp splist : harmless (lift_result (plot_groups mp splist)).
Proof.
  intros st e st' E. unfold plot_groups in E.
  destruct splist as [|first rest]; [inversion E; reflexivity|].
  repeat match type of E with
         | context [if ?b then _ else _] => destruct b
         end; try discriminate E.
  destruct (flatten (first :: rest)) as [items|e0] eqn:Ef; [discriminate E|].
  apply (harmless_flatten (first :: rest) st e st'). rewrite Ef. exact E.
Qed.

Lemma harmless_spectra_of sp : harmless (lift_result (spectra_of sp)).
Proof.
  intros st e st' E.
  assert (H : forall l e, spectra_of l = Err e -> e = AttributeError).
  { clear. induction l as [|[s|l'|r] l IH]; intros e E; cbn in E; try discriminate;
      try (now inversion E).
    destruct (spectra_of l); [discriminate|]. inversion E; subst. now apply IH. }
  destruct (spectra_of sp) eqn:Ef; inversion E; subst.
  now rewrite (H _ _ Ef).
Qed.

Create HintDb harm.
#[global] Hint Resolve harmless_ret harmless_raise harmless_emit harmless_when
  harmless_lift_option harmless_alloc harmless_load harmless_extend harmless_pad
  harmless_kwlist harmless_getitem harmless_setitem harmless_flatten harmless_plot_groups
  harmless_spectra_of : harm.
#[global] Hint Extern 1 (other_error _ = true) => reflexivity : harm.

Ltac harm_step :=
  match goal with
  | |- harmless (bind _ _) => apply harmless_bind; [ | intros ? ]
  | |- harmless (when _ _) => apply harmless_when
  | |- harmless (match ?x with _ => _ end) => destruct x
  | |- harmless _ => solve [ eauto with harm ]
  end.
Ltac harm := repeat harm_step.

Lemma requested_features_harmless kw : harmless (requested_features kw).
Proof. unfold requested_features. harm. Qed.

Lemma gather_args_harmless args : forall splist, harmless (gather_args args splist).
Proof. induction args as [|a args IH]; intros splist; cbn [gather_args]; harm. Qed.
#[global] Hint Resolve requested_features_harmless gather_args_harmless : harm.

Lemma normalize_input_harmless kw args : harmless (normalize_input kw args).
Proof. unfold normalize_input, input_list. harm. Qed.

Lemma prep_legend_harmless kw n : harmless (prep_legend kw n).
Proof. unfold prep_legend. harm. Qed.

Lemma make_config_harmless kw ftrs lg splist : harmless (make_config kw ftrs lg splist).
Proof. unfold make_config. harm. Qed.

Lemma first_spectrum_harmless sp : harmless (first_spectrum sp).
Proof. unfold first_spectrum. harm. Qed.

Lemma axis_bounds_harmless kw spectra zp : harmless (axis_bounds kw spectra zp).
Proof. unfold axis_bounds, empty_reduction. harm. Qed.

Lemma line_styles_harmless kw n : harmless (line_styles kw n).
Proof. unfold line_styles. harm. Qed.

Lemma flag_list_harmless given default n : harmless (flag_list given default n).
Proof. unfold flag_list. harm. Qed.

Lemma generate_plot_harmless kw cfg plts c : harmless (generate_plot kw cfg plts c).
Proof. unfold generate_plot. harm. Qed.

Lemma offset_by_harmless zp ii values : harmless (offset_by zp ii values).
Proof. unfold offset_by. harm. Qed.
#[global] Hint Resolve normalize_input_harmless prep_legend_harmless make_config_harmless
  first_spectrum_harmless axis_bounds_harmless line_styles_harmless flag_list_harmless
  generate_plot_harmless offset_by_harmless : harm.

Lemma interpolant_harmless xs ys : harmless (interpolant xs ys).
Proof. unfold interpolant. harm. Qed.
#[global] Hint Resolve interpolant_harmless : harm.

Lemma stacked_flux_harmless kw cfg p n ii a : harmless (stacked_flux kw cfg p n ii a).
Proof. unfold stacked_flux. harm. Qed.

Lemma max_flux_harmless p ii a flx env : harmless (max_flux p ii a flx env).
Proof. unfold max_flux. harm. Qed.

Lemma label_interval_harmless cfg p yoff fs ftr ft k waveRng wvmax flxmax :
  harmless (label_interval cfg p yoff fs ftr ft k waveRng wvmax flxmax).
Proof. unfold label_interval, empty_reduction. harm. Qed.
#[global] Hint Resolve stacked_flux_harmless max_flux_harmless label_interval_harmless : harm.

Lemma label_intervals_harmless cfg p yoff fs ftr ft ranges wvmax :
  forall k flxmax, harmless (label_intervals cfg p yoff fs ftr ft k ranges wvmax flxmax).
Proof.
  induction ranges as [|w ranges IH]; intros k flxmax; cbn [label_intervals]; harm.
Qed.
#[global] Hint Resolve label_intervals_harmless : harm.

Lemma label_features_harmless cfg p yoff fs ftrs wvmax :
  forall flxmax, harmless (label_features cfg p yoff fs ftrs wvmax flxmax).
Proof.
  induction ftrs as [|ftr ftrs IH]; intros flxmax; cbn [label_features]; [harm|].
  apply harmless_bind; [|intros f; apply IH].
  destruct (lookup_feature (lower ftr) feature_labels); harm.
Qed.

Lemma overplot_telluric_harmless p yoff fs ranges :
  harmless (overplot_telluric p yoff fs ranges).
Proof. induction ranges as [|[w0 w1] ranges IH]; cbn [overplot_telluric]; harm. Qed.
#[global] Hint Resolve label_features_harmless overplot_telluric_harmless : harm.

Lemma finish_plot_harmless kw cfg p plts wvmax flxmax :
  harmless (finish_plot kw cfg p plts wvmax flxmax).
Proof. unfold finish_plot, empty_reduction. harm. Qed.

Lemma save_pages_harmless cfg c todo : forall pg, harmless (save_pages cfg c pg todo).
Proof. induction todo as [|todo IH]; intros pg; cbn [save_pages]; harm. Qed.
#[global] Hint Resolve finish_plot_harmless save_pages_harmless : harm.

Lemma write_document_harmless cfg c : harmless (write_document cfg c).
Proof. unfold write_document. harm. Qed.
#[global] Hint Resolve write_document_harmless : harm.

(** *** The steps that index a padded list *)



Tactic Notation "err_bind" hyp(E) "as" ident(a) ident(s) ident(E1) :=
  apply bind_Err_inv in E as [E | (a & s & E1 & E)].


















Lemma setitem_color_Ok var (r : ref color) i v u st st' :
  setitem var r i v st = (Ok u, st') ->
  exists l, cols (heap st) !! addr r = Some l /\ (i < length l)%nat
            /\ cols (heap st') !! addr r = Some (<[i := v]> l).
Proof.
  unfold setitem. intros E. inv_bind E as l s0 E0. apply load_Ok_inv in E0 as [-> Hl].
  change (cell_get (heap st)) with (cols (heap st)) in Hl.
  destruct (Nat.ltb_spec i (length l)) as [Hi|]; [|discriminate E].
  unfold write in E. inversion E; subst st'. exists l. repeat split; try assumption.
  cbn -[insert lookup]. apply list_lookup_insert_eq. now apply lookup_lt_Some in Hl.
Qed.

Lemma map_colors_Ok scheme r vmax todo : forall i u st st' l,
  cols (heap st) !! addr r = Some l ->
  map_colors scheme r vmax i todo st = (Ok u, st') ->
  exists l', cols (heap st') !! addr r = Some l' /\ length l' = length l
             /\ (forall j, (i <= j < i + todo)%nat -> l' !! j = Some (Mapped scheme j vmax))
             /\ (forall j, (j < i)%nat -> l' !! j = l !! j).
Proof.
  induction todo as [|todo IH]; intros i u st st' l Hl E; cbn [map_colors] in E.
  - apply ret_Ok_inv in E as [_ ->]. exists l. repeat split; try assumption.
    intros j Hj. lia.
  - inv_bind E as u1 s1 E1.
    apply setitem_color_Ok in E1 as (l0 & Hl0 & Hi & Hl1).
    rewrite Hl in Hl0. injection Hl0 as <-.
    destruct (IH (S i) _ _ _ _ Hl1 E) as (l' & Hl' & Hlen & Hnew & Hold).
    exists l'. split; [assumption|]. split; [now rewrite Hlen, length_insert|]. split.
    + intros j Hj. destruct (decide (j = i)) as [->|Hne].
      * rewrite Hold by lia. now apply list_lookup_insert_eq.
      * apply Hnew. lia.
    + intros j Hj. rewrite Hold by lia. apply list_lookup_insert_ne. lia.
Qed.





(** * Further properties of the code *)

(** ** Cleaning the repeats (lines 177-182) *)

Lemma clean_step_elem (l acc : list string) x :
  x ∈ fold_left (fun fea i => if bool_decide (i ∈ fea) then fea else fea ++ [i]) l acc
  <-> x ∈ acc \/ x ∈ l.
Proof.
  revert acc. induction l as [|i l IH]; intros acc; cbn [fold_left].
  - rewrite elem_of_nil. tauto.
  - rewrite IH, elem_of_cons. case_bool_decide as Hi.
    + split; [tauto|]. intros [H|[->|H]]; auto.
    + rewrite elem_of_app, list_elem_of_singleton. tauto.
Qed.

Lemma clean_step_NoDup (l acc : list string) :
  NoDup acc ->
  NoDup (fold_left (fun fea i => if bool_decide (i ∈ fea) then fea else fea ++ [i]) l acc).
Proof.
  revert acc. induction l as [|i l IH]; intros acc Hacc; cbn [fold_left]; [assumption|].
  apply IH. case_bool_decide as Hi; [assumption|].
  apply NoDup_app. split; [assumption|]. split; [|apply NoDup_singleton].
  intros y Hy Hy'. apply list_elem_of_singleton in Hy'. now subst.
Qed.

Lemma clean_step_head (l acc : list string) x :
  fold_left (fun fea i => if bool_decide (i ∈ fea) then fea else fea ++ [i]) l (x :: acc)
  = x :: fold_left (fun fea i => if bool_decide (i ∈ fea) then fea else fea ++ [i])
                   (filter (fun y => y <> x) l) acc.
Proof.
  revert acc. induction l as [|i l IH]; intros acc; cbn [fold_left]; [reflexivity|].
  destruct (decide (i = x)) as [->|Hne].
  - rewrite filter_cons_False by (intros H; now apply H).
    rewrite bool_decide_eq_true_2 by apply list_elem_of_here. apply IH.
  - rewrite filter_cons_True by assumption. cbn [fold_left].
    destruct (decide (i ∈ acc)) as [Hi|Hi].
    + rewrite !bool_decide_eq_true_2; [apply IH | assumption | now apply list_elem_of_further].
    + rewrite !bool_decide_eq_false_2; [apply (IH (acc ++ [i])) | assumption |].
      rewrite elem_of_cons. tauto.
Qed.

(** X1.  The cleaned request list has no repeats, has exactly the codes of
    the request list, and keeps each code at its first occurrence: the code
    at the head stays at the head, and the rest is the cleaned rest of the
    list without that code. *)
Theorem clean_repeats_keeps_first_occurrences (features : list string) :
  NoDup (clean_repeats features)
  /\ (forall ftr, ftr ∈ clean_repeats features <-> ftr ∈ features)
  /\ (forall ftr, clean_repeats (ftr :: features)
                  = ftr :: clean_repeats (filter (fun other => other <> ftr) features)).
Proof.
  unfold clean_repeats. split; [|split].
  - apply clean_step_NoDup, NoDup_nil_2.
  - intros ftr. rewrite clean_step_elem, elem_of_nil. tauto.
  - intros ftr. cbn [fold_left]. rewrite bool_decide_eq_false_2 by apply not_elem_of_nil.
    apply clean_step_head.
Qed.

(** ** Calls that plot nothing (lines 168-187, 204-221) *)

Lemma silent_run {A} (m : M A) st :
  preserves (appends silent) m -> trace (snd (m st)) = trace st.
Proof.
  intros P. destruct (P st) as (evs & Ht & Hevs). destruct evs as [|e evs].
  - now rewrite app_nil_r in Ht.
  - inversion Hevs; subst. discriminate.
Qed.

Lemma requested_features_run kw st :
  (forall r, kw_features kw = Some r -> is_Some (strs (heap st) !! addr r)) ->
  exists r F st',
    requested_features kw st = (Ok r, st')
    /\ strs (heap st') !! addr r = Some (F ++ preset_features kw)
    /\ trace st' = trace st
    /\ match kw_features kw with
       | Some r0 => r = r0 /\ strs (heap st) !! addr r0 = Some F
       | None => F = []
       end.
Proof.
  intros Hvalid.
  assert (Ht : trace (snd (requested_features kw st)) = trace st)
    by (apply silent_run; framed).
  destruct (kw_features kw) as [r0|] eqn:Hkw.
  - destruct (Hvalid r0 eq_refl) as [F HF].
    destruct (requested_features_given kw r0 F st Hkw HF) as [Hok Hl].
    destruct (requested_features kw st) as [res st']. cbn [fst snd] in *. subst res.
    exists r0, F, st'. auto.
  - set (kw' := with_features (Some (Ref (length (strs (heap st))))) kw).
    set (st1 := snd (@alloc string _ [] st)).
    assert (H1 : strs (heap st1) !! length (strs (heap st)) = Some []).
    { subst st1. rewrite alloc_heap. cbn -[lookup app]. apply list_lookup_middle. reflexivity. }
    assert (Hsame : requested_features kw st = requested_features kw' st1).
    { unfold requested_features. subst kw'. rewrite Hkw. destruct kw; reflexivity. }
    assert (Hpre : preset_features kw' = preset_features kw) by (destruct kw; reflexivity).
    destruct (requested_features_given kw' (Ref (length (strs (heap st)))) [] st1
                ltac:(destruct kw; reflexivity) H1) as [Hok Hl].
    rewrite <- Hsame, Hpre in *.
    destruct (requested_features kw st) as [res st']. cbn [fst snd] in *. subst res.
    eexists _, [], st'. auto.
Qed.

(** X2.  A call with no positional argument prints the message of line 186
    and returns: nothing is plotted, shown or saved.  The class-membership
    flags have been applied by then, so a list passed as [features] is
    already extended by their codes. *)
Theorem no_arguments_only_prints (kw : kwargs) (h : Heap) :
  (forall r, kw_features kw = Some r -> is_Some (strs h !! addr r)) ->
  exists st',
    call [] kw h = (Ok tt, st')
    /\ trace st' = [Print "plotSpectrum needs at least one Spectrum object to plot"]
    /\ (forall r F, kw_features kw = Some r -> strs h !! addr r = Some F ->
          strs (heap st') !! addr r = Some (F ++ preset_features kw)).
Proof.
  intros Hvalid. unfold call, plotSpectrum.
  destruct (requested_features_run kw (mkState h []) Hvalid) as (r & F & s1 & E & Hl & Ht & Hkw).
  rewrite bind_run, E, bind_run, (@load_run string string_cell r s1 _ Hl).
  eexists. split; [reflexivity|]. cbn [emit trace heap]. rewrite Ht. split; [reflexivity|].
  intros r0 F0 Hr0 HF0. rewrite Hr0 in Hkw. destruct Hkw as [-> HF].
  cbn [heap] in HF. rewrite HF0 in HF. injection HF as <-. exact Hl.
Qed.

Lemma no_arguments_witness :
  exists st',
    call [] water_and_mdwarf water_store = (Ok tt, st')
    /\ trace st' = [Print "plotSpectrum needs at least one Spectrum object to plot"]
    /\ strs (heap st') !! 0%nat
       = Some ["H2O"; "k"; "na"; "feh"; "tio"; "co"; "h2o"; "h2"].
Proof.
  destruct (no_arguments_only_prints water_and_mdwarf water_store) as (st' & E & Ht & Hf).
  - intros r Hr. injection Hr as <-. eexists. reflexivity.
  - exists st'. split; [exact E|]. split; [exact Ht|].
    exact (Hf (Ref 0) ["H2O"] eq_refl eq_refl).
Defined.

(** X3.  When the arguments leave nothing to plot (an empty list, or separate
    arguments that are all dropped) the call does not report it: after the
    warnings for the dropped arguments it fails on [splist[0]] with an
    IndexError, and nothing is plotted. *)
Theorem nothing_to_plot_is_an_index_error (args : list pyobj) (kw : kwargs) (h : Heap) :
  args <> [] -> input_of args = [] ->
  (forall r, kw_features kw = Some r -> is_Some (strs h !! addr r)) ->
  fst (call args kw h) = Err (IndexError "splist")
  /\ trace (snd (call args kw h))
     = match args with [PList _] => [] | _ => warnings args end.
Proof.
  intros Hargs Hin Hvalid. unfold call, plotSpectrum.
  destruct (requested_features_run kw (mkState h []) Hvalid) as (r & F & s1 & E & Hl & Ht & _).
  rewrite bind_run, E, bind_run, (@load_run string string_cell r s1 _ Hl).
  destruct args as [|a args]; [congruence|].
  rewrite bind_run. unfold normalize_input. rewrite bind_run.
  destruct (input_list_run (a :: args) s1) as (Hok & _ & Htr).
  destruct (input_list (a :: args) s1) as [res s2]. cbn [fst snd] in Hok, Htr. subst res.
  rewrite Hin. cbn. rewrite Htr, Ht. split; reflexivity.
Qed.

Lemma nothing_to_plot_witness :
  fst (call [POther "5"] no_kwargs empty_heap) = Err (IndexError "splist")
  /\ trace (snd (call [POther "5"] no_kwargs empty_heap)) = [Print (ignoring "5")].
Proof.
  apply (nothing_to_plot_is_an_index_error [POther "5"] no_kwargs empty_heap).
  - discriminate.
  - reflexivity.
  - intros r Hr. discriminate Hr.
Defined.

(** ** Plots and groups (lines 204-223, 257-260, 340-349) *)

(** X4.  A flat list of Spectrum objects with [multiplot] off (or a single
    Spectrum, whatever the flag) is one plot group: a call that returns has
    opened exactly one plot and drawn every spectrum on it, in order. *)
Theorem flat_list_is_overlaid_on_one_plot
    (kw : kwargs) (spectra : list Spectrum) (args : list pyobj) :
  kw_multiplot kw = false \/ length spectra = 1%nat ->
  spectra <> [] ->
  input_of args = List.map PSpectrum spectra ->
  (forall st, fst (normalize_input kw args st) = Ok (false, [group spectra], length spectra))
  /\ (forall h st', call args kw h = (Ok tt, st') ->
        marks (trace st') = NewPlot :: curve_marks 0 spectra).
Proof.
  intros Hm Hne Hin.
  assert (Hflag : multiplot_flag (kw_multiplot kw) (input_of args) = false).
  { rewrite Hin. unfold multiplot_flag. rewrite length_map.
    destruct spectra as [|s [|s' spectra]]; [congruence | reflexivity |].
    destruct Hm as [-> | Hm]; [reflexivity | discriminate Hm]. }
  assert (Hg : groups_of kw args = Ok [group spectra]).
  { unfold groups_of. rewrite Hflag, Hin.
    destruct spectra as [|s spectra]; [congruence | reflexivity]. }
  assert (Hf : flatten [group spectra] = Ok (List.map PSpectrum spectra)).
  { pose proof (flatten_groups [spectra]) as H. cbn [List.map concat] in H.
    now rewrite app_nil_r in H. }
  split.
  - intros st. rewrite (normalize_input_run _ _ _ _ _ Hg Hf).
    now rewrite Hflag, length_map.
  - intros h st' E. unfold call in E.
    destruct args as [|a args]; [destruct spectra; [congruence | discriminate]|].
    apply plotSpectrum_marks in E as (groups & Eg & _ & E).
    rewrite Hg in Eg. injection Eg as Eg.
    apply (map_group_inj [spectra]) in Eg. subst groups.
    rewrite E. cbn [flat_map]. now rewrite app_nil_r.
Qed.

Lemma flat_list_witness :
  fst (normalize_input no_kwargs [PSpectrum spec_J; PSpectrum spec_H] start)
  = Ok (false, [group [spec_J; spec_H]], 2%nat)
  /\ marks (trace (snd (call [PSpectrum spec_J; PSpectrum spec_H] no_kwargs empty_heap)))
     = [NewPlot; Drawn 0 (wave spec_J); Drawn 1 (wave spec_H)].
Proof.
  destruct (flat_list_is_overlaid_on_one_plot no_kwargs [spec_J; spec_H]
              [PSpectrum spec_J; PSpectrum spec_H] (or_introl eq_refl)
              ltac:(discriminate) eq_refl) as [H1 H2].
  split; [apply H1 | apply (H2 empty_heap)]. vm_compute. reflexivity.
Defined.

(** ** The output of each plot (lines 133-141, 249, 439-448) *)

Lemma outputs_app tr1 tr2 : outputs (tr1 ++ tr2) = outputs tr1 ++ outputs tr2.
Proof. apply List.filter_app. Qed.

Lemma no_output_events evs :
  Forall (fun e => no_output (kind_of e) = true) evs -> outputs evs = [].
Proof.
  induction 1 as [|e evs He _ IH]; [reflexivity|]. unfold outputs in *. cbn [List.filter].
  rewrite IH. destruct e as [| | | | |[]| [] | | | | | | | | | | | | | | |];
    try discriminate He; reflexivity.
Qed.

Lemma output_run {A} (m : M A) st r st' :
  preserves (appends no_output) m -> m st = (r, st') ->
  outputs (trace st') = outputs (trace st).
Proof.
  intros P E. destruct (preserves_run _ _ _ _ _ P E) as (evs & -> & Hevs).
  now rewrite outputs_app, (no_output_events _ Hevs), app_nil_r.
Qed.

(** The step [E1] saves and shows nothing: [H], which gives the outputs so
    far, holds after it. *)
Ltac out_of E1 H :=
  match type of E1 with
  | ?m ?s0 = _ =>
      let H' := fresh in
      pose proof (eq_trans (output_run m s0 _ _
                              ltac:(frame_with (appends_frame no_output)) E1) H) as H';
      clear H; rename H' into H
  end.

(** The same for the next step of [E]. *)
Ltac out_step E H :=
  let a := fresh "a" in
  let s := fresh "s" in
  let E1 := fresh "E" in
  apply bind_Ok_inv in E as (a & s & E1 & E); out_of E1 H; clear E1.

Lemma finish_plot_outputs kw cfg p plts wvmax flxmax u st st' :
  multipage cfg = false ->
  finish_plot kw cfg p plts wvmax flxmax st = (Ok u, st') ->
  if String.eqb (filebase cfg) "" then outputs (trace st') = outputs (trace st) ++ [Show]
  else exists file, files cfg !! plts = Some file
                    /\ outputs (trace st') = outputs (trace st) ++ [SaveFig file (filetype cfg)].
Proof.
  intros Hmp E. unfold finish_plot in E. rewrite Hmp in E.
  pose proof (eq_refl (outputs (trace st))) as H.
  do 14 out_step E H.
  match type of H with outputs (trace ?s) = _ => rename s into now end.
  destruct (String.eqb (filebase cfg) ""); cbn [negb] in E.
  - inv_bind E as u1 shown E1. apply emit_Ok_inv in E1 as ->.
    assert (st' = mkState (heap now)
                          (trace now ++ [Show] ++ [if kw_interactive kw then Ion else Ioff]))
      as ->.
    { destruct (kw_interactive kw); apply emit_Ok_inv in E as ->; cbn;
        now rewrite <- app_assoc. }
    cbn [trace]. rewrite !outputs_app, H. cbn. destruct (kw_interactive kw); reflexivity.
  - inv_bind E as file saved E1. apply lift_option_Ok_inv in E1 as [Hfile ->].
    apply emit_Ok_inv in E as ->. exists file. split; [assumption|].
    cbn [trace]. now rewrite outputs_app, H.
Qed.

Lemma plot_group_outputs kw cfg plts sp c c' st st' :
  multipage cfg = false ->
  plot_group kw cfg plts sp c st = (Ok c', st') ->
  if String.eqb (filebase cfg) "" then outputs (trace st') = outputs (trace st) ++ [Show]
  else exists file, files cfg !! plts = Some file
                    /\ outputs (trace st') = outputs (trace st) ++ [SaveFig file (filetype cfg)].
Proof.
  intros Hmp E. unfold plot_group in E.
  pose proof (eq_refl (outputs (trace st))) as H.
  out_step E H. destruct a as [l first].
  out_step E H. destruct a as [p spectra].
  out_step E H.
  out_step E H. destruct a0 as [lg [wvmax flxmax]].
  out_step E H.
  inv_bind E as u finished E1. apply ret_Ok_inv in E as [_ ->].
  apply (finish_plot_outputs _ _ _ _ _ _ _ _ _ Hmp) in E1.
  destruct (String.eqb (filebase cfg) ""); [now rewrite E1, H|].
  destruct E1 as (file & Hfile & E1). exists file. now rewrite E1, H.
Qed.

Lemma plot_all_outputs kw cfg (name : nat -> string) splist : forall plts c c' st st',
  multipage cfg = false ->
  (forall i, (i < plts + length splist)%nat -> files cfg !! i = Some (name i)) ->
  plot_all kw cfg plts splist c st = (Ok c', st') ->
  outputs (trace st')
  = outputs (trace st)
    ++ List.map (fun i => if String.eqb (filebase cfg) "" then Show
                          else SaveFig (name i) (filetype cfg))
                (seq plts (length splist)).
Proof.
  induction splist as [|sp splist IH]; intros plts c c' st st' Hmp Hfiles E;
    cbn [plot_all] in E.
  - apply ret_Ok_inv in E as [_ ->]. cbn. now rewrite app_nil_r.
  - inv_bind E as c1 s1 E1. apply (plot_group_outputs _ _ _ _ _ _ _ _ Hmp) in E1.
    apply (IH (S plts)) in E; [|assumption|].
    + rewrite E. cbn [length seq List.map].
      destruct (String.eqb (filebase cfg) ""); [now rewrite E1, <- app_assoc|].
      destruct E1 as (file & Hfile & ->). rewrite Hfiles in Hfile by (cbn; lia).
      injection Hfile as <-. now rewrite <- app_assoc.
    + intros i Hi. apply Hfiles. cbn [length]. lia.
Qed.

Lemma make_config_files kw ftrs lg splist cfg st st' :
  make_config kw ftrs lg splist st = (Ok cfg, st') ->
  filebase cfg = file_base kw
  /\ filetype cfg = file_type kw
  /\ files cfg = List.map (fun i => file_base kw +:+ str_of_nat (i + 1) +:+ "." +:+ file_type kw)
                          (seq 0 (length splist)).
Proof.
  unfold make_config. intros E. inv_bind E as u s E1. destruct (kw_multipage kw).
  - inv_bind E as u2 s2 E2. destruct (_ =? 0)%Z; [discriminate|].
    apply ret_Ok_inv in E as [-> _]. cbn. repeat split; reflexivity.
  - apply ret_Ok_inv in E as [-> _]. cbn. repeat split; reflexivity.
Qed.

(** X6.  Outside multipage mode a call that returns has produced one output
    per plot group, in order.  When the base of the file name (what precedes
    its first dot) is empty, each plot is shown.  Otherwise the plot of group
    number i (from 0) is saved as that base followed by i+1, a dot and the
    file type; so even a single plot is not saved under the name that was
    given. *)
Theorem one_output_per_group
    (args : list pyobj) (kw : kwargs) (h : Heap) (st' : state) (splist : list pyobj) :
  kw_multipage kw = false ->
  groups_of kw args = Ok splist ->
  call args kw h = (Ok tt, st') ->
  outputs (trace st') = List.map (plot_output kw) (seq 0 (length splist)).
Proof.
  intros Hmp Hg E. unfold call, plotSpectrum in E.
  pose proof (eq_refl (outputs (trace (mkState h [])))) as H.
  out_step E H. out_step E H.
  destruct args as [|arg args]; [discriminate Hg|].
  inv_bind E as x s1 E1. destruct x as [[mp splist'] tot].
  apply normalize_input_Ok in E1 as Hn. destruct Hn as (_ & Hg' & _).
  rewrite Hg in Hg'. injection Hg' as <-.
  out_of E1 H. out_step E H.
  inv_bind E as cfg s3 E3.
  out_of E3 H.
  apply make_config_Ok in E3 as Hcfg. destruct Hcfg as (Hmp' & _).
  apply make_config_files in E3 as (Hbase & Htype & Hfiles).
  out_step E H. out_step E H.
  inv_bind E as c s6 E6.
  rewrite Hmp in Hmp'.
  apply (plot_all_outputs _ _
           (fun i => file_base kw +:+ str_of_nat (i + 1) +:+ "." +:+ file_type kw)
           _ _ _ _ _ _ Hmp') in E6.
  - unfold write_document in E. rewrite Hmp' in E. apply ret_Ok_inv in E as [_ ->].
    rewrite E6, H. cbn [trace outputs List.filter app]. rewrite Hbase, Htype. reflexivity.
  - intros i Hi. rewrite Hfiles. cbn [Nat.add] in Hi.
    rewrite list_lookup_fmap, lookup_seq_lt by assumption. reflexivity.
Qed.

Lemma one_output_witness :
  outputs (trace (snd (call [PSpectrum spec_J] to_spectrum_pdf empty_heap)))
  = [SaveFig "spectrum1.pdf" "pdf"].
Proof.
  apply (one_output_per_group [PSpectrum spec_J] to_spectrum_pdf empty_heap
           (snd (call [PSpectrum spec_J] to_spectrum_pdf empty_heap)) [group [spec_J]]).
  - reflexivity.
  - reflexivity.
  - vm_compute. reflexivity.
Defined.

(** ** Multipage output (lines 239-247, 319-327, 451-460) *)

Lemma save_pages_pdf cfg c pg todo u st st' :
  save_pages cfg c pg (S todo) st = (Ok u, st') -> String.eqb (filetype cfg) "pdf" = true.
Proof.
  cbn [save_pages]. intros E. destruct (fig c !! pg) as [[|]|]; try discriminate E.
  inv_bind E as u1 s1 E1. inv_bind E as u2 s2 E2.
  destruct (String.eqb (filetype cfg) "pdf"); [reflexivity | discriminate E2].
Qed.

Lemma plot_all_needs_page kw cfg sp splist c c' st st' :
  multipage cfg = true ->
  plot_all kw cfg 0 (sp :: splist) c st = (Ok c', st') ->
  pg_n c = 0 -> fig c <> [].
Proof.
  intros Hmp E Hpg Hfig. cbn [plot_all] in E. inv_bind E as c1 s1 E1.
  unfold plot_group in E1. inv_bind E1 as x s2 E2. destruct x as [l first].
  inv_bind E1 as y s3 E3. destruct y as [p spectra]. inv_bind E1 as c2 s4 E4.
  unfold generate_plot in E4. rewrite Hmp, Hpg, Hfig in E4. cbn in E4.
  rewrite ?Zmod_0_l in E4. cbn in E4. discriminate E4.
Qed.

(** X7.  Multipage output exists for pdf only: in multipage mode, when the
    file type (the [format] option, else what follows the last dot of the
    file name, else pdf) is not exactly "pdf", no call with arguments
    returns normally. *)
Theorem multipage_returns_for_pdf_only (args : list pyobj) (kw : kwargs) (h : Heap) :
  kw_multipage kw = true -> file_type kw <> "pdf" -> args <> [] ->
  fst (call args kw h) <> Ok tt.
Proof.
  intros Hmp Htype Hargs Hok. unfold call in Hok.
  destruct (plotSpectrum args kw (mkState h [])) as [res st'] eqn:E.
  cbn [fst] in Hok. subst res. unfold plotSpectrum in E.
  inv_bind E as ftrs s0 E0. inv_bind E as requested s1 E1.
  destruct args as [|arg args]; [congruence|].
  inv_bind E as x s2 E2. destruct x as [[mp splist] tot].
  apply normalize_input_Ok in E2 as Hn. destruct Hn as (_ & Hg & _).
  apply plot_groups_not_empty in Hg.
  inv_bind E as lg s3 E3. inv_bind E as cfg s4 E4.
  apply make_config_Ok in E4 as Hcfg. destruct Hcfg as (Hmp' & _).
  rewrite Hmp in Hmp'.
  apply make_config_files in E4 as (_ & Hft & _).
  inv_bind E as u5 s5 E5. inv_bind E as u6 s6 E6. inv_bind E as c s7 E7.
  destruct splist as [|sp splist]; [congruence|].
  apply (plot_all_needs_page _ _ _ _ _ _ _ _ Hmp') in E7 as Hfig; [|reflexivity].
  cbn [fig] in Hfig. unfold write_document in E. rewrite Hmp' in E. cbn [when] in E.
  inv_bind E as u8 s8 E8.
  destruct (Z.to_nat (numpages cfg)) as [|todo]; [now apply Hfig|].
  apply save_pages_pdf in E8. apply String.eqb_eq in E8. congruence.
Qed.

Lemma multipage_pdf_only_witness :
  fst (call [PSpectrum spec_J] png_document empty_heap) <> Ok tt.
Proof.
  apply (multipage_returns_for_pdf_only [PSpectrum spec_J] png_document empty_heap).
  - reflexivity.
  - vm_compute. discriminate.
  - discriminate.
Defined.




(** ** The uncertainty curves (lines 301-308, 351-354) *)

Lemma noise_curves_app tr1 tr2 : noise_curves (tr1 ++ tr2) = noise_curves tr1 ++ noise_curves tr2.
Proof. apply flat_map_app. Qed.

Lemma no_noise_events evs :
  Forall (fun e => no_noise (kind_of e) = true) evs -> noise_curves evs = [].
Proof.
  induction 1 as [|e evs He _ IH]; [reflexivity|]. cbn [noise_curves flat_map].
  fold (noise_curves evs). rewrite IH.
  destruct e as [| | | | |[]| | | | | | | | | | | | | | | |]; try discriminate He; reflexivity.
Qed.

Lemma noise_run {A} (m : M A) st r st' :
  preserves (appends no_noise) m -> m st = (r, st') ->
  noise_curves (trace st') = noise_curves (trace st).
Proof.
  intros P E. destruct (preserves_run _ _ _ _ _ P E) as (evs & -> & Hevs).
  now rewrite noise_curves_app, (no_noise_events _ Hevs), app_nil_r.
Qed.

(** The step [E1] draws no uncertainty curve: [H], which gives the curves so
    far, holds after it. *)
Ltac noise_of E1 H :=
  match type of E1 with
  | ?m ?s0 = _ =>
      let H' := fresh in
      pose proof (eq_trans (noise_run m s0 _ _
                              ltac:(frame_with (appends_frame no_noise)) E1) H) as H';
      clear H; rename H' into H
  end.

Lemma flag_at_padded shown k ii f :
  (shown ++ replicate k true) !! ii = Some f -> f = flag_at shown ii.
Proof.
  unfold flag_at. intros H. destruct (shown !! ii) as [f'|] eqn:E.
  - rewrite (lookup_app_l_Some _ _ _ _ E) in H. congruence.
  - apply lookup_ge_None in E. rewrite lookup_app_r in H by assumption.
    now apply lookup_replicate_1 in H as [-> _].
Qed.

Lemma draw_noise_curves p ii a u st st' shown k :
  bools (heap st) !! addr (showNoise p) = Some (shown ++ replicate k true) ->
  draw_noise p ii a st = (Ok u, st') ->
  noise_curves (trace st')
  = noise_curves (trace st) ++ (if flag_at shown ii then [ii] else []).
Proof.
  intros Hflags E. unfold draw_noise in E. inv_bind E as sn s0 E0.
  apply getitem_Ok_inv in E0 as (-> & l & Hl & Hsn).
  change (cell_get (heap st)) with (bools (heap st)) in Hl.
  rewrite Hflags in Hl. inversion Hl; subst l.
  apply flag_at_padded in Hsn. subst sn. destruct (flag_at shown ii); cbn [when] in E.
  - pose proof (eq_refl (noise_curves (trace st))) as H.
    inv_bind E as ns s1 E1. noise_of E1 H.
    inv_bind E as cu s2 E2. noise_of E2 H.
    inv_bind E as ls s3 E3. noise_of E3 H.
    apply emit_Ok_inv in E as ->. cbn [trace]. now rewrite noise_curves_app, H.
  - apply ret_Ok_inv in E as [_ ->]. now rewrite app_nil_r.
Qed.

Lemma plot_one_curves kw cfg p n ii a lg env env' st st' shown k :
  bools (heap st) !! addr (showNoise p) = Some (shown ++ replicate k true) ->
  plot_one kw cfg p n ii a lg env st = (Ok env', st') ->
  noise_curves (trace st')
  = noise_curves (trace st) ++ (if flag_at shown ii then [ii] else []).
Proof.
  intros Hflags E. unfold plot_one in E.
  pose proof (eq_refl (noise_curves (trace st))) as H.
  inv_bind E as flx s0 E0. noise_of E0 H. flags_step E0 Hflags k0.
  inv_bind E as u1 s1 E1. noise_of E1 H. flags_step E1 Hflags k1.
  inv_bind E as u2 s2 E2. apply (draw_noise_curves _ _ _ _ _ _ _ _ Hflags) in E2.
  rewrite H in E2. clear H.
  inv_bind E as u3 s3 E3. noise_of E3 E2. noise_of E E2. exact E2.
Qed.

Lemma plot_spectra_curves kw cfg p n shown spectra :
  forall ii lg env out st st' k,
    bools (heap st) !! addr (showNoise p) = Some (shown ++ replicate k true) ->
    plot_spectra kw cfg p n ii spectra lg env st = (Ok out, st') ->
    noise_curves (trace st')
    = noise_curves (trace st) ++ List.filter (flag_at shown) (seq ii (length spectra)).
Proof.
  induction spectra as [|s spectra IH]; intros ii lg env out st st' k Hflags E;
    cbn [plot_spectra] in E.
  - apply ret_Ok_inv in E as [_ ->]. cbn. now rewrite app_nil_r.
  - inv_bind E as env1 s1 E1.
    pose proof (plot_one_curves _ _ _ _ _ _ _ _ _ _ _ _ _ Hflags E1) as H1.
    flags_step E1 Hflags k1.
    rewrite (IH _ _ _ _ _ _ _ Hflags E), H1, <- app_assoc. cbn [length seq List.filter].
    destruct (flag_at shown ii); reflexivity.
Qed.

Lemma show_noise_flags kw n st flags st' given m :
  (forall r, or_else (kw_uncertainty kw) (or_else (kw_noise kw) (kw_showNoise kw))
             = Some (inr r) ->
             bools (heap st) !! addr r = Some (given ++ replicate m true)) ->
  show_noise kw n st = (Ok flags, st') ->
  exists k, bools (heap st') !! addr flags = Some (noise_flags kw n given ++ replicate k true).
Proof.
  intros Hgiven E. unfold show_noise, flag_list, noise_flags in *.
  inv_bind E as r s0 E0. inv_bind E as u s1 E1. apply ret_Ok_inv in E as [-> ->].
  assert (exists k0, bools (heap s0) !! addr r
                     = Some (match or_else (kw_uncertainty kw)
                                     (or_else (kw_noise kw) (kw_showNoise kw)) with
                             | Some (inr _) => given
                             | Some (inl b) => [b]
                             | None => replicate n false
                             end ++ replicate k0 true)) as [k0 Hl].
  { destruct (or_else (kw_uncertainty kw) _) as [[b|r0]|].
    - exists 0%nat. unfold alloc in E0. injection E0 as <- <-. cbn -[lookup app].
      rewrite app_nil_r. now apply list_lookup_middle.
    - apply ret_Ok_inv in E0 as [-> ->]. exists m. now apply Hgiven.
    - exists 0%nat. unfold alloc in E0. injection E0 as <- <-. cbn -[lookup app].
      rewrite app_nil_r. now apply list_lookup_middle. }
  destruct (pad_run bool_get_set r n true s0 _ Hl) as (_ & Hpad & _).
  rewrite E1 in Hpad. cbn [snd] in Hpad.
  change (cell_get (heap s1)) with (bools (heap s1)) in Hpad.
  rewrite Hpad, <- app_assoc, <- replicate_add. eauto.
Qed.

Lemma plot_parameters_noise_flags kw sp first p spectra st st' given :
  (forall r, or_else (kw_uncertainty kw) (or_else (kw_noise kw) (kw_showNoise kw))
             = Some (inr r) ->
             bools (heap st) !! addr r = Some given) ->
  plot_parameters kw sp first st = (Ok (p, spectra), st') ->
  exists k, bools (heap st') !! addr (showNoise p)
            = Some (noise_flags kw (length sp) given ++ replicate k true).
Proof.
  intros Hgiven E. unfold plot_parameters in E.
  inv_bind E as zp s0 E0. inv_bind E as sps s1 E1.
  apply lift_result_Ok_inv in E1 as [E1 ->].
  inv_bind E as bd s2 E2. inv_bind E as ls s3 E3.
  inv_bind E as cc s4 E4. destruct cc as [cs cu].
  assert (exists m, forall r,
             or_else (kw_uncertainty kw) (or_else (kw_noise kw) (kw_showNoise kw))
             = Some (inr r) ->
             bools (heap s4) !! addr r = Some (given ++ replicate m true)) as [m Hshape].
  { destruct (or_else (kw_uncertainty kw) _) as [[b|r0]|];
      [exists 0%nat; discriminate | | exists 0%nat; discriminate].
    specialize (Hgiven r0 eq_refl). rewrite <- (app_nil_r given) in Hgiven.
    change (@nil bool) with (replicate 0 true) in Hgiven.
    flags_step E0 Hgiven k0. flags_step E2 Hgiven k2. flags_step E3 Hgiven k3.
    flags_step E4 Hgiven k4. exists k4. intros r Hr. injection Hr as <-. exact Hgiven. }
  inv_bind E as sn s5 E5.
  destruct (show_noise_flags _ _ _ _ _ _ _ Hshape E5) as [k5 Hflags].
  inv_bind E as sz s6 E6. flags_step E6 Hflags k6.
  apply ret_Ok_inv in E as [E ->]. inversion E; subst. cbn [showNoise]. eauto.
Qed.

(** X9.  The uncertainty curves of a plot group are exactly those of the
    spectra whose flag is set, the flags being the caller's list, or the one
    flag given as a plain value, or [False] for every spectrum when none of
    the three keys is given, completed with [True].  So [uncertainty=False]
    hides the uncertainty of the first spectrum only, and with no key no
    uncertainty is drawn at all. *)
Theorem noise_curves_follow_the_flags
    (kw : kwargs) (cfg : config) (plts : nat) (spectra : list Spectrum)
    (c c' : counters) (st st' : state) (given : list bool) :
  (forall r, or_else (kw_uncertainty kw) (or_else (kw_noise kw) (kw_showNoise kw))
             = Some (inr r) ->
             bools (heap st) !! addr r = Some given) ->
  plot_group kw cfg plts (group spectra) c st = (Ok c', st') ->
  noise_curves (trace st')
  = noise_curves (trace st)
    ++ List.filter (flag_at (noise_flags kw (length spectra) given))
                   (seq 0 (length spectra)).
Proof.
  intros Hgiven E. unfold plot_group in E.
  pose proof (eq_refl (noise_curves (trace st))) as H.
  inv_bind E as x s0 E0. destruct x as [l first].
  apply first_spectrum_Ok in E0 as (-> & Hl & _). injection Hl as <-.
  inv_bind E as y s1 E1. destruct y as [p spectra'].
  pose proof (plot_parameters_spectra _ _ _ _ _ _ _ E1) as Hsp.
  apply spectra_of_Ok, map_PSpectrum_inj in Hsp. subst spectra'.
  destruct (plot_parameters_noise_flags _ _ _ _ _ _ _ _ Hgiven E1) as [k1 Hflags].
  rewrite length_map in Hflags. noise_of E1 H.
  inv_bind E as c2 s2 E2. noise_of E2 H. flags_step E2 Hflags k2.
  inv_bind E as z s3 E3. destruct z as [lg [wvmax flxmax]].
  apply (plot_spectra_curves _ _ _ _ _ _ _ _ _ _ _ _ _ Hflags) in E3.
  rewrite H in E3. clear H.
  inv_bind E as u4 s4 E4. noise_of E4 E3.
  inv_bind E as u5 s5 E5. noise_of E5 E3.
  apply ret_Ok_inv in E as [_ ->]. exact E3.
Qed.

Lemma noise_curves_witness :
  noise_curves
    (trace (snd (plot_group no_uncertainty plain_config 0 (group [spec_J; spec_H; spec_J])
                   no_pages legend_only)))
  = [1; 2]%nat.
Proof.
  apply (noise_curves_follow_the_flags no_uncertainty plain_config 0 [spec_J; spec_H; spec_J]
           no_pages (mkCounters 0 3 []) legend_only _ []).
  - intros r Hr. discriminate Hr.
  - vm_compute. reflexivity.
Defined.

(** ** The colour map (lines 286-298) *)


Lemma pad_color_prefix (r : ref color) n d u st st' a l :
  pad r n d st = (Ok u, st') ->
  cols (heap st) !! a = Some l ->
  exists ext, cols (heap st') !! a = Some (l ++ ext).
Proof.
  intros E Hl. unfold pad in E. inv_bind E as l0 s0 E0.
  apply load_Ok_inv in E0 as [-> Hl0].
  change (cell_get (heap st)) with (cols (heap st)) in Hl0.
  destruct (length l0 <? n)%nat; cbn [when] in E.
  - rewrite (@extend_run color color_cell r _ st l0 Hl0) in E. inversion E; subst st'.
    cbn -[insert lookup app]. rewrite (lookup_after_write _ _ _ _ _ Hl).
    destruct (Nat.eq_dec a (addr r)) as [->|]; [|exists []; now rewrite app_nil_r].
    rewrite Hl in Hl0. injection Hl0 as <-. eauto.
  - apply ret_Ok_inv in E as [_ ->]. exists []. now rewrite app_nil_r.
Qed.

(** X10.  With a colour map ([colorMap], else [colorScheme]) the first n
    entries of the colour list of a group of n >= 1 spectra are overwritten by the
    colours of the map, spectrum i getting the colour of value i on the scale
    0..n-1; this happens in the caller's own list when one is given.  With no
    colour given for the uncertainties, they use that same list. *)
Theorem color_map_overrides_the_colors
    (kw : kwargs) (n : nat) (scheme : string) (cs cu : ref color) (st st' : state) :
  (1 <= n)%nat ->
  or_else (kw_colorMap kw) (kw_colorScheme kw) = Some scheme ->
  line_colors kw n st = (Ok (cs, cu), st') ->
  (exists l, cols (heap st') !! addr cs = Some l
             /\ forall i, (i < n)%nat -> l !! i = Some (Mapped scheme i (n - 1)))
  /\ (forall r, or_else (kw_color kw) (kw_colors kw) = Some r -> cs = r)
  /\ (or_else (kw_colorUnc kw) (kw_colorsUnc kw) = None -> cu = cs).
Proof.
  intros _ Hmap E. unfold line_colors in E. rewrite Hmap in E.
  inv_bind E as colors s0 E0. inv_bind E as u1 s1 E1.
  destruct (pad_covers _ _ _ _ _ _ color_get_set E1) as (l1 & Hl1 & Hlen1).
  change (cell_get (heap s1)) with (cols (heap s1)) in Hl1.
  inv_bind E as u2 s2 E2.
  destruct (map_colors_Ok _ _ _ _ _ _ _ _ _ Hl1 E2) as (l2 & Hl2 & Hlen2 & Hnew & _).
  inv_bind E as u3 s3 E3. apply ret_Ok_inv in E as [E ->]. injection E as -> ->.
  destruct (pad_color_prefix _ _ _ _ _ _ _ _ E3 Hl2) as [ext Hl3].
  split; [|split].
  - exists (l2 ++ ext). split; [assumption|]. intros i Hi.
    apply lookup_app_l_Some, Hnew. lia.
  - intros r Hr. rewrite Hr in E0. now apply ret_Ok_inv in E0 as [-> _].
  - intros ->. reflexivity.
Qed.

Lemma color_map_witness :
  exists l, cols (heap (snd (line_colors copper_map 3 start))) !! 0%nat = Some l
            /\ forall i, (i < 3)%nat -> l !! i = Some (Mapped "copper" i 2).
Proof.
  destruct (color_map_overrides_the_colors copper_map 3 "copper" (Ref 0) (Ref 0) start
              (snd (line_colors copper_map 3 start)) ltac:(lia) eq_refl eq_refl) as [H _].
  exact H.
Defined.

(** ** The legend (lines 225-231, 349, 371) *)

Lemma curve_labels_app tr1 tr2 :
  curve_labels (tr1 ++ tr2) = curve_labels tr1 ++ curve_labels tr2.
Proof. apply flat_map_app. Qed.

Lemma no_curve_events evs :
  Forall (fun e => no_curve (kind_of e) = true) evs -> curve_labels evs = [].
Proof.
  induction 1 as [|e evs He _ IH]; [reflexivity|]. cbn [curve_labels flat_map].
  fold (curve_labels evs). rewrite IH.
  destruct e as [| | | | |[]| | | | | | | | | | | | | | | |]; try discriminate He; reflexivity.
Qed.

Lemma labels_run {A} (m : M A) st r st' :
  preserves (appends no_curve) m -> m st = (r, st') ->
  curve_labels (trace st') = curve_labels (trace st).
Proof.
  intros P E. destruct (preserves_run _ _ _ _ _ P E) as (evs & -> & Hevs).
  now rewrite curve_labels_app, (no_curve_events _ Hevs), app_nil_r.
Qed.

(** The step [E1] draws no spectrum: [H], which gives the labels so far,
    holds after it. *)
Ltac labels_of E1 H :=
  match type of E1 with
  | ?m ?s0 = _ =>
      let H' := fresh in
      pose proof (eq_trans (labels_run m s0 _ _
                              ltac:(frame_with (appends_frame no_curve)) E1) H) as H';
      clear H; rename H' into H
  end.

Lemma prefix_run {A} a (m : M A) st r st' L :
  preserves (strings_grow a) m -> m st = (r, st') ->
  (exists ext, strs (heap st) !! a = Some (L ++ ext)) ->
  exists ext, strs (heap st') !! a = Some (L ++ ext).
Proof.
  intros P E [ext H]. destruct (preserves_run _ _ _ _ _ P E _ H) as [ext' H'].
  exists (ext ++ ext'). now rewrite app_assoc.
Qed.

(** The list [H] speaks of still starts with the same entries after the
    step [E1]. *)
Ltac prefix_of E1 H :=
  match type of E1 with
  | ?m ?s0 = _ =>
      match type of H with
      | exists _, _ !! ?a = _ =>
          let H' := fresh in
          pose proof (prefix_run a m s0 _ _ _
                        ltac:(frame_with (strings_grow_frame a)) E1 H) as H';
          clear H; rename H' into H
      end
  end.

Lemma draw_spectrum_labels cfg p ii a flx lg u st st' L lab :
  (exists ext, strs (heap st) !! addr (legend cfg) = Some (L ++ ext)) ->
  L !! lg = Some lab ->
  draw_spectrum cfg p ii a flx lg st = (Ok u, st') ->
  curve_labels (trace st') = curve_labels (trace st) ++ [lab].
Proof.
  intros [ext HL] Hlab E. unfold draw_spectrum in E.
  inv_bind E as c s0 E0. apply getitem_Ok_inv in E0 as (-> & _).
  inv_bind E as ls s1 E1. apply getitem_Ok_inv in E1 as (-> & _).
  inv_bind E as lab' s2 E2. apply getitem_Ok_inv in E2 as (-> & l & Hl & Hlab').
  change (cell_get (heap st)) with (strs (heap st)) in Hl.
  rewrite HL in Hl. injection Hl as <-.
  rewrite (lookup_app_l_Some _ _ _ _ Hlab) in Hlab'. injection Hlab' as <-.
  apply emit_Ok_inv in E as ->. cbn [trace]. now rewrite curve_labels_app.
Qed.

Lemma plot_one_labels kw cfg p n ii a lg env env' st st' L lab :
  (exists ext, strs (heap st) !! addr (legend cfg) = Some (L ++ ext)) ->
  L !! lg = Some lab ->
  plot_one kw cfg p n ii a lg env st = (Ok env', st') ->
  curve_labels (trace st') = curve_labels (trace st) ++ [lab].
Proof.
  intros HL Hlab E. unfold plot_one in E.
  pose proof (eq_refl (curve_labels (trace st))) as H.
  inv_bind E as flx s0 E0. labels_of E0 H. prefix_of E0 HL.
  inv_bind E as u1 s1 E1. apply (draw_spectrum_labels _ _ _ _ _ _ _ _ _ _ _ HL Hlab) in E1.
  rewrite H in E1. clear H.
  inv_bind E as u2 s2 E2. labels_of E2 E1.
  inv_bind E as u3 s3 E3. labels_of E3 E1. labels_of E E1. exact E1.
Qed.

Lemma plot_spectra_labels kw cfg p n L spectra : forall ii lg env out st st',
  (exists ext, strs (heap st) !! addr (legend cfg) = Some (L ++ ext)) ->
  (lg + length spectra <= length L)%nat ->
  plot_spectra kw cfg p n ii spectra lg env st = (Ok out, st') ->
  curve_labels (trace st')
  = curve_labels (trace st) ++ take (length spectra) (drop lg L).
Proof.
  induction spectra as [|s spectra IH]; intros ii lg env out st st' HL Hlen E;
    cbn [plot_spectra] in E.
  - apply ret_Ok_inv in E as [_ ->]. cbn. now rewrite app_nil_r.
  - cbn [length] in Hlen. inv_bind E as env1 s1 E1.
    destruct (lookup_lt_is_Some_2 L lg ltac:(lia)) as [lab Hlab].
    pose proof (plot_one_labels _ _ _ _ _ _ _ _ _ _ _ _ _ HL Hlab E1) as H1.
    prefix_of E1 HL.
    rewrite (IH (S ii) (S lg) _ _ _ _ HL ltac:(lia) E), H1, <- app_assoc.
    now rewrite (drop_S _ _ _ Hlab).
Qed.

Lemma plot_group_labels kw cfg plts spectra c c' st st' L :
  (exists ext, strs (heap st) !! addr (legend cfg) = Some (L ++ ext)) ->
  (lg_n c + length spectra <= length L)%nat ->
  plot_group kw cfg plts (group spectra) c st = (Ok c', st') ->
  curve_labels (trace st')
  = curve_labels (trace st) ++ take (length spectra) (drop (lg_n c) L)
  /\ lg_n c' = (lg_n c + length spectra)%nat
  /\ exists ext, strs (heap st') !! addr (legend cfg) = Some (L ++ ext).
Proof.
  intros HL Hlen E.
  assert (HL' : exists ext, strs (heap st') !! addr (legend cfg) = Some (L ++ ext))
    by (prefix_of E HL; exact HL).
  apply plot_group_marks in E as Hm. destruct Hm as (spectra0 & Hg & _ & _ & Hlg).
  apply group_inj in Hg. subst spectra0.
  split; [|split; assumption]. unfold plot_group in E.
  pose proof (eq_refl (curve_labels (trace st))) as H.
  inv_bind E as x s0 E0. destruct x as [l first].
  apply first_spectrum_Ok in E0 as (-> & Hl & _). injection Hl as <-.
  inv_bind E as y s1 E1. destruct y as [p spectra'].
  pose proof (plot_parameters_spectra _ _ _ _ _ _ _ E1) as Hsp.
  apply spectra_of_Ok, map_PSpectrum_inj in Hsp. subst spectra'.
  labels_of E1 H. prefix_of E1 HL.
  inv_bind E as c2 s2 E2. labels_of E2 H. prefix_of E2 HL.
  apply generate_plot_marks in E2 as [_ Hc2].
  inv_bind E as z s3 E3. destruct z as [lg [wvmax flxmax]].
  apply (plot_spectra_labels _ _ _ _ L) in E3; [|assumption|rewrite Hc2; lia].
  rewrite H, Hc2 in E3. clear H.
  inv_bind E as u4 s4 E4. labels_of E4 E3.
  inv_bind E as u5 s5 E5. labels_of E5 E3.
  apply ret_Ok_inv in E as [_ ->]. exact E3.
Qed.

Lemma plot_all_labels kw cfg L groups : forall plts c c' st st',
  (exists ext, strs (heap st) !! addr (legend cfg) = Some (L ++ ext)) ->
  (lg_n c + length (concat groups) <= length L)%nat ->
  plot_all kw cfg plts (List.map group groups) c st = (Ok c', st') ->
  curve_labels (trace st')
  = curve_labels (trace st) ++ take (length (concat groups)) (drop (lg_n c) L).
Proof.
  induction groups as [|g groups IH]; intros plts c c' st st' HL Hlen E;
    cbn [List.map plot_all] in E.
  - apply ret_Ok_inv in E as [_ ->]. cbn. now rewrite app_nil_r.
  - cbn [concat] in *. rewrite length_app in *. inv_bind E as c1 s1 E1.
    destruct (plot_group_labels kw cfg plts g c c1 st s1 L HL ltac:(lia) E1)
      as (H1 & Hlg & HL1).
    rewrite (IH (S plts) c1 c' s1 st' HL1 ltac:(lia) E), H1, Hlg, <- app_assoc.
    now rewrite <- take_take_drop, drop_drop.
Qed.

Lemma when_extend_elsewhere (r : ref string) b ext u st st' a :
  when b (extend r ext) st = (Ok u, st') -> a <> addr r ->
  strs (heap st') !! a = strs (heap st) !! a.
Proof.
  intros E Ha. replace st' with (snd (when b (extend r ext) st)) by now rewrite E.
  destruct b; cbn [when]; [|reflexivity].
  rewrite extend_heap. destruct (cell_get (heap st) !! addr r); [|reflexivity].
  cbn -[insert lookup]. apply list_lookup_insert_ne. congruence.
Qed.

Lemma requested_features_elsewhere kw r st st' a l :
  requested_features kw st = (Ok r, st') ->
  strs (heap st) !! a = Some l -> kw_features kw <> Some (Ref a) ->
  strs (heap st') !! a = Some l.
Proof.
  intros E Hl Hkw. unfold requested_features in E. inv_bind E as r0 s0 E0.
  assert (strs (heap s0) !! a = Some l /\ a <> addr r0) as [H0 Ha].
  { destruct (kw_features kw) as [rf|]; cbn [kwlist] in E0.
    - apply ret_Ok_inv in E0 as [-> ->]. split; [assumption|].
      intros ->. apply Hkw. now destruct rf.
    - unfold alloc in E0. injection E0 as <- <-. cbn -[lookup app]. split.
      + now apply lookup_app_l_Some.
      + apply lookup_lt_Some in Hl. lia. }
  inv_bind E as u1 s1 E1. inv_bind E as u2 s2 E2. inv_bind E as u3 s3 E3.
  inv_bind E as u4 s4 E4. apply ret_Ok_inv in E as [_ ->].
  rewrite (when_extend_elsewhere _ _ _ _ _ _ _ E4 Ha), (when_extend_elsewhere _ _ _ _ _ _ _ E3 Ha),
    (when_extend_elsewhere _ _ _ _ _ _ _ E2 Ha), (when_extend_elsewhere _ _ _ _ _ _ _ E1 Ha).
  exact H0.
Qed.

Lemma prep_legend_entries kw tot lg st st' supplied :
  (forall r, or_else (kw_labels kw) (or_else (kw_label kw)
               (or_else (kw_legends kw) (kw_legend kw))) = Some r ->
             strs (heap st) !! addr r = Some supplied) ->
  prep_legend kw tot st = (Ok lg, st') ->
  strs (heap st') !! addr lg
  = Some (legend_given kw supplied ++ replicate (tot - length (legend_given kw supplied)) "").
Proof.
  intros Hgiven E. unfold legend_given.
  destruct (or_else (kw_labels kw) _) as [r|] eqn:Hkw.
  - destruct (prep_legend_given kw tot st r supplied Hkw (Hgiven r eq_refl)) as [Hok Hl].
    rewrite E in Hok, Hl. cbn [fst snd] in Hok, Hl. injection Hok as ->. exact Hl.
  - unfold prep_legend in E. rewrite Hkw in E. inv_bind E as r s0 E0.
    inv_bind E as u s1 E1. apply ret_Ok_inv in E as [-> ->].
    assert (Hl : strs (heap s0) !! addr r = Some (replicate tot "")).
    { unfold alloc in E0. injection E0 as <- <-. cbn -[lookup app].
      now apply list_lookup_middle. }
    destruct (pad_run string_get_set r tot "" s0 _ Hl) as (_ & Hpad & _).
    rewrite E1 in Hpad. cbn [snd] in Hpad.
    change (cell_get (heap s1)) with (strs (heap s1)) in Hpad.
    rewrite Hpad, length_replicate, Nat.sub_diag, Nat.sub_0_r. cbn [replicate app].
    now rewrite app_nil_r.
Qed.

(** X11.  The spectra are labelled with consecutive legend entries, counted
    across the plot groups: in a call that returns, the labels of the curves,
    in the order they are drawn, are the first entries of the legend list the
    caller gave (with no legend, of the empty list) completed with the empty
    label up to the total number of spectra. *)
Theorem legend_entries_label_the_curves
    (args : list pyobj) (kw : kwargs) (h : Heap) (st' : state)
    (groups : list (list Spectrum)) (supplied : list string) :
  groups_of kw args = Ok (List.map group groups) ->
  (forall r, or_else (kw_labels kw) (or_else (kw_label kw)
               (or_else (kw_legends kw) (kw_legend kw))) = Some r ->
             strs h !! addr r = Some supplied /\ kw_features kw <> Some r) ->
  call args kw h = (Ok tt, st') ->
  curve_labels (trace st')
  = take (length (concat groups))
         (legend_given kw supplied
          ++ replicate (length (concat groups) - length (legend_given kw supplied)) "").
Proof.
  intros Hg Hgiven E. unfold call, plotSpectrum in E.
  pose proof (eq_refl (curve_labels (trace (mkState h [])))) as H.
  inv_bind E as ftrs s0 E0. labels_of E0 H.
  assert (Hgiven0 : forall r,
            or_else (kw_labels kw) (or_else (kw_label kw)
              (or_else (kw_legends kw) (kw_legend kw))) = Some r ->
            strs (heap s0) !! addr r = Some supplied).
  { intros r Hr. destruct (Hgiven r Hr) as [Hl Hne].
    apply (requested_features_elsewhere _ _ _ _ _ _ E0 Hl). now destruct r. }
  inv_bind E as requested s1 E1. apply load_Ok_inv in E1 as [-> _].
  destruct args as [|arg args]; [discriminate Hg|].
  inv_bind E as x s2 E2. destruct x as [[mp splist] tot].
  apply normalize_input_Ok in E2 as Hn. destruct Hn as (_ & Hg' & (items & Hf & ->) & Hheap).
  rewrite Hg in Hg'. injection Hg' as <-.
  rewrite flatten_groups in Hf. injection Hf as <-. rewrite length_map in *.
  labels_of E2 H. rewrite <- Hheap in Hgiven0.
  inv_bind E as lg s3 E3. labels_of E3 H.
  pose proof (prep_legend_entries _ _ _ _ _ _ Hgiven0 E3) as HL.
  inv_bind E as cfg s4 E4. labels_of E4 H.
  apply make_config_Ok in E4 as Hcfg. destruct Hcfg as (_ & _ & _ & _ & Hlg & _).
  rewrite <- Hlg in HL.
  assert (HL' : exists ext,
            strs (heap s3) !! addr (legend cfg)
            = Some ((legend_given kw supplied
                     ++ replicate (length (concat groups)
                                   - length (legend_given kw supplied)) "") ++ ext))
    by (exists []; now rewrite app_nil_r).
  clear HL. prefix_of E4 HL'.
  inv_bind E as u5 s5 E5. labels_of E5 H. prefix_of E5 HL'.
  inv_bind E as u6 s6 E6. labels_of E6 H. prefix_of E6 HL'.
  inv_bind E as c s7 E7.
  apply (plot_all_labels _ _ _ _ _ _ _ _ _ HL') in E7.
  - labels_of E E7. rewrite E7, H. cbn [trace curve_labels flat_map lg_n drop app].
    reflexivity.
  - cbn [lg_n]. rewrite length_app, length_replicate. lia.
Qed.

Lemma legend_entries_witness :
  curve_labels (trace (snd (call [PList [group [spec_J; spec_H]; group [spec_J]]] one_label
                                 one_label_store)))
  = ["J band"; ""; ""].
Proof.
  apply (legend_entries_label_the_curves [PList [group [spec_J; spec_H]; group [spec_J]]]
           one_label one_label_store _ [[spec_J; spec_H]; [spec_J]] ["J band"]).
  - reflexivity.
  - intros r Hr. injection Hr as <-. split; [reflexivity | discriminate].
  - vm_compute. reflexivity.
Defined.

(** ** What a call does to the lists of the store *)

(** X12.  However a call ends, it has removed nothing from the lists of the
    store: a list of strings (features, line styles, legend) is what it was,
    followed by what was appended; a list of flags is what it was, followed
    by [True]s only; a list of colours is at least as long as it was. *)
Theorem lists_of_the_caller_only_grow (args : list pyobj) (kw : kwargs) (h : Heap) (a : nat) :
  (forall l, strs h !! a = Some l ->
     exists ext, strs (heap (snd (call args kw h))) !! a = Some (l ++ ext))
  /\ (forall l, bools h !! a = Some l ->
        exists k, bools (heap (snd (call args kw h))) !! a = Some (l ++ replicate k true))
  /\ (forall l, cols h !! a = Some l ->
        exists l', cols (heap (snd (call args kw h))) !! a = Some l'
                   /\ (length l <= length l')%nat).
Proof.
  unfold call. split; [|split].
  - intros l Hl.
    exact (plotSpectrum_frame _ _ (strings_grow_frame a) (strings_grow_extend_float a)
             (fun _ => eq_refl) args kw (mkState h []) l Hl).
  - intros l Hl.
    destruct (plotSpectrum_frame _ _ (flags_padded_frame a l) (flags_padded_extend_float a l)
                (fun _ => eq_refl) args kw (mkState h []) 0%nat) as (k & _ & Hk).
    + cbn [heap replicate]. now rewrite app_nil_r.
    + eauto.
  - intros l Hl.
    exact (plotSpectrum_frame _ _ (colors_lengthen_frame a) (colors_lengthen_extend_float a)
             (fun _ => eq_refl) args kw (mkState h []) l Hl).
Qed.

(** ** The zero points (lines 261, 341) *)

Lemma axis_bounds_elsewhere kw spectra zp bd st st' a l :
  axis_bounds kw spectra zp st = (Ok bd, st') ->
  floats (heap st) !! a = Some l -> kw_xrange kw <> Some (Ref a) ->
  floats (heap st') !! a = Some l.
Proof.
  intros E Hl Hkw. unfold axis_bounds in E. inv_bind E as xr s0 E0.
  assert (floats (heap s0) !! a = Some l /\ a <> addr xr) as [H0 Ha].
  { destruct (kw_xrange kw) as [rx|]; cbn [kwlist] in E0.
    - apply ret_Ok_inv in E0 as [-> ->]. split; [assumption|].
      intros ->. apply Hkw. now destruct rx.
    - unfold alloc in E0. injection E0 as <- <-. cbn -[lookup app]. split.
      + now apply lookup_app_l_Some.
      + apply lookup_lt_Some in Hl. lia. }
  inv_bind E as top s1 E1. apply lift_option_Ok_inv in E1 as [_ ->].
  inv_bind E as z s2 E2. apply load_Ok_inv in E2 as [-> _].
  inv_bind E as ztop s3 E3. apply lift_option_Ok_inv in E3 as [_ ->].
  inv_bind E as yrng s4 E4.
  assert (s4 = s0) as ->.
  { destruct (kw_yrange kw).
    - now apply load_Ok_inv in E4 as [-> _].
    - now apply ret_Ok_inv in E4 as [_ ->]. }
  inv_bind E as u s5 E5. apply ret_Ok_inv in E as [_ ->].
  replace s5 with (snd (extend xr yrng s0)) by now rewrite E5.
  rewrite extend_heap. destruct (cell_get (heap s0) !! addr xr); [|assumption].
  cbn -[insert lookup]. rewrite list_lookup_insert_ne by congruence. exact H0.
Qed.

Lemma plot_parameters_zeropoint kw sp first p spectra st st' rz zp :
  kw_zeropoint kw = Some rz -> kw_xrange kw <> Some rz ->
  floats (heap st) !! addr rz = Some zp ->
  plot_parameters kw sp first st = (Ok (p, spectra), st') ->
  zeropoint p = rz
  /\ exists zp', floats (heap st') !! addr rz = Some zp' /\ length zp' = length zp.
Proof.
  intros Hkw Hx Hzp E. unfold plot_parameters in E. rewrite Hkw in E. cbn [kwlist] in E.
  inv_bind E as r s0 E0. apply ret_Ok_inv in E0 as [-> ->].
  inv_bind E as sps s1 E1. apply lift_result_Ok_inv in E1 as [_ ->].
  inv_bind E as bd s2 E2.
  assert (Hzp2 : floats (heap s2) !! addr rz = Some zp).
  { apply (axis_bounds_elsewhere _ _ _ _ _ _ _ _ E2 Hzp). now destruct rz. }
  inv_bind E as ls s3 E3. keep_step E3 Hzp2.
  inv_bind E as cc s4 E4. destruct cc as [cs cu]. keep_step E4 Hzp2.
  inv_bind E as sn s5 E5. keep_step E5 Hzp2.
  inv_bind E as sz s6 E6. keep_step E6 Hzp2.
  apply ret_Ok_inv in E as [E ->]. inversion E; subst. cbn [zeropoint].
  split; [reflexivity|]. eexists. split; [eassumption | lia].
Qed.

Lemma plot_one_zeropoint kw cfg p n ii a lg env env' st st' zp :
  floats (heap st) !! addr (zeropoint p) = Some zp ->
  plot_one kw cfg p n ii a lg env st = (Ok env', st') ->
  flux a <> [] -> (ii < length zp)%nat.
Proof.
  intros Hzp E Hflux. unfold plot_one in E. inv_bind E as flx s0 E0.
  unfold stacked_flux in E0. inv_bind E0 as flx0 s1 E1. unfold offset_by in E1.
  destruct (flux a) as [|f fl]; [congruence|].
  inv_bind E1 as z s2 E2. apply getitem_Ok_inv in E2 as (-> & l & Hl & Hz).
  change (cell_get (heap st)) with (floats (heap st)) in Hl.
  rewrite Hzp in Hl. injection Hl as <-. now apply lookup_lt_Some in Hz.
Qed.

Lemma plot_spectra_zeropoint kw cfg p n spectra : forall ii lg env out st st' zp,
  floats (heap st) !! addr (zeropoint p) = Some zp ->
  plot_spectra kw cfg p n ii spectra lg env st = (Ok out, st') ->
  forall j a, spectra !! j = Some a -> flux a <> [] -> (ii + j < length zp)%nat.
Proof.
  induction spectra as [|s spectra IH]; intros ii lg env out st st' zp Hzp E j a Hj Hflux;
    [discriminate Hj|].
  cbn [plot_spectra] in E. inv_bind E as env1 s1 E1. destruct j as [|j]; cbn in Hj.
  - injection Hj as ->. rewrite Nat.add_0_r.
    exact (plot_one_zeropoint _ _ _ _ _ _ _ _ _ _ _ _ Hzp E1 Hflux).
  - keep_step E1 Hzp.
    pose proof (IH (S ii) _ _ _ _ _ _ Hzp E j a Hj Hflux). lia.
Qed.

(** X13.  The list of zero points is not completed as the other per-spectrum
    lists are: when [zeropoint] is a list (not the [xrange] list) with fewer
    entries than the plot group has spectra, and a spectrum beyond its
    entries has flux values, the plot group ends in an error. *)
Theorem short_zeropoint_list_is_fatal
    (kw : kwargs) (cfg : config) (plts : nat) (spectra : list Spectrum) (c : counters)
    (st : state) (rz : ref float) (zp : list float) (j : nat) (a : Spectrum) :
  kw_zeropoint kw = Some rz -> kw_xrange kw <> Some rz ->
  floats (heap st) !! addr rz = Some zp ->
  spectra !! j = Some a -> flux a <> [] -> (length zp <= j)%nat ->
  exists e, fst (plot_group kw cfg plts (group spectra) c st) = Err e.
Proof.
  intros Hkw Hx Hzp Hj Hflux Hlen.
  destruct (plot_group kw cfg plts (group spectra) c st) as [[c'|e] st'] eqn:E;
    [exfalso | now exists e].
  unfold plot_group in E.
  inv_bind E as x s0 E0. destruct x as [l first].
  apply first_spectrum_Ok in E0 as (-> & Hl & _). injection Hl as <-.
  inv_bind E as y s1 E1. destruct y as [p spectra'].
  pose proof (plot_parameters_spectra _ _ _ _ _ _ _ E1) as Hsp.
  apply spectra_of_Ok, map_PSpectrum_inj in Hsp. subst spectra'.
  destruct (plot_parameters_zeropoint _ _ _ _ _ _ _ _ _ Hkw Hx Hzp E1)
    as (Hp & zp1 & Hzp1 & Hlen1).
  inv_bind E as c2 s2 E2. keep_step E2 Hzp1.
  inv_bind E as z s3 E3. rewrite <- Hp in Hzp1.
  pose proof (plot_spectra_zeropoint _ _ _ _ _ _ _ _ _ _ _ _ Hzp1 E3 j a Hj Hflux). lia.
Qed.

Lemma short_zeropoint_witness :
  exists e, fst (plot_group one_zeropoint plain_config 0 (group [spec_J; spec_H]) no_pages
                              one_zeropoint_state) = Err e.
Proof.
  apply (short_zeropoint_list_is_fatal one_zeropoint plain_config 0 [spec_J; spec_H] no_pages
           one_zeropoint_state (Ref 0) [0.5%float] 1 spec_H).
  - reflexivity.
  - discriminate.
  - reflexivity.
  - reflexivity.
  - discriminate.
  - cbn. lia.
Defined.

(** ** Features inside the axis bounds (lines 384-406) *)

Lemma sample_grid_not_empty : Numpy.arange 0 (1000 + 1.0) 1 <> [].
Proof. vm_compute. discriminate. Qed.

Lemma nanmax_not_empty (l : list float) : l <> [] -> exists top, Numpy.nanmax l = Some top.
Proof. destruct l; [congruence|]. intros _. cbn. eauto. Qed.

Lemma appends_refl st : appends any_kind st st.
Proof. exists []. split; [now rewrite app_nil_r | constructor]. Qed.

Lemma appends_more st evs :
  appends any_kind st (mkState (heap st) (trace st ++ evs)).
Proof. exists evs. split; [reflexivity|]. now apply Forall_forall. Qed.

Lemma appends_trans st1 st2 st3 :
  appends any_kind st1 st2 -> appends any_kind st2 st3 -> appends any_kind st1 st3.
Proof.
  intros (e1 & H1 & F1) (e2 & H2 & F2). exists (e1 ++ e2).
  split; [now rewrite H2, H1, app_assoc | now apply Forall_app].
Qed.

Lemma interpolant_runs xs ys st :
  xs <> [] -> length ys = length xs ->
  exists f, interpolant xs ys st = (Ok f, st)
            /\ forall xnew, length (f xnew) = length xnew.
Proof.
  intros Hxs Hlen. unfold interpolant, Numpy.interp1d. rewrite Hlen, Nat.ltb_irrefl.
  destruct xs as [|x xs]; [congruence|]. eexists. split; [reflexivity|].
  intros xnew. apply length_map.
Qed.

Lemma label_interval_runs cfg p yoff fs ftr ft k w0 w1 wvmax flxmax st b lo hi :
  nsamples cfg = 1000%float ->
  wvmax <> [] -> length flxmax = length wvmax ->
  floats (heap st) !! addr (bound p) = Some b ->
  b !! 0%nat = Some lo -> b !! 1%nat = Some hi ->
  exists flxmax' st',
    label_interval cfg p yoff fs ftr ft k (w0, w1) wvmax flxmax st = (Ok flxmax', st')
    /\ length flxmax' = length wvmax
    /\ heap st' = heap st
    /\ appends any_kind st st'
    /\ ((lo <? Numpy.minimum w0 w1)%float && (Numpy.maximum w0 w1 <? hi)%float = true ->
        exists x y, recorded st st' (Text (FeatureLabel ftr k) x y (ft_label ft) fs)).
Proof.
  intros Hn Hw Hlen Hb H0 H1. unfold label_interval.
  rewrite bind_run, (@getitem_run float float_cell _ _ _ _ _ _ Hb H0).
  rewrite bind_run, (@getitem_run float float_cell _ _ _ _ _ _ Hb H1).
  destruct ((lo <? Numpy.minimum w0 w1)%float && (Numpy.maximum w0 w1 <? hi)%float).
  - destruct (interpolant_runs wvmax flxmax st Hw Hlen) as (f & Ef & Hf).
    rewrite bind_run, Ef, bind_run, Hn.
    match goal with
    | |- context [Numpy.nanmax ?l] =>
        destruct (nanmax_not_empty l) as [top ->]
    end.
    { intros H. apply (f_equal (@length float)) in H. rewrite Hf, length_map in H.
      apply sample_grid_not_empty. now apply length_zero_iff_nil. }
    cbn [lift_option ret].
    destruct (ft_type ft); cbn; rewrite <- ?app_assoc; eexists _, _;
      (split; [reflexivity|]);
      (split; [rewrite length_zip_with, length_map; lia|]);
      (split; [reflexivity|]);
      (split; [apply appends_more|]); intros _; eexists _, _.
    + exists [Plot (BandBracket ftr k) [w0; w1]
                   [top + 0.5 * yoff + yoff; top + 0.5 * yoff + yoff]%float
                   (Named "k") "-" None None;
              Plot (BandEdge ftr k) [w0; w0] [top + 0.5 * yoff; top + 0.5 * yoff + yoff]%float
                   (Named "k") "-" None None], [].
      reflexivity.
    + exists [Plot (LineTick ftr k) [w0; w0] [top + 0.5 * yoff; top + 0.5 * yoff + yoff]%float
                   (Named "k") "-" None None;
              Plot (LineTick ftr k) [w1; w1] [top + 0.5 * yoff; top + 0.5 * yoff + yoff]%float
                   (Named "k") "-" None None], [].
      reflexivity.
  - eexists _, _. split; [reflexivity|]. split; [assumption|]. split; [reflexivity|].
    split; [apply appends_refl | discriminate].
Qed.

Lemma label_intervals_runs cfg p yoff fs ftr ft wvmax b lo hi ranges :
  nsamples cfg = 1000%float -> wvmax <> [] ->
  b !! 0%nat = Some lo -> b !! 1%nat = Some hi ->
  forall j flxmax st,
    length flxmax = length wvmax ->
    floats (heap st) !! addr (bound p) = Some b ->
    exists flxmax' st',
      label_intervals cfg p yoff fs ftr ft j ranges wvmax flxmax st = (Ok flxmax', st')
      /\ length flxmax' = length wvmax
      /\ heap st' = heap st
      /\ appends any_kind st st'
      /\ (forall i w0 w1,
            ranges !! i = Some (w0, w1) ->
            (lo <? Numpy.minimum w0 w1)%float && (Numpy.maximum w0 w1 <? hi)%float = true ->
            exists x y,
              recorded st st' (Text (FeatureLabel ftr (j + i)) x y (ft_label ft) fs)).
Proof.
  intros Hn Hw H0 H1. induction ranges as [|[w0 w1] ranges IH]; intros j flxmax st Hlen Hb;
    cbn [label_intervals].
  - eexists _, _. split; [reflexivity|]. split; [assumption|]. split; [reflexivity|].
    split; [apply appends_refl|]. intros i w0 w1 Hi. discriminate Hi.
  - destruct (label_interval_runs cfg p yoff fs ftr ft j w0 w1 wvmax flxmax st b lo hi
                Hn Hw Hlen Hb H0 H1) as (flxmax1 & s1 & E1 & Hlen1 & Hh1 & A1 & R1).
    rewrite bind_run, E1.
    destruct (IH (S j) flxmax1 s1 Hlen1 ltac:(now rewrite Hh1))
      as (flxmax2 & s2 & E2 & Hlen2 & Hh2 & A2 & R2).
    exists flxmax2, s2. split; [exact E2|]. split; [assumption|]. split; [congruence|].
    split; [eapply appends_trans; eassumption|].
    intros [|i] w0' w1' Hi Hin; cbn in Hi.
    + injection Hi as <- <-. rewrite Nat.add_0_r. destruct (R1 Hin) as (x & y & R).
      exists x, y. eapply recorded_earlier; eassumption.
    + destruct (R2 i w0' w1' Hi Hin) as (x & y & R). exists x, y.
      replace (j + S i)%nat with (S j + i)%nat by lia.
      eapply recorded_later; eassumption.
Qed.

Lemma label_features_runs cfg p yoff fs wvmax b lo hi requested :
  nsamples cfg = 1000%float -> wvmax <> [] ->
  b !! 0%nat = Some lo -> b !! 1%nat = Some hi ->
  forall flxmax st,
    length flxmax = length wvmax ->
    floats (heap st) !! addr (bound p) = Some b ->
    exists flxmax' st',
      label_features cfg p yoff fs requested wvmax flxmax st = (Ok flxmax', st')
      /\ length flxmax' = length wvmax
      /\ heap st' = heap st
      /\ appends any_kind st st'
      /\ (forall code ft k w0 w1,
            In code requested ->
            lookup_feature (lower code) feature_labels = Some ft ->
            ft_wavelengths ft !! k = Some (w0, w1) ->
            (lo <? Numpy.minimum w0 w1)%float && (Numpy.maximum w0 w1 <? hi)%float = true ->
            exists x y,
              recorded st st' (Text (FeatureLabel (lower code) k) x y (ft_label ft) fs)).
Proof.
  intros Hn Hw H0 H1.
  induction requested as [|code requested IH]; intros flxmax st Hlen Hb;
    cbn [label_features].
  - eexists _, _. split; [reflexivity|]. split; [assumption|]. split; [reflexivity|].
    split; [apply appends_refl|]. intros code ft k w0 w1 [].
  - assert (exists flxmax1 s1,
              match lookup_feature (lower code) feature_labels with
              | Some ft => label_intervals cfg p yoff fs (lower code) ft 0 (ft_wavelengths ft)
                                           wvmax flxmax
              | None => ret flxmax
              end st = (Ok flxmax1, s1)
              /\ length flxmax1 = length wvmax
              /\ heap s1 = heap st /\ appends any_kind st s1
              /\ (forall ft k w0 w1,
                    lookup_feature (lower code) feature_labels = Some ft ->
                    ft_wavelengths ft !! k = Some (w0, w1) ->
                    (lo <? Numpy.minimum w0 w1)%float && (Numpy.maximum w0 w1 <? hi)%float
                    = true ->
                    exists x y,
                      recorded st s1 (Text (FeatureLabel (lower code) k) x y (ft_label ft) fs)))
      as (flxmax1 & s1 & E1 & Hlen1 & Hh1 & A1 & R1).
    { destruct (lookup_feature (lower code) feature_labels) as [ft|].
      - destruct (label_intervals_runs cfg p yoff fs (lower code) ft wvmax b lo hi
                    (ft_wavelengths ft) Hn Hw H0 H1 0%nat flxmax st Hlen Hb)
          as (flxmax1 & s1 & E1 & Hlen1 & Hh1 & A1 & R1).
        exists flxmax1, s1. repeat split; try assumption.
        intros ft' k w0 w1 Hft Hk Hin. injection Hft as <-. exact (R1 k w0 w1 Hk Hin).
      - exists flxmax, st. repeat split; [assumption | apply appends_refl|]. discriminate. }
    rewrite bind_run, E1.
    destruct (IH flxmax1 s1 Hlen1 ltac:(now rewrite Hh1))
      as (flxmax2 & s2 & E2 & Hlen2 & Hh2 & A2 & R2).
    exists flxmax2, s2. split; [exact E2|]. split; [assumption|]. split; [congruence|].
    split; [eapply appends_trans; eassumption|].
    intros code' ft k w0 w1 [<-|Hcode] Hft Hk Hin.
    + destruct (R1 ft k w0 w1 Hft Hk Hin) as (x & y & R). exists x, y.
      eapply recorded_earlier; eassumption.
    + destruct (R2 code' ft k w0 w1 Hcode Hft Hk Hin) as (x & y & R). exists x, y.
      eapply recorded_later; eassumption.
Qed.

(** X14.  With the default number of samples, and an envelope [wvmax],
    [flxmax] of at least two wavelengths and as many fluxes, the
    labelling of lines 384-406 runs without error on a plot with x bounds
    [lo] and [hi], and it labels every interval that is strictly inside the
    bounds of every requested code that, put in lower case, is in the
    table. *)
Theorem interval_inside_bounds_is_annotated
    (cfg : config) (p : params) (yoff : float) (fontsize : Z) (requested : list string)
    (wvmax flxmax : list float) (st : state) (b : list float) (lo hi : float)
    (code : string) (ft : feature) (k : nat) (w0 w1 : float) :
  nsamples cfg = 1000%float ->
  (2 <= length wvmax)%nat -> length flxmax = length wvmax ->
  floats (heap st) !! addr (bound p) = Some b ->
  b !! 0%nat = Some lo -> b !! 1%nat = Some hi ->
  In code requested ->
  lookup_feature (lower code) feature_labels = Some ft ->
  ft_wavelengths ft !! k = Some (w0, w1) ->
  (lo <? Numpy.minimum w0 w1)%float && (Numpy.maximum w0 w1 <? hi)%float = true ->
  exists flxmax' st' x y,
    label_features cfg p yoff fontsize requested wvmax flxmax st = (Ok flxmax', st')
    /\ recorded st st' (Text (FeatureLabel (lower code) k) x y (ft_label ft) fontsize).
Proof.
  intros Hn Hw2 Hlen Hb H0 H1 Hcode Hft Hk Hin.
  assert (Hw : wvmax <> []) by (intros ->; cbn in Hw2; lia).
  destruct (label_features_runs cfg p yoff fontsize wvmax b lo hi requested Hn Hw H0 H1
              flxmax st Hlen Hb) as (flxmax' & st' & E & _ & _ & _ & R).
  destruct (R code ft k w0 w1 Hcode Hft Hk Hin) as (x & y & Hr).
  exists flxmax', st', x, y. split; assumption.
Qed.

Lemma interval_inside_bounds_witness :
  exists flxmax' st' x y,
    label_features plain_config default_range_params 0.02 10 ["H2O"] [1.0; 1.3]%float
                   [1; 1]%float default_range_state = (Ok flxmax', st')
    /\ recorded default_range_state st' (Text (FeatureLabel "h2o" 1) x y "H$_2$O" 10).
Proof.
  apply (interval_inside_bounds_is_annotated plain_config default_range_params 0.02 10
           ["H2O"] [1.0; 1.3]%float [1; 1]%float default_range_state
           [0.85; 2.42; 0; 1]%float 0.85 2.42 "H2O"
           (mkFeature "H$_2$O" band
              [(0.92, 0.95); (1.08, 1.20); (1.325, 1.550); (1.72, 2.14)]%float)
           1 1.08 1.20); try reflexivity.
  now left.
Defined.
